(** * Path-following and speed-profile engine of the rail-ride prototype

    Shallow embedding of the arc-length / speed-profile / ride-clock code of
    the ride prototype (distanceToIndex, sToT, baseSegmentSpeedAtS, speedAtS,
    initializePathData, computeTurnAngles, rebuildCurveAndRoad,
    loadPathFromJSON and the ride branch of renderLoop).

    Numbers.  A JavaScript number is modelled by [num]: a rational, one of the
    two infinities, or NaN.  Arithmetic on finite values is exact (rounding,
    overflow and the sign of zero are outside the model); the special values
    follow IEEE 754 / ECMAScript (NaN poisons arithmetic and makes every
    comparison false, [x / 0] is an infinity or NaN, [x % 0] is NaN).

    The program computes in binary64.  The theorems about magnitudes are
    therefore stated so that they do not depend on the exactness of the
    model: their hypotheses bound the inputs far below the range in which a
    binary64 sum or product overflows, and their conclusions are of the kinds
    that correct rounding preserves (the outcome of the program's own
    comparisons, membership in an interval whose ends are numbers of the
    program, equality with the value of the program's own expression). *)

From Stdlib Require Import Reals Machin.
From Stdlib Require Import String ZArith QArith Qround Qabs Psatz Lia Bool List.
Import ListNotations.

(* ------------------------------------------------------------------ *)
(** ** JavaScript numbers *)

Module JsNum.

Inductive num : Type :=
| NaN
| NInf
| Fin (q : Q)
| PInf.

Definition zero : num := Fin 0.
Definition one : num := Fin 1.

Definition isFinite (x : num) : bool :=
  match x with Fin _ => true | _ => false end.

Definition isNaN (x : num) : bool :=
  match x with NaN => true | _ => false end.

(** [Qltb a b] decides [a < b] on rationals. *)
Definition Qltb (a b : Q) : bool := negb (Qle_bool b a).

(** The relational operators [<], [<=], [>], [>=] and [===]. *)
Definition ltb (x y : num) : bool :=
  match x, y with
  | NaN, _ | _, NaN => false
  | NInf, NInf => false
  | NInf, _ => true
  | Fin a, Fin b => Qltb a b
  | Fin _, PInf => true
  | _, _ => false
  end.

Definition leb (x y : num) : bool :=
  match x, y with
  | NaN, _ | _, NaN => false
  | NInf, _ => true
  | Fin a, Fin b => Qle_bool a b
  | Fin _, PInf => true
  | PInf, PInf => true
  | _, _ => false
  end.

Definition gtb (x y : num) : bool := ltb y x.
Definition geb (x y : num) : bool := leb y x.

Definition eqb (x y : num) : bool :=
  match x, y with
  | NInf, NInf | PInf, PInf => true
  | Fin a, Fin b => Qeq_bool a b
  | _, _ => false
  end.

(** Sign of a rational, used by the rules for products and quotients. *)
Definition Qsgn (a : Q) : Z := Z.sgn (Qnum a).

Definition neg (x : num) : num :=
  match x with
  | NaN => NaN | NInf => PInf | PInf => NInf | Fin a => Fin (- a)
  end.

Definition add (x y : num) : num :=
  match x, y with
  | NaN, _ | _, NaN => NaN
  | Fin a, Fin b => Fin (a + b)
  | PInf, NInf | NInf, PInf => NaN
  | PInf, _ | _, PInf => PInf
  | NInf, _ | _, NInf => NInf
  end.

Definition sub (x y : num) : num := add x (neg y).

(** The infinity carrying the sign [s]; zero times infinity is NaN. *)
Definition inf_of_sign (s : Z) : num :=
  match s with Z0 => NaN | Zpos _ => PInf | Zneg _ => NInf end.

Definition sign (x : num) : Z :=
  match x with
  | NaN => 0 | NInf => -1 | PInf => 1 | Fin a => Qsgn a
  end.

Definition mul (x y : num) : num :=
  match x, y with
  | NaN, _ | _, NaN => NaN
  | Fin a, Fin b => Fin (a * b)
  | _, _ => inf_of_sign (sign x * sign y)
  end.

Definition div (x y : num) : num :=
  match x, y with
  | NaN, _ | _, NaN => NaN
  | Fin a, Fin b =>
      if Qeq_bool b 0 then inf_of_sign (Qsgn a) else Fin (a / b)
  | Fin _, _ => Fin 0
  | _, Fin b => inf_of_sign (sign x * (if Qeq_bool b 0 then 1 else Qsgn b))
  | _, _ => NaN
  end.

(** [a % b]: the remainder has the sign of the dividend. *)
Definition Qtrunc (a : Q) : Z :=
  if Qle_bool 0 a then Qfloor a else Qceiling a.

Definition rem (x y : num) : num :=
  match x, y with
  | Fin a, Fin b =>
      if Qeq_bool b 0 then NaN else Fin (a - b * inject_Z (Qtrunc (a / b)))
  | Fin a, (PInf | NInf) => Fin a
  | _, _ => NaN
  end.

(** [Math.max] and [Math.min] on two arguments: NaN if either is NaN. *)
Definition max (x y : num) : num :=
  match x, y with
  | NaN, _ | _, NaN => NaN
  | _, _ => if ltb x y then y else x
  end.

Definition min (x y : num) : num :=
  match x, y with
  | NaN, _ | _, NaN => NaN
  | _, _ => if ltb y x then y else x
  end.

Definition ceil (x : num) : num :=
  match x with Fin a => Fin (inject_Z (Qceiling a)) | _ => x end.

(** Truthiness of a number, as used by [||]: NaN and zero are falsy. *)
Definition truthy (x : num) : bool :=
  match x with
  | NaN => false
  | Fin a => negb (Qeq_bool a 0)
  | _ => true
  end.

(** [a || b] on numbers. *)
Definition or_else (x y : num) : num := if truthy x then x else y.

(** THREE.MathUtils.clamp(value, min, max) = Math.max(min, Math.min(max, value)). *)
Definition clamp (value lo hi : num) : num := max lo (min hi value).

(** clampNumber(value, lo, hi) = Math.min(Math.max(value, lo), hi). *)
Definition clampNumber (value lo hi : num) : num := min (max value lo) hi.

(** THREE.MathUtils.lerp(x, y, t) = (1 - t) * x + t * y. *)
Definition lerp (x y t : num) : num := add (mul (sub one t) x) (mul t y).

(** Reading a number out of an array: a missing element is [undefined],
    which behaves as NaN in arithmetic and in comparisons. *)
Definition getNum (l : list num) (i : Z) : num :=
  if (i <? 0)%Z then NaN else nth (Z.to_nat i) l NaN.

(** Reading an element that may be [undefined] (for [??]). *)
Definition getOpt {A} (l : list A) (i : Z) : option A :=
  if (i <? 0)%Z then None else nth_error l (Z.to_nat i).

(** [a ?? b]: the default is taken only for [undefined]. *)
Definition nullish (x : option num) (d : num) : num :=
  match x with Some v => v | None => d end.

End JsNum.

Import JsNum.

Declare Scope num_scope.
Delimit Scope num_scope with num.
Bind Scope num_scope with num.
Infix "+" := add : num_scope.
Infix "-" := sub : num_scope.
Infix "*" := mul : num_scope.
Infix "/" := div : num_scope.
Infix "<?" := ltb : num_scope.
Infix "<=?" := leb : num_scope.
Infix ">?" := gtb : num_scope.
Infix ">=?" := geb : num_scope.
Infix "===" := eqb (at level 70, no associativity) : num_scope.
Close Scope Q_scope.
Open Scope num_scope.

(** The comparisons as propositions: [x <= y] holds when the JavaScript
    test [x <= y] is true (so neither side is NaN). *)
Definition le (x y : num) : Prop := (x <=? y) = true.
Definition lt (x y : num) : Prop := (x <? y) = true.
Infix "<=" := le : num_scope.
Infix "<" := lt : num_scope.
Notation "x <= y <= z" := (le x y /\ le y z) : num_scope.
Notation "x < y < z" := (lt x y /\ lt y z) : num_scope.
Notation "x <= y < z" := (le x y /\ lt y z) : num_scope.
Notation "x < y <= z" := (lt x y /\ le y z) : num_scope.

(** Decimal literals used by the code. *)
Definition n10 : num := Fin 10%Q.
Definition n100 : num := Fin 100%Q.
Definition eps6 : num := Fin (1 # 1000000)%Q.      (* 1e-6 *)
Definition targetStep : num := Fin (2 # 100)%Q.    (* 0.02 *)

(* ------------------------------------------------------------------ *)
(** ** Vectors (THREE.Vector3) *)

Record vec3 : Type := Vec3 { vx : num; vy : num; vz : num }.

Definition vec_finite (p : vec3) : bool :=
  isFinite (vx p) && isFinite (vy p) && isFinite (vz p).

(** Vector3.subVectors(a, b) *)
Definition subVectors (a b : vec3) : vec3 :=
  Vec3 (vx a - vx b) (vy a - vy b) (vz a - vz b).

(** Vector3.lerpVectors(v1, v2, alpha): v1 + (v2 - v1) * alpha, per component. *)
Definition lerpVectors (v1 v2 : vec3) (alpha : num) : vec3 :=
  Vec3 (vx v1 + (vx v2 - vx v1) * alpha)
       (vy v1 + (vy v2 - vy v1) * alpha)
       (vz v1 + (vz v2 - vz v1) * alpha).

(** Vector3.setY(y) *)
Definition setY (a : vec3) (y : num) : vec3 := Vec3 (vx a) y (vz a).

(** Vector3.dot *)
Definition dot (a b : vec3) : num :=
  vx a * vx b + vy a * vy b + vz a * vz b.

(** Vector3.distanceToSquared *)
Definition distanceToSquared (a b : vec3) : num :=
  let dx := vx a - vx b in
  let dy := vy a - vy b in
  let dz := vz a - vz b in
  dx * dx + dy * dy + dz * dz.

(* ------------------------------------------------------------------ *)
(** ** Module-level state of the path engine *)

Record PathState : Type := mkPathState {
  sCurveControlPoints : list vec3;
  segSpeeds : list num;
  sampledPts : list vec3;
  cumLen : list num;
  totalLen : num;
  sAtPoint : list num;
  turnAngle : list num;
  tension : num;
  rideProgressT : num;
  rideProgressS : num;
  isRideActive : bool;
  isRideLooping : bool
}.

(** The values read from the configuration inputs of the page
    (each is the result of [parseFloat(input.value)]). *)
Record Inputs : Type := mkInputs {
  resScale : num;
  heightScaleValue : num;
  leadDistanceValue : num;
  wPrevStart : num;
  wPrevEnd : num;
  wNextHold : num;
  wNextAccel : num;
  p0_20 : num;
  p20_45 : num;
  p45_90 : num;
  p90_120 : num;
  p120_150 : num;
  p150_165 : num;
  p165_180 : num
}.

(** The default window parameters (speedWindowParams): 0.625, 1.0, 0 and 0.5. *)
Definition defaultWindows (inp : Inputs) : Prop :=
  wPrevStart inp = Fin (625 # 1000)%Q /\ wPrevEnd inp = Fin 1%Q /\
  wNextHold inp = Fin 0%Q /\ wNextAccel inp = Fin (5 # 10)%Q.

(* ------------------------------------------------------------------ *)
(** ** Distance -> index (binary search) *)

(** The [while (lo < hi)] loop of distanceToIndex; [fuel] bounds the number
    of iterations ([hi - lo] always suffices, see [bsearch_fuel]).  [lo] and
    [hi] are array indices, far below 2^31, so the conversion to 32 bits
    that [>>] performs on [lo + hi] is the identity and [(lo + hi) >> 1] is
    the shift of the sum. *)
Fixpoint bsearch (table : list num) (distance : num) (fuel : nat) (lo hi : Z) : Z :=
  match fuel with
  | O => lo
  | S fuel' =>
      if (lo <? hi)%Z then
        let mid := Z.shiftr (lo + hi) 1 in
        if (getNum table mid <? distance)%num
        then bsearch table distance fuel' (mid + 1) hi
        else bsearch table distance fuel' lo mid
      else lo
  end.

Definition distanceToIndex (st : PathState) (distance : num) : Z :=
  let distance := max zero (min distance (totalLen st)) in
  let lo := 0%Z in
  let hi := (Z.of_nat (length (cumLen st)) - 1)%Z in
  bsearch (cumLen st) distance (length (cumLen st)) lo hi.

(** A table is non-decreasing when each entry is [<=] the next one. *)
Definition nondecreasing (c : list num) : Prop :=
  forall i : Z, (0 <= i)%Z -> (i + 1 < Z.of_nat (length c))%Z ->
    getNum c i <= getNum c (i + 1).

(** Index of the last entry of the cumulative-length table. *)
Definition lastIndex (st : PathState) : Z :=
  (Z.of_nat (length (cumLen st)) - 1)%Z.

(** The cumulative-length table of a state: non-empty, non-decreasing and
    ending at [totalLen]. *)
Definition arcLengthTable (st : PathState) : Prop :=
  cumLen st <> [] /\
  nondecreasing (cumLen st) /\
  getNum (cumLen st) (lastIndex st) = totalLen st.

(** An integer (an index or a length) as a number. *)
Definition intNum (z : Z) : num := Fin (inject_Z z).

Definition lenNum {A} (l : list A) : num := intNum (Z.of_nat (length l)).

(* ------------------------------------------------------------------ *)
(** ** Path parameterization: sToT *)

Definition sToT (st : PathState) (s : num) : num :=
  if (totalLen st === zero) || negb (isFinite s) then zero else
  let targetS := clamp s zero (totalLen st) in
  let index := distanceToIndex st targetS in
  if (index =? 0)%Z then zero else
  if (index >=? Z.of_nat (length (cumLen st)) - 1)%Z then one else
  let s0 := getNum (cumLen st) (index - 1) in
  let s1 := getNum (cumLen st) index in
  let t1 := intNum index / (lenNum (sampledPts st) - one) in
  let t0 := intNum (index - 1) / (lenNum (sampledPts st) - one) in
  let segmentLength := s1 - s0 in
  let segmentProgress :=
    if segmentLength === zero then zero else (targetS - s0) / segmentLength in
  t0 + (t1 - t0) * segmentProgress.

(* ------------------------------------------------------------------ *)
(** ** Speed profile *)

Definition anglePercent (inp : Inputs) (deg : num) : num :=
  let d := deg in
  if d <=? Fin 20%Q then p0_20 inp / n100 else
  if d <=? Fin 45%Q then p20_45 inp / n100 else
  if d <=? Fin 90%Q then p45_90 inp / n100 else
  if d <=? Fin 120%Q then p90_120 inp / n100 else
  if d <=? Fin 150%Q then p120_150 inp / n100 else
  if d <=? Fin 165%Q then p150_165 inp / n100 else
  p165_180 inp / n100.

(** The [for (i = 1; i < points.length; i++)] loop of baseSegmentSpeedAtS,
    over the remaining indices [idxs]; [None] when the loop falls through. *)
Fixpoint findSegmentSpeed (st : PathState) (s : num) (idxs : list nat) : option num :=
  match idxs with
  | [] => None
  | i :: rest =>
      let sB := getNum (sAtPoint st) (Z.of_nat i) in
      if s <=? sB
      then Some (nullish (getOpt (segSpeeds st) (Z.of_nat i - 1)) n10)
      else findSegmentSpeed st s rest
  end.

Definition baseSegmentSpeedAtS (st : PathState) (s : num) : num :=
  let n := length (sCurveControlPoints st) in
  if (n <? 2)%nat then n10 else
  match findSegmentSpeed st s (seq 1 (n - 1)) with
  | Some v => v
  | None =>
      nullish (getOpt (segSpeeds st) (Z.of_nat (length (segSpeeds st)) - 1)) n10
  end.

(** One iteration of the loop of speedAtS, for the interior point [i]. *)
Definition turnWindow (inp : Inputs) (st : PathState) (s : num) (v : num) (i : nat) : num :=
  let prevStart := wPrevStart inp in
  let prevEnd := wPrevEnd inp in
  let nextHold := wNextHold inp in
  let nextAccel := wNextAccel inp in
  let i := Z.of_nat i in
  let sPrevA := getNum (sAtPoint st) (i - 1) in
  let sPrevB := getNum (sAtPoint st) i in
  let sNextA := getNum (sAtPoint st) i in
  let sNextB := getNum (sAtPoint st) (i + 1) in
  let prevLen := max eps6 (sPrevB - sPrevA) in
  let nextLen := max eps6 (sNextB - sNextA) in
  let tPrev := clamp ((s - sPrevA) / prevLen) zero one in
  let tNext := clamp ((s - sNextA) / nextLen) zero one in
  let prevV := nullish (getOpt (segSpeeds st) (i - 1)) v in
  let nextV := nullish (getOpt (segSpeeds st) i) v in
  let minPct := anglePercent inp (getNum (turnAngle st) i) in
  let minV := min prevV nextV * minPct in
  (* Prev-seg window *)
  let v :=
    if (s >=? sPrevA) && (s <=? sPrevB) then
      if (tPrev >=? prevStart) && (tPrev <=? prevEnd) then
        let t := (tPrev - prevStart) / max eps6 (prevEnd - prevStart) in
        lerp prevV minV (clamp t zero one)
      else if (tPrev >? prevEnd) && (tPrev <=? one) then minV
      else v
    else v in
  (* Next-seg window *)
  let v :=
    if (s >=? sNextA) && (s <=? sNextB) then
      if tNext <=? nextHold then minV
      else if (tNext >? nextHold) && (tNext <=? nextAccel) then
        let t := (tNext - nextHold) / max eps6 (nextAccel - nextHold) in
        lerp minV nextV (clamp t zero one)
      else v
    else v in
  v.

(** Fractional position of [s] inside the control-point segment [j] (between
    the points [j - 1] and [j]), as the loop of speedAtS computes it. *)
Definition segmentFraction (st : PathState) (j : Z) (s : num) : num :=
  clamp ((s - getNum (sAtPoint st) (j - 1)) /
         max eps6 (getNum (sAtPoint st) j - getNum (sAtPoint st) (j - 1)))
        zero one.

(** The two ends of a position deep inside a segment: 0.5 + 1e-9 and 0.625 - 1e-9.
    The fractional position the program computes differs from the exact one
    by a few units of rounding (relative error below 1e-15), so a position
    within these ends is computed strictly between 0.5 and 0.625. *)
Definition midLow : num := Fin (500000001 # 1000000000)%Q.
Definition midHigh : num := Fin (624999999 # 1000000000)%Q.

Definition speedAtS (inp : Inputs) (st : PathState) (s : num) : num :=
  let v := baseSegmentSpeedAtS st s in
  let n := length (sCurveControlPoints st) in
  let v := fold_left (turnWindow inp st s) (seq 1 (n - 2)) v in
  max zero v.

(* ------------------------------------------------------------------ *)
(** ** Ride clock: the active branch of renderLoop *)

Definition setRide (st : PathState) (s t : num) (active : bool) : PathState :=
  mkPathState (sCurveControlPoints st) (segSpeeds st) (sampledPts st)
    (cumLen st) (totalLen st) (sAtPoint st) (turnAngle st) (tension st)
    t s active (isRideLooping st).

(** Steps 1 to 4 of the active branch: speed, advance, loop or stop, sToT. *)
Definition rideStep (inp : Inputs) (st : PathState) (deltaSeconds : num) : PathState :=
  let currentSpeed := speedAtS inp st (rideProgressS st) in
  let s := rideProgressS st + currentSpeed * deltaSeconds in
  let '(s, active) :=
    if s >=? totalLen st then
      if isRideLooping st then (rem s (totalLen st), isRideActive st)
      else (totalLen st, false)
    else (s, isRideActive st) in
  setRide st s (sToT st s) active.

(** The arc length reached by one frame's advance, before the end test. *)
Definition advanced (inp : Inputs) (st : PathState) (deltaSeconds : num) : num :=
  rideProgressS st + speedAtS inp st (rideProgressS st) * deltaSeconds.

(** startRide(loop) and stopRide(), as far as the ride state goes (the
    camera placement of startRide is [resetCameraToPathStart] below). *)
Definition stopRide (st : PathState) : PathState :=
  setRide st (rideProgressS st) (rideProgressT st) false.

Definition startRide (st : PathState) (loop : bool) : PathState :=
  mkPathState (sCurveControlPoints st) (segSpeeds st) (sampledPts st)
    (cumLen st) (totalLen st) (sAtPoint st) (turnAngle st) (tension st)
    zero zero true loop.

(** A number that is not an infinity: a finite number, or NaN (what
    [parseFloat] gives for an empty input field). *)
Definition notInfinite (x : num) : bool :=
  match x with NInf | PInf => false | _ => true end.

(** No window fraction is an infinity. *)
Definition windowsNotInfinite (inp : Inputs) : Prop :=
  notInfinite (wPrevStart inp) = true /\ notInfinite (wPrevEnd inp) = true /\
  notInfinite (wNextHold inp) = true /\ notInfinite (wNextAccel inp) = true.

(** The seven angle-band percentages are finite numbers. *)
Definition finitePercentages (inp : Inputs) : Prop :=
  isFinite (p0_20 inp) = true /\ isFinite (p20_45 inp) = true /\
  isFinite (p45_90 inp) = true /\ isFinite (p90_120 inp) = true /\
  isFinite (p120_150 inp) = true /\ isFinite (p150_165 inp) = true /\
  isFinite (p165_180 inp) = true.

Definition finiteSpeeds (st : PathState) : Prop :=
  Forall (fun v => isFinite v = true) (segSpeeds st).

(** [bounded x]: a finite number of magnitude at most 1e100. *)
Definition magnitudeBound : Q := inject_Z (10 ^ 100).

Definition bounded (x : num) : Prop :=
  Fin (- magnitudeBound)%Q <= x <= Fin magnitudeBound.

Definition percentagesBounded (inp : Inputs) : Prop :=
  bounded (p0_20 inp) /\ bounded (p20_45 inp) /\ bounded (p45_90 inp) /\
  bounded (p90_120 inp) /\ bounded (p120_150 inp) /\ bounded (p150_165 inp) /\
  bounded (p165_180 inp).

Definition speedsBounded (st : PathState) : Prop :=
  Forall bounded (segSpeeds st).

(** One speed per control-point segment (the loader pads or cuts the list
    to this length; the initial list holds 9 speeds for 10 points). *)
Definition speedPerSegment (st : PathState) : Prop :=
  (length (sCurveControlPoints st) - 1 <= length (segSpeeds st))%nat.

(** A speed configuration within bounds: one speed per segment, speeds and
    percentages of magnitude at most 1e100, no infinite window fraction. *)
Definition speedConfig (inp : Inputs) (st : PathState) : Prop :=
  speedPerSegment st /\ speedsBounded st /\
  percentagesBounded inp /\ windowsNotInfinite inp.

(** A frame time between 0 and 1e6 seconds. *)
Definition frameTime (deltaSeconds : num) : Prop :=
  zero <= deltaSeconds <= Fin (inject_Z (10 ^ 6)).

(* ------------------------------------------------------------------ *)
(** ** The environment: Math, THREE.CatmullRomCurve3 and string conversions

    The functions below are not part of the program; the model takes them as
    parameters.  [Math_sqrt], [Math_acos] and [Math_PI] are the Math
    built-ins, [curve_getPoints pts tension divisions] stands for
    [new THREE.CatmullRomCurve3(pts, false, 'catmullrom', tension)
       .getPoints(divisions)], [curve_getPointAt pts tension u] for
    [.getPointAt(u)] of that curve ([None] when it raises the TypeError of
    reading a missing control point),
    [String_toNumber] is the numeric value of a string (unary [+]),
    [parseFloat_string] is [parseFloat] on a string, [ToString] the string
    form of an array or object, and [typeErrorMessage] the message of the
    TypeError raised by reading a property of [undefined] or [null]. *)

#[warnings="-register-all"] Inductive json : Type :=
| JNull
| JBool (b : bool)
| JNumber (n : num)
| JString (s : string)
| JArray (items : list json)
| JObject (fields : list (string * json)).

Record Env : Type := mkEnv {
  Math_sqrt : num -> num;
  Math_acos : num -> num;
  Math_PI : num;
  curve_getPoints : list vec3 -> num -> num -> list vec3;
  curve_getPointAt : list vec3 -> num -> num -> option vec3;
  String_toNumber : string -> num;
  parseFloat_string : string -> num;
  ToString : json -> string;
  typeErrorMessage : string
}.

(** Vector3.distanceTo *)
Definition distanceTo (env : Env) (a b : vec3) : num :=
  Math_sqrt env (distanceToSquared a b).

(** Vector3.length *)
Definition vlength (env : Env) (a : vec3) : num :=
  Math_sqrt env (vx a * vx a + vy a * vy a + vz a * vz a).

(** Vector3.normalize: divideScalar(length() || 1), where divideScalar(s)
    multiplies by 1 / s. *)
Definition normalize (env : Env) (a : vec3) : vec3 :=
  let k := one / or_else (vlength env a) one in
  Vec3 (vx a * k) (vy a * k) (vz a * k).

(** THREE.MathUtils.radToDeg *)
Definition radToDeg (env : Env) (r : num) : num :=
  r * (Fin 180%Q / Math_PI env).

(** The result of a function that may end with an exception after having
    changed the module-level state, or may not end at all. *)
Inductive outcome : Type :=
| Done (st : PathState)
| Raised (message : string) (st : PathState)
| Hangs.

(* ------------------------------------------------------------------ *)
(** ** Curve builder: initializePathData *)

(** Number of iterations of [for (k = 1; k <= steps; k++)]; [None] when the
    loop does not end ([steps] is +Infinity). *)
Definition loopCount (steps : num) : option nat :=
  match steps with
  | Fin q => Some (Z.to_nat (Qfloor q))
  | PInf => None
  | _ => Some O
  end.

(** The arc-length table under construction: sampledPts, cumLen and acc. *)
Record ArcTable : Type := mkArcTable {
  tblPts : list vec3;
  tblCum : list num;
  tblAcc : num
}.

(** Last element of the sampled points pushed so far. *)
Definition lastPt (pts : list vec3) : vec3 :=
  last pts (Vec3 NaN NaN NaN).

(** Body of the inner loop, for one [k]. *)
Definition pushSample (env : Env) (a b : vec3) (steps : num) (tb : ArcTable) (k : nat) : ArcTable :=
  let t := intNum (Z.of_nat k) / steps in
  let p := lerpVectors a b t in
  let acc := tblAcc tb + distanceTo env p (lastPt (tblPts tb)) in
  mkArcTable (tblPts tb ++ [p]) (tblCum tb ++ [acc]) acc.

(** Body of the outer loop, for the pair [(a, b)] of consecutive curve points. *)
Definition subdivide (env : Env) (tb : ArcTable) (a b : vec3) : option ArcTable :=
  let d := distanceTo env a b in
  let steps := max one (ceil (d / targetStep)) in
  match loopCount steps with
  | None => None
  | Some n => Some (fold_left (pushSample env a b steps) (seq 1 n) tb)
  end.

(** The outer loop, [a] being [points[i - 1]] and [rest] the points from
    [points[i]] on. *)
Fixpoint buildLoop (env : Env) (tb : ArcTable) (a : vec3) (rest : list vec3) : option ArcTable :=
  match rest with
  | [] => Some tb
  | b :: rest' =>
      match subdivide env tb a b with
      | None => None
      | Some tb' => buildLoop env tb' b rest'
      end
  end.

(** The table built from the curve points; [None] when the loops do not end.
    The list of curve points is non-empty here. *)
Definition buildArcTable (env : Env) (p0 : vec3) (rest : list vec3) : option ArcTable :=
  buildLoop env (mkArcTable [p0] [zero] zero) p0 rest.

(** The nearest-sample search of the [sAtPoint] computation: the running
    [(bestI, bestD)] over the samples from index [i] on. *)
Fixpoint nearestIndex (env : Env) (p : vec3) (samples : list vec3) (i : Z) (best : Z * num) : Z :=
  match samples with
  | [] => fst best
  | q :: rest =>
      let d := distanceTo env q p in
      nearestIndex env p rest (i + 1)
        (if d <? snd best then (i, d) else best)
  end.

Definition sAtControlPoint (env : Env) (pts : list vec3) (cum : list num) (p : vec3) : num :=
  getNum cum (nearestIndex env p pts 0 (0%Z, PInf)).

Definition setTables (st : PathState) (pts : list vec3) (cum : list num)
    (total : num) (sAt : list num) : PathState :=
  mkPathState (sCurveControlPoints st) (segSpeeds st) pts cum total sAt
    (turnAngle st) (tension st) (rideProgressT st) (rideProgressS st)
    (isRideActive st) (isRideLooping st).

Definition initializePathData (env : Env) (inp : Inputs) (st : PathState) : outcome :=
  let resScale := resScale inp in
  let divisions := max (Fin 2%Q) (lenNum (sCurveControlPoints st) * resScale) in
  let points := curve_getPoints env (sCurveControlPoints st) (tension st) divisions in
  match points with
  | [] => Raised (typeErrorMessage env) st   (* points[0] is undefined *)
  | p0 :: rest =>
      match buildArcTable env p0 rest with
      | None => Hangs
      | Some tb =>
          let sAt := map (sAtControlPoint env (tblPts tb) (tblCum tb))
                         (sCurveControlPoints st) in
          Done (setTables st (tblPts tb) (tblCum tb) (tblAcc tb) sAt)
      end
  end.

(* ------------------------------------------------------------------ *)
(** ** Turn-angle analyzer: computeTurnAngles *)

Definition getVec (l : list vec3) (i : Z) : vec3 :=
  match getOpt l i with Some p => p | None => Vec3 NaN NaN NaN end.

Definition turnAngleAt (env : Env) (pts : list vec3) (i : Z) : num :=
  let a := normalize env (setY (subVectors (getVec pts i) (getVec pts (i - 1))) zero) in
  let b := normalize env (setY (subVectors (getVec pts (i + 1)) (getVec pts i)) zero) in
  let d := clamp (dot a b) (Fin (-1)%Q) one in
  radToDeg env (Math_acos env d).

(** [turnAngle] after computeTurnAngles: 0 at the two ends, the angle at
    every interior index. *)
Definition turnAngles (env : Env) (pts : list vec3) : list num :=
  map (fun i : nat =>
         if (1 <=? i)%nat && (i <? length pts - 1)%nat
         then turnAngleAt env pts (Z.of_nat i) else zero)
      (seq 0 (length pts)).

Definition computeTurnAngles (env : Env) (st : PathState) : PathState :=
  mkPathState (sCurveControlPoints st) (segSpeeds st) (sampledPts st)
    (cumLen st) (totalLen st) (sAtPoint st)
    (turnAngles env (sCurveControlPoints st))
    (tension st) (rideProgressT st) (rideProgressS st)
    (isRideActive st) (isRideLooping st).

(* ------------------------------------------------------------------ *)
(** ** Sample lookups of the camera, the lead marker, the cart and the road *)

(** The sample at [idx] and the difference to its neighbour (forward, or
    backward at the last sample); [None] when one of the samples read is
    [undefined], which makes [subVectors] raise a TypeError. *)
Definition frameAt (pts : list vec3) (idx : Z) : option (vec3 * vec3) :=
  match getOpt pts idx with
  | None => None
  | Some p =>
      if (idx <? Z.of_nat (length pts) - 1)%Z then
        match getOpt pts (idx + 1) with
        | Some q => Some (p, subVectors q p)
        | None => None
        end
      else
        match getOpt pts (idx - 1) with
        | Some q => Some (p, subVectors p q)
        | None => None
        end
  end.

(** placeCameraAtPathT: the two frames it reads (at the current arc length
    and at the lead distance ahead); the pose it derives from them goes to
    the renderer and is not part of the state. *)
Definition placeCameraAtPathT (inp : Inputs) (st : PathState)
    : option ((vec3 * vec3) * (vec3 * vec3)) :=
  let s := rideProgressS st in
  let idx := distanceToIndex st s in
  match frameAt (sampledPts st) idx with
  | None => None
  | Some here =>
      let leadDistanceMeters := or_else (leadDistanceValue inp) (Fin 2%Q) in
      let aheadS := rem (rideProgressS st + leadDistanceMeters) (totalLen st) in
      let aheadIdx := distanceToIndex st aheadS in
      match frameAt (sampledPts st) aheadIdx with
      | None => None
      | Some ahead => Some (here, ahead)
      end
  end.

(** resetCameraToPathStart: the ride position is reset, the camera placed,
    and the orbit target moved to [rideCurve.getPointAt(0)].  [rideCurve]
    holds the control-point array itself (the array is emptied and refilled
    in place, never replaced) and the tension of the last build, which is the
    current one whenever there are at least two control points. *)
Definition resetCameraToPathStart (env : Env) (inp : Inputs) (st : PathState) : outcome :=
  let st := setRide st zero zero (isRideActive st) in
  match placeCameraAtPathT inp st with
  | None => Raised (typeErrorMessage env) st
  | Some _ =>
      match curve_getPointAt env (sCurveControlPoints st) (tension st) zero with
      | None => Raised (typeErrorMessage env) st
      | Some _ => Done st
      end
  end.

(** One frame of renderLoop, as far as the path state goes. *)
Definition renderLoop (env : Env) (inp : Inputs) (st : PathState) (deltaSeconds : num) : outcome :=
  if isRideActive st then
    let st := rideStep inp st deltaSeconds in
    match placeCameraAtPathT inp st with
    | None => Raised (typeErrorMessage env) st
    | Some _ =>
        let cartIdx := distanceToIndex st (rideProgressS st) in
        match frameAt (sampledPts st) cartIdx with
        | None => Raised (typeErrorMessage env) st
        | Some _ => Done st
        end
    end
  else Done st.

(* ------------------------------------------------------------------ *)
(** ** rebuildCurveAndRoad *)

(** sampledPts[i].y += cumLen[i] * heightScale, for every i. *)
Fixpoint liftSamples (heightScale : num) (pts : list vec3) (cum : list num) : list vec3 :=
  match pts, cum with
  | p :: pts', c :: cum' =>
      Vec3 (vx p) (vy p + c * heightScale) (vz p) :: liftSamples heightScale pts' cum'
  | p :: pts', [] =>
      Vec3 (vx p) (vy p + NaN * heightScale) (vz p) :: liftSamples heightScale pts' []
  | [], _ => []
  end.

Definition setSampledPts (st : PathState) (pts : list vec3) : PathState :=
  setTables st pts (cumLen st) (totalLen st) (sAtPoint st).

(** The road-mesh loop reads, for every sample, the same neighbour as
    [frameAt]. *)
Definition roadLoopOk (pts : list vec3) : bool :=
  forallb (fun i : nat =>
             match frameAt pts (Z.of_nat i) with Some _ => true | None => false end)
          (seq 0 (length pts)).

Definition rebuildCurveAndRoad (env : Env) (inp : Inputs) (st : PathState) : outcome :=
  if (length (sCurveControlPoints st) <? 2)%nat then Done st else
  match initializePathData env inp st with
  | Done st =>
      let st := computeTurnAngles env st in
      let heightScale := or_else (heightScaleValue inp) zero in
      let st := setSampledPts st (liftSamples heightScale (sampledPts st) (cumLen st)) in
      if roadLoopOk (sampledPts st) then Done st
      else Raised (typeErrorMessage env) st
  | other => other
  end.

(* ------------------------------------------------------------------ *)
(** ** loadPathFromJSON *)

(** What came out of fetching / reading the text and of [JSON.parse]: an
    exception with its message, or the parsed value. *)
Inductive loaded : Type :=
| LoadError (message : string)
| Parsed (data : json).

(** Property read [v.key]: [None] is the TypeError of reading a property of
    [null]; [Some None] is [undefined]. *)
Fixpoint assoc (key : string) (fields : list (string * json)) : option json :=
  match fields with
  | [] => None
  | (k, v) :: rest => if String.eqb k key then Some v else assoc key rest
  end.

Definition getProp (v : json) (key : string) : option (option json) :=
  match v with
  | JNull => None
  | JObject fields => Some (assoc key fields)
  | _ => Some None
  end.

(** Unary plus on a value that may be [undefined]. *)
Definition toNumber (env : Env) (v : option json) : num :=
  match v with
  | None => NaN
  | Some JNull => zero
  | Some (JBool b) => if b then one else zero
  | Some (JNumber n) => n
  | Some (JString s) => String_toNumber env s
  | Some other => String_toNumber env (ToString env other)
  end.

(** parseFloat on a JSON value. *)
Definition parseFloat (env : Env) (v : json) : num :=
  match v with
  | JNumber n => n
  | JString s => parseFloat_string env s
  | JNull | JBool _ => NaN
  | other => parseFloat_string env (ToString env other)
  end.

(** [data.points.map(p => new THREE.Vector3(+p.x, 0, +p.z))]; [None] when
    some [p] is [null]. *)
Fixpoint mapPoints (env : Env) (items : list json) : option (list vec3) :=
  match items with
  | [] => Some []
  | p :: rest =>
      match getProp p "x", getProp p "z" with
      | Some x, Some z =>
          match mapPoints env rest with
          | Some pts => Some (Vec3 (toNumber env x) zero (toNumber env z) :: pts)
          | None => None
          end
      | _, _ => None
      end
  end.

Definition defaultSpeed : num := n10.

(** The speed list after padding or truncation to [need] entries. *)
Definition fitSpeeds (speeds : list json) (need : nat) : list json :=
  if (length speeds <? need)%nat
  then speeds ++ repeat (JNumber defaultSpeed) (need - length speeds)
  else if (need <? length speeds)%nat then firstn need speeds
  else speeds.

Definition sanitizeSpeed (env : Env) (v : json) : num :=
  max zero (or_else (parseFloat env v) defaultSpeed).

Definition setPath (st : PathState) (pts : list vec3) (speeds : list num) : PathState :=
  mkPathState pts speeds (sampledPts st) (cumLen st) (totalLen st)
    (sAtPoint st) (turnAngle st) (tension st) (rideProgressT st)
    (rideProgressS st) (isRideActive st) (isRideLooping st).

(** The text shown by [alert] in the catch block. *)
Definition importFailed (message : string) : string :=
  ("Path import failed: " ++ (if String.eqb message "" then "Invalid JSON" else message))%string.

Definition fail (message : string) (st : PathState) : outcome :=
  Raised (importFailed message) st.

Definition loadPathFromJSON (env : Env) (inp : Inputs) (st : PathState) (src : loaded) : outcome :=
  match src with
  | LoadError message => fail message st
  | Parsed data =>
      match getProp data "points" with
      | None => fail (typeErrorMessage env) st
      | Some (Some (JArray points)) =>
          if (length points <? 2)%nat
          then fail "JSON must include at least two points" st
          else
            (* sCurveControlPoints.length = 0 *)
            let st := setPath st [] (segSpeeds st) in
            match mapPoints env points with
            | None => fail (typeErrorMessage env) st
            | Some newPts =>
                let st := setPath st newPts (segSpeeds st) in
                let need := (length (sCurveControlPoints st) - 1)%nat in
                let speeds :=
                  match getProp data "segmentSpeeds" with
                  | Some (Some (JArray l)) => l
                  | _ => []
                  end in
                let speeds := fitSpeeds speeds need in
                let st := setPath st (sCurveControlPoints st)
                                  (map (sanitizeSpeed env) speeds) in
                match rebuildCurveAndRoad env inp st with
                | Done st =>
                    match resetCameraToPathStart env inp st with
                    | Done st => Done st
                    | Raised message st => fail message st
                    | Hangs => Hangs
                    end
                | Raised message st => fail message st
                | Hangs => Hangs
                end
            end
      | Some _ => fail "JSON must include at least two points" st
      end
  end.

(** [Math.sqrt] maps a non-negative rational to a non-negative finite number. *)
Definition sqrtNonneg (env : Env) : Prop :=
  forall q : Q, (0 <= q)%Q ->
    exists r : Q, Math_sqrt env (Fin q) = Fin r /\ (0 <= r)%Q.

(** The points the curve sampler returns for the control points of [st] all
    have finite coordinates. *)
Definition finiteCurvePoints (env : Env) (inp : Inputs) (st : PathState) : Prop :=
  Forall (fun p => vec_finite p = true)
    (curve_getPoints env (sCurveControlPoints st) (tension st)
       (max (Fin 2%Q) (lenNum (sCurveControlPoints st) * resScale inp))).

(** Invariants of the table under construction. *)

(** The part of the invariant that holds whatever the numbers are. *)
Definition tableShape (tb : ArcTable) : Prop :=
  length (tblCum tb) = length (tblPts tb) /\
  tblCum tb <> [] /\
  getNum (tblCum tb) 0 = zero /\
  getNum (tblCum tb) (Z.of_nat (length (tblCum tb)) - 1) = tblAcc tb.

(** The part that needs finite points. *)
Definition tableSorted (tb : ArcTable) : Prop :=
  isFinite (tblAcc tb) = true /\
  Forall (fun p => vec_finite p = true) (tblPts tb) /\
  nondecreasing (tblCum tb).


(** The [points] array of a parsed path description, if there is one. *)
Definition pointsOf (data : json) : option (list json) :=
  match getProp data "points" with
  | Some (Some (JArray l)) => Some l
  | _ => None
  end.

(** The [segmentSpeeds] the description supplies ([] when it has none). *)
Definition suppliedSpeeds (data : json) : list json :=
  match getProp data "segmentSpeeds" with
  | Some (Some (JArray l)) => l
  | _ => []
  end.

(** Malformed input: the text could not be fetched, read or parsed, or the
    parsed value has no [points] array of at least two entries. *)
Definition malformed (src : loaded) : Prop :=
  match src with
  | LoadError _ => True
  | Parsed data =>
      match pointsOf data with
      | Some l => (length l < 2)%nat
      | None => True
      end
  end.

(** The tables of a state after a successful build: one cumulative length
    per sample, and at least two samples. *)
Definition tablesBuilt (st : PathState) : Prop :=
  length (cumLen st) = length (sampledPts st) /\
  (2 <= length (sampledPts st))%nat.

(* ------------------------------------------------------------------ *)
(** ** A reference environment, for running the model

    [refEnv] instantiates the parameters so that the model can be evaluated
    on concrete paths: the square root and the arc cosine are rational
    approximations (the root is exact on squares of decimals with up to 12
    places), and the curve sampler is the uniform Catmull-Rom evaluation of
    THREE.CatmullRomCurve3 for an open curve.  The concrete paths below
    contain no strings, and every string converts to NaN. *)

Definition approxSqrt (x : num) : num :=
  match x with
  | Fin q =>
      if Qltb q 0 then NaN
      else Fin (Qred (Z.sqrt (Qfloor (q * inject_Z (10 ^ 24))) # 10 ^ 12))
  | PInf => PInf
  | _ => NaN
  end.

Definition approxPI : num := Fin (314159265358979 # 100000000000000)%Q.

(** acos(x) ~ sqrt(1 - x) (a0 + a1 x + a2 x^2 + a3 x^3) on [0, 1], and
    acos(-x) = pi - acos(x). *)
Definition approxAcos (x : num) : num :=
  let poly (y : num) : num :=
    approxSqrt (one - y) *
      (Fin (15707288 # 10000000)%Q + y *
        (Fin (-2121144 # 10000000)%Q + y *
          (Fin (742610 # 10000000)%Q + y * Fin (-187293 # 10000000)%Q))) in
  if (x <? Fin (-1)%Q) || (one <? x) || isNaN x then NaN
  else if x <? zero then approxPI - poly (neg x)
  else poly x.

(** CubicPoly.initCatmullRom(x0, x1, x2, x3, tension) followed by calc(w). *)
Definition catmullRomCalc (x0 x1 x2 x3 tension w : num) : num :=
  let t0 := tension * (x2 - x0) in
  let t1 := tension * (x3 - x1) in
  let c0 := x1 in
  let c1 := t0 in
  let c2 := Fin (-3)%Q * x1 + Fin 3%Q * x2 - Fin 2%Q * t0 - t1 in
  let c3 := Fin 2%Q * x1 - Fin 2%Q * x2 + t0 + t1 in
  let w2 := w * w in
  let w3 := w2 * w in
  c0 + c1 * w + c2 * w2 + c3 * w3.

Definition addVectors (a b : vec3) : vec3 :=
  Vec3 (vx a + vx b) (vy a + vy b) (vz a + vz b).

(** CatmullRomCurve3.getPoint(t) for an open curve of type 'catmullrom'. *)
Definition catmullRomGetPoint (pts : list vec3) (tension : num) (t : Q) : vec3 :=
  let l := Z.of_nat (length pts) in
  let p := (inject_Z (l - 1) * t)%Q in
  let intPoint := Qfloor p in
  let weight := (p - inject_Z intPoint)%Q in
  let '(intPoint, weight) :=
    if Qeq_bool weight 0 && (intPoint =? l - 1)%Z
    then ((l - 2)%Z, 1%Q) else (intPoint, weight) in
  let p0 :=
    if (0 <? intPoint)%Z then getVec pts ((intPoint - 1) mod l)
    else addVectors (subVectors (getVec pts 0) (getVec pts 1)) (getVec pts 0) in
  let p1 := getVec pts (intPoint mod l) in
  let p2 := getVec pts ((intPoint + 1) mod l) in
  let p3 :=
    if (intPoint + 2 <? l)%Z then getVec pts ((intPoint + 2) mod l)
    else addVectors (subVectors (getVec pts (l - 1)) (getVec pts (l - 2)))
                    (getVec pts (l - 1)) in
  let w := Fin weight in
  Vec3 (catmullRomCalc (vx p0) (vx p1) (vx p2) (vx p3) tension w)
       (catmullRomCalc (vy p0) (vy p1) (vy p2) (vy p3) tension w)
       (catmullRomCalc (vz p0) (vz p1) (vz p2) (vz p3) tension w).

(** Curve.getPoints(divisions): the points at d / divisions, d = 0 .. divisions. *)
Definition catmullRomGetPoints (pts : list vec3) (tension divisions : num) : list vec3 :=
  match divisions with
  | Fin dv =>
      map (fun d : nat => catmullRomGetPoint pts tension (Qred (inject_Z (Z.of_nat d) / dv)))
          (seq 0 (Z.to_nat (Qfloor dv + 1)))
  | _ => []
  end.

(** Curve.getPointAt(0): the start of the curve; it raises when there are
    fewer than two control points or when a coordinate is not finite (the
    arc length of the curve is then NaN, and so is the parameter it looks
    up).  The program passes no other argument than 0. *)
Definition catmullRomGetPointAt (pts : list vec3) (tension u : num) : option vec3 :=
  if (length pts <? 2)%nat || negb (forallb vec_finite pts) || negb (isFinite tension)
  then None
  else Some (catmullRomGetPoint pts tension 0).

Definition refEnv : Env :=
  mkEnv approxSqrt approxAcos approxPI catmullRomGetPoints catmullRomGetPointAt
        (fun _ => NaN) (fun _ => NaN) (fun _ => EmptyString)
        "Cannot read properties of undefined".

(** The values the page starts with, with a resolution scale of 1, no height
    scale and a lead distance of 2. *)
Definition refInputs : Inputs :=
  mkInputs (Fin 1%Q) (Fin 0%Q) (Fin 2%Q)
    (Fin (625 # 1000)%Q) (Fin 1%Q) (Fin 0%Q) (Fin (5 # 10)%Q)
    (Fin 100%Q) (Fin 90%Q) (Fin 75%Q) (Fin 60%Q) (Fin 10%Q) (Fin 5%Q) (Fin 1%Q).

(** The module-level state before any path is built. *)
Definition initialState : PathState :=
  mkPathState
    [Vec3 (Fin 0%Q) (Fin 0%Q) (Fin 0%Q); Vec3 (Fin 12%Q) (Fin 0%Q) (Fin 12%Q);
     Vec3 (Fin (-12)%Q) (Fin 0%Q) (Fin 24%Q); Vec3 (Fin 12%Q) (Fin 0%Q) (Fin 36%Q);
     Vec3 (Fin (-12)%Q) (Fin 0%Q) (Fin 48%Q); Vec3 (Fin 12%Q) (Fin 0%Q) (Fin 60%Q);
     Vec3 (Fin (-12)%Q) (Fin 0%Q) (Fin 72%Q); Vec3 (Fin 12%Q) (Fin 0%Q) (Fin 84%Q);
     Vec3 (Fin (-12)%Q) (Fin 0%Q) (Fin 96%Q); Vec3 (Fin 0%Q) (Fin 0%Q) (Fin 108%Q)]
    [n10; n10; n10; n10; n10; n10; n10; n10; n10]
    [] [] zero [] [] (Fin (7 # 10)%Q) zero zero false false.

Definition jsonPoint (x z : Q) : json :=
  JObject [("x"%string, JNumber (Fin x)); ("z"%string, JNumber (Fin z))].

(** A short two-point path, 0.05 long, with one supplied speed. *)
Definition shortPath : json :=
  JObject [("name"%string, JString "short");
           ("points"%string, JArray [jsonPoint 0 0; jsonPoint (3 # 100) (4 # 100)]);
           ("segmentSpeeds"%string, JArray [JNumber (Fin 10%Q)])].

(** Boolean test of [nondecreasing], for concrete tables. *)
Fixpoint nondecreasingb (c : list num) : bool :=
  match c with
  | x :: rest =>
      match rest with
      | y :: _ => (x <=? y) && nondecreasingb rest
      | [] => true
      end
  | [] => true
  end.

(** The state after loading [shortPath] in the reference environment. *)
Definition loadedOr (o : outcome) (d : PathState) : PathState :=
  match o with Done st => st | _ => d end.

Definition shortBuilt : PathState :=
  Eval vm_compute in
    loadedOr (loadPathFromJSON refEnv refInputs initialState (Parsed shortPath))
             initialState.

(** A straight three-point path; the turn at the middle point is 0 degrees. *)
Definition straightPath : json :=
  JObject [("points"%string,
            JArray [jsonPoint 0 0; jsonPoint (3 # 100) 0; jsonPoint (6 # 100) 0])].

Definition straightBuilt : PathState :=
  Eval vm_compute in
    loadedOr (loadPathFromJSON refEnv refInputs initialState (Parsed straightPath))
             initialState.

(** The inputs when the "0-20 degrees" percentage field has been cleared:
    [parseFloat("")] is NaN. *)
Definition clearedPercentInputs : Inputs :=
  mkInputs (Fin 1%Q) (Fin 0%Q) (Fin 2%Q)
    (Fin (625 # 1000)%Q) (Fin 1%Q) (Fin 0%Q) (Fin (5 # 10)%Q)
    NaN (Fin 90%Q) (Fin 75%Q) (Fin 60%Q) (Fin 10%Q) (Fin 5%Q) (Fin 1%Q).

(** The inputs when the field of the approach window's end has been
    cleared. *)
Definition clearedWindowInputs : Inputs :=
  mkInputs (Fin 1%Q) (Fin 0%Q) (Fin 2%Q)
    (Fin (625 # 1000)%Q) NaN (Fin 0%Q) (Fin (5 # 10)%Q)
    (Fin 100%Q) (Fin 90%Q) (Fin 75%Q) (Fin 60%Q) (Fin 10%Q) (Fin 5%Q) (Fin 1%Q).

(** A path whose last three control points coincide: the last span of the
    curve is a single point. *)
Definition stalledPath : json :=
  JObject [("points"%string,
            JArray [jsonPoint 0 0; jsonPoint (3 # 100) 0; jsonPoint (3 # 100) 0;
                    jsonPoint (3 # 100) 0])].

Definition stalledBuilt : PathState :=
  Eval vm_compute in
    loadedOr (loadPathFromJSON refEnv refInputs initialState (Parsed stalledPath))
             initialState.

(** A path of two coincident points: its total length is 0. *)
Definition pointPath : json :=
  JObject [("points"%string, JArray [jsonPoint 1 1; jsonPoint 1 1])].

Definition pointBuilt : PathState :=
  Eval vm_compute in
    loadedOr (loadPathFromJSON refEnv refInputs initialState (Parsed pointPath))
             initialState.

(** A three-point path that supplies one speed, a negative one. *)
Definition negativeSpeedPath : json :=
  JObject [("points"%string,
            JArray [jsonPoint 0 0; jsonPoint (3 # 100) 0; jsonPoint (6 # 100) 0]);
           ("segmentSpeeds"%string, JArray [JNumber (Fin (-5)%Q)])].

Definition negativeSpeedBuilt : PathState :=
  Eval vm_compute in
    loadedOr (loadPathFromJSON refEnv refInputs initialState (Parsed negativeSpeedPath))
             initialState.

(** A right-angle corner: three points, the turn at the middle one is 90
    degrees. *)
Definition cornerPath : json :=
  JObject [("points"%string,
            JArray [jsonPoint 0 0; jsonPoint (3 # 100) 0; jsonPoint (3 # 100) (3 # 100)])].

Definition cornerBuilt : PathState :=
  Eval vm_compute in
    loadedOr (loadPathFromJSON refEnv refInputs initialState (Parsed cornerPath))
             initialState.

(** A path that doubles back: its third control point is the first one
    again, so the nearest-sample search anchors it at arc length 0. *)
Definition doubledBackPath : json :=
  JObject [("points"%string,
            JArray [jsonPoint 0 0; jsonPoint (3 # 100) 0; jsonPoint 0 0;
                    jsonPoint (3 # 100) (3 # 100)])].

Definition doubledBackBuilt : PathState :=
  Eval vm_compute in
    loadedOr (loadPathFromJSON refEnv refInputs initialState (Parsed doubledBackPath))
             initialState.

(** A points array whose first entry has no [x]: [+p.x] is NaN there. *)
Definition missingXPoints : list json :=
  [JObject [("z"%string, JNumber (Fin 0%Q))];
   jsonPoint (1 # 100) 0; jsonPoint (2 # 100) 0; jsonPoint (3 # 100) 0].

(** The state in which loadPathFromJSON calls rebuildCurveAndRoad for it. *)
Definition missingXLoaded : PathState :=
  setPath initialState
    [Vec3 NaN zero zero; Vec3 (Fin (1 # 100)%Q) zero zero;
     Vec3 (Fin (2 # 100)%Q) zero zero; Vec3 (Fin (3 # 100)%Q) zero zero]
    [n10; n10; n10].

Definition missingXInitialized : PathState :=
  Eval vm_compute in
    loadedOr (initializePathData refEnv refInputs missingXLoaded) missingXLoaded.

(** Four points (three segments) supplying two speeds, a positive and a
    negative one; and three points (two segments) supplying four entries:
    zero, [null] and two more. *)
Definition paddedPath : json :=
  JObject [("points"%string,
            JArray [jsonPoint 0 0; jsonPoint (3 # 100) 0; jsonPoint (6 # 100) 0;
                    jsonPoint (9 # 100) 0]);
           ("segmentSpeeds"%string, JArray [JNumber (Fin 7%Q); JNumber (Fin (-5)%Q)])].

Definition paddedBuilt : PathState :=
  Eval vm_compute in
    loadedOr (loadPathFromJSON refEnv refInputs initialState (Parsed paddedPath))
             initialState.

Definition truncatedPath : json :=
  JObject [("points"%string,
            JArray [jsonPoint 0 0; jsonPoint (3 # 100) 0; jsonPoint (6 # 100) 0]);
           ("segmentSpeeds"%string,
            JArray [JNumber (Fin 0%Q); JNull; JNumber (Fin 7%Q); JNumber (Fin 4%Q)])].

Definition truncatedBuilt : PathState :=
  Eval vm_compute in
    loadedOr (loadPathFromJSON refEnv refInputs initialState (Parsed truncatedPath))
             initialState.

(** The tables of [shortBuilt] as initializePathData leaves them. *)
Definition shortInitialized : PathState :=
  Eval vm_compute in
    loadedOr (initializePathData refEnv refInputs shortBuilt) shortBuilt.

(** A description with a single point. *)
Definition onePointPath : json :=
  JObject [("points"%string, JArray [jsonPoint 0 0])].

(** The reference control points of the zig-zag path, and a number in
    hundredths (rounded down), for reading the angles. *)
Definition zigzagPoints : list vec3 :=
  [Vec3 (Fin 0%Q) zero (Fin 0%Q); Vec3 (Fin 12%Q) zero (Fin 12%Q);
   Vec3 (Fin (-12)%Q) zero (Fin 24%Q); Vec3 (Fin 12%Q) zero (Fin 36%Q);
   Vec3 (Fin (-12)%Q) zero (Fin 48%Q); Vec3 (Fin 0%Q) zero (Fin 60%Q)].

Definition hundredths (x : num) : option Z :=
  match x with Fin q => Some (Qfloor (q * 100)%Q) | _ => None end.

(* ------------------------------------------------------------------ *)
(** ** The turn-angle analyzer over the real numbers

    computeTurnAngles needs the square root and the arc cosine.  For claims
    about the angles of a concrete path the same computation is written
    over the reals, where [sqrt], [acos] and [PI] are the mathematical
    functions (the control points of a path are finite, so no NaN arises). *)

Module RealAngles.

Local Open Scope R_scope.

Record rvec3 : Type := RVec3 { rx : R; ry : R; rz : R }.

Definition subVectors (a b : rvec3) : rvec3 :=
  RVec3 (rx a - rx b) (ry a - ry b) (rz a - rz b).

Definition setY (a : rvec3) (y : R) : rvec3 := RVec3 (rx a) y (rz a).

Definition dot (a b : rvec3) : R := rx a * rx b + ry a * ry b + rz a * rz b.

Definition vlength (a : rvec3) : R :=
  sqrt (rx a * rx a + ry a * ry a + rz a * rz a).

(** [x || 1] on a real: 1 when x is 0. *)
Definition orOne (x : R) : R := if Req_dec_T x 0 then 1 else x.

Definition normalize (a : rvec3) : rvec3 :=
  let k := 1 / orOne (vlength a) in
  RVec3 (rx a * k) (ry a * k) (rz a * k).

Definition clamp (value lo hi : R) : R := Rmax lo (Rmin hi value).

Definition radToDeg (r : R) : R := r * (180 / PI).

Definition getVec (l : list rvec3) (i : nat) : rvec3 := nth i l (RVec3 0 0 0).

Definition turnAngleAt (pts : list rvec3) (i : nat) : R :=
  let a := normalize (setY (subVectors (getVec pts i) (getVec pts (i - 1))) 0) in
  let b := normalize (setY (subVectors (getVec pts (i + 1)) (getVec pts i)) 0) in
  let d := clamp (dot a b) (-1) 1 in
  radToDeg (acos d).

Definition turnAngles (pts : list rvec3) : list R :=
  map (fun i : nat =>
         if (1 <=? i)%nat && (i <? length pts - 1)%nat
         then turnAngleAt pts i else 0)
      (seq 0 (length pts)).

(** The control points of the zig-zag reference path. *)
Definition referencePoints : list rvec3 :=
  [RVec3 0 0 0; RVec3 12 0 12; RVec3 (-12) 0 24; RVec3 12 0 36;
   RVec3 (-12) 0 48; RVec3 0 0 60].

(** "Approximately 90 degrees": within [tol] degrees of 90. *)
Definition near90 (tol angle : R) : Prop := Rabs (angle - 90) <= tol.

End RealAngles.

(* ------------------------------------------------------------------ *)
(** ** Invariants of the built tables *)

(** Each cumulative length is the previous one plus the distance between the
    two samples it separates. *)
Definition tableAccumulates (env : Env) (pts : list vec3) (cum : list num) : Prop :=
  forall k : Z, (0 <= k)%Z -> (k + 1 < Z.of_nat (length cum))%Z ->
    getNum cum (k + 1) =
      getNum cum k + distanceTo env (getVec pts (k + 1)) (getVec pts k).

(** A closed circuit: the last control point is the first one again. *)
Definition circuitPath : json :=
  JObject [("points"%string,
            JArray [jsonPoint 0 0; jsonPoint (3 # 100) 0; jsonPoint (3 # 100) (3 # 100);
                    jsonPoint 0 0])].

Definition circuitBuilt : PathState :=
  Eval vm_compute in
    loadedOr (loadPathFromJSON refEnv refInputs initialState (Parsed circuitPath))
             initialState.

Definition circuitInitialized : PathState :=
  Eval vm_compute in
    loadedOr (initializePathData refEnv refInputs circuitBuilt) circuitBuilt.

(* ------------------------------------------------------------------ *)
(** ** Steering: device orientation, relative roll, needle, camera offset *)

(** Math.abs *)
Definition numAbs (x : num) : num :=
  match x with
  | NaN => NaN
  | NInf | PInf => PInf
  | Fin a => Fin (Qabs a)
  end.

(** The module-level state of the roll control and of the lateral camera
    offset. *)
Record SteerState : Type := mkSteerState {
  isLandscape : bool;
  rollSign : num;
  rollBaselineDegrees : num;
  rollDegreesSmoothed : num;
  rollRelativeDegreesSmoothed : num;
  rawGyroAlpha : num;
  rawGyroBeta : num;
  rawGyroGamma : num;
  yawSensitivity : num;
  cameraOffsetMin : num;
  cameraOffsetMax : num;
  cameraOffsetCurrent : num
}.

(** [yawLowPassAlpha] is never reassigned; [maxRollDegrees] is a constant. *)
Definition yawLowPassAlpha : num := Fin (15 # 100)%Q.
Definition maxRollDegrees : num := Fin 45%Q.

(** The values the page starts with. *)
Definition initialSteer : SteerState :=
  mkSteerState false one zero zero zero zero zero zero one
    (Fin (-25 # 100)%Q) (Fin (25 # 100)%Q) zero.

(** updateOrientationState; [orientation] is [window.orientation], which
    may be undefined. *)
Definition updateOrientationState (orientation : option num) (g : SteerState) : SteerState :=
  let orientation := or_else (nullish orientation NaN) zero in
  mkSteerState (numAbs orientation === Fin 90%Q)
    (if orientation === Fin (-90)%Q then Fin (-1)%Q else one)
    (rollBaselineDegrees g) (rollDegreesSmoothed g) (rollRelativeDegreesSmoothed g)
    (rawGyroAlpha g) (rawGyroBeta g) (rawGyroGamma g) (yawSensitivity g)
    (cameraOffsetMin g) (cameraOffsetMax g) (cameraOffsetCurrent g).

(** The three angles of a DeviceOrientationEvent; each may be [null]. *)
Record OrientationEvent : Type := mkOrientationEvent {
  evAlpha : option num;
  evBeta : option num;
  evGamma : option num
}.

(** The two folding steps applied to [e.beta * rollSign] in landscape. *)
Definition foldBeta (betaRoll : num) : num :=
  let betaRoll := if betaRoll >? Fin 90%Q then Fin 180%Q - betaRoll else betaRoll in
  let betaRoll := if betaRoll <? Fin (-90)%Q then Fin (-180)%Q - betaRoll else betaRoll in
  betaRoll.

Definition rawRollOf (g : SteerState) (beta gamma : num) : num :=
  if isLandscape g then foldBeta (beta * rollSign g) else gamma.

Definition handleDeviceOrientationEvent (e : OrientationEvent) (g : SteerState) : SteerState :=
  let rawAlpha := nullish (evAlpha e) zero in
  let rawBeta := nullish (evBeta e) zero in
  let rawGamma := nullish (evGamma e) zero in
  let unchanged :=
    mkSteerState (isLandscape g) (rollSign g)
      (rollBaselineDegrees g) (rollDegreesSmoothed g) (rollRelativeDegreesSmoothed g)
      rawAlpha rawBeta rawGamma (yawSensitivity g)
      (cameraOffsetMin g) (cameraOffsetMax g) (cameraOffsetCurrent g) in
  match evGamma e, evBeta e with
  | Some gamma, Some beta =>
      let rawRoll := rawRollOf g beta gamma in
      let smoothed :=
        rollDegreesSmoothed g + (rawRoll - rollDegreesSmoothed g) * yawLowPassAlpha in
      let relative := smoothed - rollBaselineDegrees g in
      mkSteerState (isLandscape g) (rollSign g)
        (rollBaselineDegrees g) smoothed
        (rollRelativeDegreesSmoothed g
         + (relative - rollRelativeDegreesSmoothed g) * Fin (12 # 100)%Q)
        rawAlpha rawBeta rawGamma (yawSensitivity g)
        (cameraOffsetMin g) (cameraOffsetMax g) (cameraOffsetCurrent g)
  | _, _ => unchanged
  end.

Definition centerGyroscopeHeading (g : SteerState) : SteerState :=
  mkSteerState (isLandscape g) (rollSign g)
    (rollDegreesSmoothed g) (rollDegreesSmoothed g) zero
    (rawGyroAlpha g) (rawGyroBeta g) (rawGyroGamma g) (yawSensitivity g)
    (cameraOffsetMin g) (cameraOffsetMax g) (cameraOffsetCurrent g).

(** The first lines of renderLoop: the needle position and the lateral
    camera offset it drives. *)
Definition needleNormalized (g : SteerState) : num :=
  clampNumber ((rollRelativeDegreesSmoothed g * yawSensitivity g) / maxRollDegrees)
              (Fin (-1)%Q) one.

Definition updateCameraOffset (g : SteerState) : SteerState :=
  let offsetRange := cameraOffsetMax g - cameraOffsetMin g in
  mkSteerState (isLandscape g) (rollSign g)
    (rollBaselineDegrees g) (rollDegreesSmoothed g) (rollRelativeDegreesSmoothed g)
    (rawGyroAlpha g) (rawGyroBeta g) (rawGyroGamma g) (yawSensitivity g)
    (cameraOffsetMin g) (cameraOffsetMax g)
    (cameraOffsetMin g + (needleNormalized g + one) * Fin (5 # 10)%Q * offsetRange).

(** The input handlers of the steering configuration; [value] is
    [parseFloat(input.value)]. *)
Definition onGyroSensitivityInput (value : num) (g : SteerState) : SteerState :=
  mkSteerState (isLandscape g) (rollSign g)
    (rollBaselineDegrees g) (rollDegreesSmoothed g) (rollRelativeDegreesSmoothed g)
    (rawGyroAlpha g) (rawGyroBeta g) (rawGyroGamma g)
    (if isFinite value then value else one)
    (cameraOffsetMin g) (cameraOffsetMax g) (cameraOffsetCurrent g).

Definition onCameraOffsetMinInput (value : num) (g : SteerState) : SteerState :=
  if isFinite value then
    mkSteerState (isLandscape g) (rollSign g)
      (rollBaselineDegrees g) (rollDegreesSmoothed g) (rollRelativeDegreesSmoothed g)
      (rawGyroAlpha g) (rawGyroBeta g) (rawGyroGamma g) (yawSensitivity g)
      value (cameraOffsetMax g) (cameraOffsetCurrent g)
  else g.

Definition onCameraOffsetMaxInput (value : num) (g : SteerState) : SteerState :=
  if isFinite value then
    mkSteerState (isLandscape g) (rollSign g)
      (rollBaselineDegrees g) (rollDegreesSmoothed g) (rollRelativeDegreesSmoothed g)
      (rawGyroAlpha g) (rawGyroBeta g) (rawGyroGamma g) (yawSensitivity g)
      (cameraOffsetMin g) value (cameraOffsetCurrent g)
  else g.

(** The ranges the roll filter keeps: the smoothed roll and the baseline
    within [-90, 90], the relative roll within [-180, 180]. *)
Definition rollInRange (g : SteerState) : Prop :=
  Fin (-90)%Q <= rollDegreesSmoothed g <= Fin 90%Q /\
  Fin (-90)%Q <= rollBaselineDegrees g <= Fin 90%Q /\
  Fin (-180)%Q <= rollRelativeDegreesSmoothed g <= Fin 180%Q.

(** The angles of an event are in the ranges of the DeviceOrientation
    specification: beta in [-180, 180], gamma in [-90, 90]. *)
Definition eventInRange (e : OrientationEvent) : Prop :=
  (forall beta, evBeta e = Some beta -> Fin (-180)%Q <= beta <= Fin 180%Q) /\
  (forall gamma, evGamma e = Some gamma -> Fin (-90)%Q <= gamma <= Fin 90%Q).

(** The invariant of the roll control: the ranges above, and a roll sign
    that is 1 or -1. *)
Definition steerInvariant (g : SteerState) : Prop :=
  rollInRange g /\ (rollSign g = one \/ rollSign g = Fin (-1)%Q).

(** The steering configuration holds finite numbers. *)
Definition steerConfigFinite (g : SteerState) : Prop :=
  isFinite (yawSensitivity g) = true /\
  isFinite (cameraOffsetMin g) = true /\ isFinite (cameraOffsetMax g) = true.

(* ------------------------------------------------------------------ *)
(** ** Score, hearts and the HUD target: updateHudAndScoring *)

Record HudState : Type := mkHudState {
  playerScore : num;
  playerHearts : num;
  wasInsideTargetPrevFrame : bool;
  scoreAccumulatorSeconds : num;
  noDamageMode : bool;
  targetCenterNormalized : num;
  targetWidthNormalized : num;
  targetCenterNormalizedSmoothed : num;
  targetSmoothingAlpha : num
}.

(** The values the page starts with. *)
Definition initialHud : HudState :=
  mkHudState zero (Fin 3%Q) false zero false zero (Fin (2 # 10)%Q) zero (Fin (3 # 100)%Q).

(** The literal 0.1: the binary64 number nearest to one tenth,
    3602879701896397 / 2^55, a little above 1/10. *)
Definition tenthQ : Q := (3602879701896397 # 36028797018963968)%Q.
Definition tenth : num := Fin tenthQ.

(** normalizedToPixels, for a bar [barWidthPx] wide. *)
Definition normalizedToPixels (barWidthPx n : num) : num :=
  (clampNumber n (Fin (-1)%Q) one + one) * Fin (5 # 10)%Q * barWidthPx.

Definition targetWidthPx (hs : HudState) (barWidthPx : num) : num :=
  max (Fin 6%Q) (barWidthPx * clampNumber (targetWidthNormalized hs) (Fin (2 # 100)%Q) one).

(** The overlap test of the needle (4 px wide, from [needleLeftPx]) and the
    target (from [targetLeftPx], [width] wide). *)
Definition isOverlapping (needleLeftPx targetLeftPx width : num) : bool :=
  negb ((needleLeftPx + Fin 4%Q <? targetLeftPx) || (needleLeftPx >? targetLeftPx + width)).

(** The [while (scoreAccumulatorSeconds >= 0.1)] loop; [fuel] bounds the
    number of iterations. *)
Fixpoint scoreTicks (fuel : nat) (overlapping : bool) (acc score : num) : num * num :=
  match fuel with
  | O => (acc, score)
  | S fuel' =>
      if acc >=? tenth
      then scoreTicks fuel' overlapping (acc - tenth)
             (if overlapping then score + one else score)
      else (acc, score)
  end.

(** The loop from an accumulator [acc]: it does not end on +Infinity (which
    stays +Infinity when 0.1 is subtracted); on a finite accumulator the
    number of whole tenths it holds is enough iterations. *)
Definition scoreLoop (overlapping : bool) (acc score : num) : option (num * num) :=
  match acc with
  | PInf => None
  | Fin q => Some (scoreTicks (Z.to_nat (Qfloor (q * 10))) overlapping acc score)
  | _ => Some (acc, score)
  end.

(** [String.prototype.repeat(count)] raises a RangeError when the count,
    truncated to an integer, is negative or is +Infinity. *)
Definition repeatRaises (count : num) : bool :=
  match count with
  | NaN => false
  | NInf | PInf => true
  | Fin q => (Qtrunc q <? 0)%Z
  end.

(** The result of updateHudAndScoring: the new HUD state and the new value
    of isRideActive; a RangeError raised by the heart display, with the state
    at that point; or a scoring loop that does not end. *)
Inductive hudOutcome : Type :=
| HudDone (hs : HudState) (active : bool)
| HudRangeError (hs : HudState) (active : bool)
| HudHangs.

(** The smoothed target center after the first statement of
    updateHudAndScoring. *)
Definition smoothedTarget (hs : HudState) : num :=
  targetCenterNormalizedSmoothed hs
  + (targetCenterNormalized hs - targetCenterNormalizedSmoothed hs)
    * targetSmoothingAlpha hs.

(** The pixel positions the frame computes, and its overlap test. *)
Definition targetLeftPx (hs : HudState) (barWidthPx : num) : num :=
  normalizedToPixels barWidthPx (smoothedTarget hs)
  - targetWidthPx hs barWidthPx / Fin 2%Q.

Definition needleLeftPx (needleNormalized barWidthPx : num) : num :=
  normalizedToPixels barWidthPx needleNormalized - Fin 2%Q.

Definition frameOverlapping (hs : HudState) (needleNormalized barWidthPx : num) : bool :=
  isOverlapping (needleLeftPx needleNormalized barWidthPx)
                (targetLeftPx hs barWidthPx) (targetWidthPx hs barWidthPx).

Definition updateHudAndScoring (hs : HudState) (active : bool)
    (needleNormalized deltaSeconds barWidthPx : num) : hudOutcome :=
  let smoothed := smoothedTarget hs in
  let overlapping := frameOverlapping hs needleNormalized barWidthPx in
  let ticked :=
    if active
    then scoreLoop overlapping (scoreAccumulatorSeconds hs + deltaSeconds) (playerScore hs)
    else Some (scoreAccumulatorSeconds hs, playerScore hs) in
  match ticked with
  | None => HudHangs
  | Some (acc, score) =>
      if active && wasInsideTargetPrevFrame hs && negb overlapping then
        let hearts :=
          if noDamageMode hs then playerHearts hs
          else max zero (playerHearts hs - one) in
        if repeatRaises hearts || repeatRaises (Fin 3%Q - hearts) then
          HudRangeError
            (mkHudState score hearts (wasInsideTargetPrevFrame hs) acc (noDamageMode hs)
               (targetCenterNormalized hs) (targetWidthNormalized hs) smoothed
               (targetSmoothingAlpha hs))
            active
        else
          HudDone
            (mkHudState score hearts overlapping acc (noDamageMode hs)
               (targetCenterNormalized hs) (targetWidthNormalized hs) smoothed
               (targetSmoothingAlpha hs))
            (if hearts <=? zero then false else active)
      else
        HudDone
          (mkHudState score (playerHearts hs) overlapping acc (noDamageMode hs)
             (targetCenterNormalized hs) (targetWidthNormalized hs) smoothed
             (targetSmoothingAlpha hs))
          active
  end.

(** The state an outcome leaves, if the function came to an end. *)
Definition hudStateOf (o : hudOutcome) : option (HudState * bool) :=
  match o with
  | HudDone hs active | HudRangeError hs active => Some (hs, active)
  | HudHangs => None
  end.

(** The input handlers of the target; [value] is [parseFloat(input.value)]. *)
Definition onTargetWidthInput (value : num) (hs : HudState) : HudState :=
  if isFinite value then
    mkHudState (playerScore hs) (playerHearts hs) (wasInsideTargetPrevFrame hs)
      (scoreAccumulatorSeconds hs) (noDamageMode hs) (targetCenterNormalized hs)
      (clampNumber value (Fin (2 # 100)%Q) one)
      (targetCenterNormalizedSmoothed hs) (targetSmoothingAlpha hs)
  else hs.

Definition onTargetSmoothingInput (value : num) (hs : HudState) : HudState :=
  if isFinite value then
    mkHudState (playerScore hs) (playerHearts hs) (wasInsideTargetPrevFrame hs)
      (scoreAccumulatorSeconds hs) (noDamageMode hs) (targetCenterNormalized hs)
      (targetWidthNormalized hs) (targetCenterNormalizedSmoothed hs)
      (clampNumber value zero one)
  else hs.

(** The number of hearts is 0, 1, 2 or 3. *)
Definition heartsValid (h : num) : Prop :=
  exists k : Z, (0 <= k <= 3)%Z /\ (h === intNum k) = true.

(** The target configuration is in its ranges: a width within [0.02, 1], a
    smoothing coefficient within [0, 1], and a center and a smoothed center
    within [-1, 1]. *)
Definition targetInRange (hs : HudState) : Prop :=
  Fin (2 # 100)%Q <= targetWidthNormalized hs <= one /\
  zero <= targetSmoothingAlpha hs <= one /\
  Fin (-1)%Q <= targetCenterNormalized hs <= one /\
  Fin (-1)%Q <= targetCenterNormalizedSmoothed hs <= one.

(* ------------------------------------------------------------------ *)
(** ** Successive frames *)

(** renderLoop run once per frame time of [deltas], as far as the path
    state goes; it stops at the first frame that raises. *)
Fixpoint renderFrames (env : Env) (inp : Inputs) (st : PathState) (deltas : list num)
    : outcome :=
  match deltas with
  | [] => Done st
  | deltaSeconds :: rest =>
      match renderLoop env inp st deltaSeconds with
      | Done st' => renderFrames env inp st' rest
      | other => other
      end
  end.

(** The ride is on the path: a finite arc length within [0, totalLen] and a
    curve parameter within [0, 1]. *)
Definition rideOnPath (st : PathState) : Prop :=
  isFinite (rideProgressS st) = true /\
  zero <= rideProgressS st <= totalLen st /\
  zero <= rideProgressT st <= one.

(** The path of a state: everything but the ride fields. *)
Definition samePath (st st' : PathState) : Prop :=
  sCurveControlPoints st' = sCurveControlPoints st /\ segSpeeds st' = segSpeeds st /\
  sampledPts st' = sampledPts st /\ cumLen st' = cumLen st /\
  totalLen st' = totalLen st /\ sAtPoint st' = sAtPoint st /\
  turnAngle st' = turnAngle st /\ tension st' = tension st.

(* ------------------------------------------------------------------ *)
(** ** The whole frame: renderLoop with steering, ride clock and scoring *)

Record GameState : Type := mkGameState {
  gamePath : PathState;
  gameSteer : SteerState;
  gameHud : HudState
}.

(** A frame ends, raises (the TypeError of a missing sample or the
    RangeError of the heart display) with the state at that point, or does
    not end. *)
Inductive frameOutcome : Type :=
| FrameDone (g : GameState)
| FrameRaised (g : GameState)
| FrameHangs.

(** playerScore = 0; playerHearts = 3 *)
Definition resetScoreAndHearts (hs : HudState) : HudState :=
  mkHudState zero (Fin 3%Q) (wasInsideTargetPrevFrame hs)
    (scoreAccumulatorSeconds hs) (noDamageMode hs) (targetCenterNormalized hs)
    (targetWidthNormalized hs) (targetCenterNormalizedSmoothed hs)
    (targetSmoothingAlpha hs).

(** A looping ride wraps around in this frame. *)
Definition wrapsAround (inp : Inputs) (st : PathState) (deltaSeconds : num) : bool :=
  isRideActive st && (advanced inp st deltaSeconds >=? totalLen st) && isRideLooping st.

Definition setActive (st : PathState) (active : bool) : PathState :=
  setRide st (rideProgressS st) (rideProgressT st) active.

(** renderLoop: the needle and the camera offset, the ride branch (which
    resets score and hearts when a looping ride wraps around), then
    updateHudAndScoring, which may stop the ride.  [barWidthPx] is the width
    of the HUD bar read in this frame. *)
Definition renderFrame (env : Env) (inp : Inputs) (g : GameState)
    (deltaSeconds barWidthPx : num) : frameOutcome :=
  let needle := needleNormalized (gameSteer g) in
  let steer := updateCameraOffset (gameSteer g) in
  let hud :=
    if wrapsAround inp (gamePath g) deltaSeconds
    then resetScoreAndHearts (gameHud g) else gameHud g in
  match renderLoop env inp (gamePath g) deltaSeconds with
  | Done st =>
      match updateHudAndScoring hud (isRideActive st) needle deltaSeconds barWidthPx with
      | HudDone hud' active => FrameDone (mkGameState (setActive st active) steer hud')
      | HudRangeError hud' active => FrameRaised (mkGameState (setActive st active) steer hud')
      | HudHangs => FrameHangs
      end
  | Raised _ st => FrameRaised (mkGameState st steer hud)
  | Hangs => FrameHangs
  end.

(** startRide(loop), with the game state it resets. *)
Definition startGame (env : Env) (inp : Inputs) (g : GameState) (loop : bool) : frameOutcome :=
  match resetCameraToPathStart env inp (gamePath g) with
  | Done st =>
      FrameDone
        (mkGameState (startRide st loop) (gameSteer g)
           (mkHudState zero (Fin 3%Q) false
              (scoreAccumulatorSeconds (gameHud g)) (noDamageMode (gameHud g))
              (targetCenterNormalized (gameHud g)) (targetWidthNormalized (gameHud g))
              (targetCenterNormalizedSmoothed (gameHud g))
              (targetSmoothingAlpha (gameHud g))))
  | Raised _ st => FrameRaised (mkGameState st (gameSteer g) (gameHud g))
  | Hangs => FrameHangs
  end.

(** The path is built (tables built, starting at 0, non-decreasing, ending
    at a finite totalLen > 0) and its speed configuration is within bounds. *)
Definition pathReady (inp : Inputs) (st : PathState) : Prop :=
  tablesBuilt st /\ arcLengthTable st /\ getNum (cumLen st) 0 = zero /\
  zero < totalLen st /\ isFinite (totalLen st) = true /\
  speedConfig inp st.

(** A score accumulator between 0 and 1e6 seconds. *)
Definition accumulatorInRange (acc : num) : Prop :=
  zero <= acc <= Fin (inject_Z (10 ^ 6)).

(** The invariant of the game: the ride is on a ready path, the score is
    finite, the accumulator is in its range, and the hearts are 0, 1, 2 or 3
    and at least 1 while the ride is active. *)
Definition gameInvariant (inp : Inputs) (g : GameState) : Prop :=
  pathReady inp (gamePath g) /\ rideOnPath (gamePath g) /\
  isFinite (playerScore (gameHud g)) = true /\
  accumulatorInRange (scoreAccumulatorSeconds (gameHud g)) /\
  heartsValid (playerHearts (gameHud g)) /\
  (isRideActive (gamePath g) = true -> zero < playerHearts (gameHud g)).

(** A game on the short path: a looping ride just started, the steering
    and the HUD as the page starts them. *)
Definition shortGame : GameState :=
  mkGameState (startRide shortBuilt true) initialSteer initialHud.

(** A point whose coordinates are finite numbers of magnitude at most 1000. *)
Definition coordinateInRange (x : num) : Prop :=
  Fin (-1000)%Q <= x <= Fin 1000%Q.

Definition pointInRange (p : vec3) : Prop :=
  coordinateInRange (vx p) /\ coordinateInRange (vy p) /\ coordinateInRange (vz p).

(** The curve sampler returns between 2 and 100 points for the control
    points [cps], all with coordinates of magnitude at most 1000: no distance
    between them overflows, and the samples (at most 173206 per pair of
    points, 0.02 apart) stay far below the largest length of an array. *)
Definition curveSampled (env : Env) (inp : Inputs) (cps : list vec3) (tension : num) : Prop :=
  let points :=
    curve_getPoints env cps tension (max (Fin 2%Q) (lenNum cps * resScale inp)) in
  (2 <= length points)%nat /\ (length points <= 100)%nat /\
  Forall pointInRange points.

(* ================================================================== *)
(** * Properties *)

(** ** Order facts on [num] *)

Lemma Qltb_iff a b : Qltb a b = true <-> (a < b)%Q.
Proof.
  unfold Qltb. rewrite negb_true_iff. split; intro H.
  - apply Qnot_le_lt. intro Hle. apply Qle_bool_iff in Hle. congruence.
  - destruct (Qle_bool b a) eqn:E; [|reflexivity].
    apply Qle_bool_iff in E. exfalso. apply (Qlt_not_le _ _ H E).
Qed.

Lemma Qltb_false_iff a b : Qltb a b = false <-> (b <= a)%Q.
Proof.
  unfold Qltb. rewrite negb_false_iff. apply Qle_bool_iff.
Qed.

Lemma Qle_bool_false_iff a b : Qle_bool a b = false <-> (b < a)%Q.
Proof.
  rewrite <- Qltb_iff. unfold Qltb. rewrite negb_true_iff. reflexivity.
Qed.

(** Turns boolean comparisons on rationals in the context and the goal into
    propositions, for [lra]. *)
Ltac qbool :=
  repeat match goal with
  | H : Qle_bool _ _ = true |- _ => apply Qle_bool_iff in H
  | H : Qle_bool _ _ = false |- _ => apply Qle_bool_false_iff in H
  | H : Qltb _ _ = true |- _ => apply Qltb_iff in H
  | H : Qltb _ _ = false |- _ => apply Qltb_false_iff in H
  | H : Qeq_bool _ _ = true |- _ => apply Qeq_bool_iff in H
  | H : Qeq_bool _ _ = false |- _ => apply Qeq_bool_neq in H
  | |- Qle_bool _ _ = true => apply Qle_bool_iff
  | |- Qle_bool _ _ = false => apply Qle_bool_false_iff
  | |- Qltb _ _ = true => apply Qltb_iff
  | |- Qltb _ _ = false => apply Qltb_false_iff
  | |- Qeq_bool _ _ = true => apply Qeq_bool_iff
  end.

(** Case analysis on every number in sight, closing the comparison goals. *)
Ltac num_cases :=
  unfold le, lt, gtb, geb in *;
  repeat match goal with
  | x : num |- _ => destruct x
  end;
  simpl in *; try congruence; try discriminate; try reflexivity;
  qbool; try lra.

Lemma num_le_trans x y z : x <= y -> y <= z -> x <= z.
Proof. intros; num_cases. Qed.

Lemma num_lt_le_trans x y z : x < y -> y <= z -> x < z.
Proof. intros; num_cases. Qed.

Lemma num_le_lt_trans x y z : x <= y -> y < z -> x < z.
Proof. intros; num_cases. Qed.

Lemma lt_leb_false x y : x < y -> (y <=? x) = false.
Proof. intros; num_cases. Qed.

Lemma le_ltb_false x y : x <= y -> (y <? x) = false.
Proof. intros; num_cases. Qed.

Lemma ltb_false_leb x y :
  isNaN x = false -> isNaN y = false -> (x <? y) = false -> y <= x.
Proof. intros; num_cases. Qed.

Lemma le_notNaN_l x y : x <= y -> isNaN x = false.
Proof. intros; num_cases. Qed.

Lemma le_notNaN_r x y : x <= y -> isNaN y = false.
Proof. intros; num_cases. Qed.

Lemma num_le_refl x : isNaN x = false -> x <= x.
Proof. intros; num_cases. Qed.

(** Inside the range the clamp of distanceToIndex is the identity, up to the
    representation of the rational. *)
Lemma clamp_dist_in_range s T c :
  zero <= s -> s <= T ->
  (c <? max zero (min s T)) = (c <? s) /\
  (max zero (min s T) <=? c) = (s <=? c).
Proof.
  intros H0 H1. unfold le, max, min, zero in *.
  destruct s as [| |s|], T as [| |T|]; simpl in *; try discriminate;
    try (destruct c; simpl; split; reflexivity).
  - destruct (Qltb T s) eqn:E1; qbool; [lra|].
    simpl. destruct (Qltb 0 s) eqn:E2; [split; reflexivity|].
    qbool. destruct c as [| |c|]; simpl; try (split; reflexivity).
    split; apply eq_true_iff_eq.
    + rewrite !Qltb_iff. split; intros; lra.
    + rewrite !Qle_bool_iff. split; intros; lra.
  - destruct (Qltb 0 s) eqn:E2; [split; reflexivity|].
    qbool. destruct c as [| |c|]; simpl; try (split; reflexivity).
    split; apply eq_true_iff_eq.
    + rewrite !Qltb_iff. split; intros; lra.
    + rewrite !Qle_bool_iff. split; intros; lra.
Qed.

(** The clamp never yields anything outside [0, T] when [0 <= T]; it is NaN
    exactly when the input or [T] is NaN. *)
Lemma clamp_dist_bounds s T :
  zero <= T -> isNaN s = false ->
  zero <= max zero (min s T) <= T.
Proof.
  intros HT Hs. unfold le, max, min, zero in *.
  destruct s as [| |s|], T as [| |T|]; simpl in *; try discriminate;
    try (split; reflexivity);
    repeat match goal with
    | |- context [Qltb ?a ?b] => destruct (Qltb a b) eqn:?; simpl
    end; qbool; split; qbool; try lra; try reflexivity.
Qed.

Lemma clamp_dist_mono s1 s2 T :
  zero <= T -> s1 <= s2 ->
  max zero (min s1 T) <= max zero (min s2 T).
Proof.
  intros HT H. unfold le, max, min, zero in *.
  destruct s1 as [| |s1|], s2 as [| |s2|], T as [| |T|];
    simpl in *; try discriminate; try reflexivity;
    repeat match goal with
    | |- context [Qltb ?a ?b] => destruct (Qltb a b) eqn:?; simpl
    end; qbool; try lra; try reflexivity.
Qed.

(** ** The binary search of distanceToIndex *)

Lemma shiftr1_bounds lo hi :
  (lo < hi)%Z -> (lo <= Z.shiftr (lo + hi) 1 < hi)%Z.
Proof.
  intros H. rewrite Z.shiftr_div_pow2 by lia.
  change (2 ^ 1)%Z with 2%Z.
  split.
  - apply Z.div_le_lower_bound; lia.
  - apply Z.div_lt_upper_bound; lia.
Qed.

(** The loop never leaves the interval it started with, whatever the table
    and the searched value are. *)
Lemma bsearch_range table d fuel : forall lo hi,
  (lo <= hi)%Z ->
  (lo <= bsearch table d fuel lo hi <= hi)%Z.
Proof.
  induction fuel as [|fuel IH]; intros lo hi Hle; simpl; [lia|].
  destruct (lo <? hi)%Z eqn:E; [|lia].
  apply Z.ltb_lt in E.
  pose proof (shiftr1_bounds _ _ E) as Hm.
  destruct (getNum table (Z.shiftr (lo + hi) 1) <? d).
  - specialize (IH (Z.shiftr (lo + hi) 1 + 1)%Z hi). lia.
  - specialize (IH lo (Z.shiftr (lo + hi) 1)). lia.
Qed.

(** With [hi - lo] units of fuel the loop ends by its own test: more fuel
    does not change the result. *)
Lemma bsearch_fuel table d : forall fuel extra lo hi,
  (hi - lo <= Z.of_nat fuel)%Z ->
  bsearch table d (fuel + extra) lo hi = bsearch table d fuel lo hi.
Proof.
  induction fuel as [|fuel IH]; intros extra lo hi Hf.
  - simpl. destruct extra; simpl; [reflexivity|].
    destruct (lo <? hi)%Z eqn:E; [|reflexivity].
    apply Z.ltb_lt in E. lia.
  - simpl. destruct (lo <? hi)%Z eqn:E; [|reflexivity].
    apply Z.ltb_lt in E.
    pose proof (shiftr1_bounds _ _ E) as Hm.
    destruct (getNum table (Z.shiftr (lo + hi) 1) <? d);
      apply IH; lia.
Qed.

(** distanceToIndex gives the loop enough fuel. *)
Lemma distanceToIndex_fuel_enough st s extra :
  bsearch (cumLen st) (max zero (min s (totalLen st)))
    (length (cumLen st) + extra) 0 (Z.of_nat (length (cumLen st)) - 1)
  = distanceToIndex st s.
Proof.
  unfold distanceToIndex. apply bsearch_fuel. lia.
Qed.

Lemma nondecreasing_le c :
  nondecreasing c ->
  forall k i : nat, (0 <= Z.of_nat i)%Z ->
    (Z.of_nat i + Z.of_nat (S k) < Z.of_nat (length c))%Z ->
    getNum c (Z.of_nat i) <= getNum c (Z.of_nat i + Z.of_nat (S k)).
Proof.
  intros Hs. induction k as [|k IH]; intros i Hi Hlt.
  - apply Hs; lia.
  - apply num_le_trans with (getNum c (Z.of_nat i + Z.of_nat (S k))).
    + apply IH; lia.
    + replace (Z.of_nat i + Z.of_nat (S (S k)))%Z
        with (Z.of_nat i + Z.of_nat (S k) + 1)%Z by lia.
      apply Hs; lia.
Qed.

Lemma nondecreasing_lt_le c i j :
  nondecreasing c ->
  (0 <= i)%Z -> (i < j)%Z -> (j < Z.of_nat (length c))%Z ->
  getNum c i <= getNum c j.
Proof.
  intros Hs Hi Hij Hj.
  pose proof (nondecreasing_le c Hs (Z.to_nat (j - i - 1)) (Z.to_nat i)) as H.
  replace (Z.of_nat (Z.to_nat i)) with i in H by lia.
  replace (i + Z.of_nat (S (Z.to_nat (j - i - 1))))%Z with j in H by lia.
  apply H; lia.
Qed.

(** Loop invariant: everything left of [lo] is below [d], the entry at [hi]
    is not.  At the exit the index is the first one whose entry is [>= d]. *)
Lemma bsearch_spec c d : nondecreasing c ->
  forall fuel lo hi,
  (hi - lo <= Z.of_nat fuel)%Z ->
  (0 <= lo)%Z -> (lo <= hi)%Z -> (hi < Z.of_nat (length c))%Z ->
  (forall j, (0 <= j < lo)%Z -> getNum c j < d) ->
  d <= getNum c hi ->
  let r := bsearch c d fuel lo hi in
  d <= getNum c r /\ (forall j, (0 <= j < r)%Z -> getNum c j < d).
Proof.
  intros Hs. induction fuel as [|fuel IH]; intros lo hi Hf Hlo Hle Hhi Hleft Hright; simpl.
  - assert (lo = hi) by lia. subst. split; assumption.
  - destruct (lo <? hi)%Z eqn:E.
    + apply Z.ltb_lt in E.
      pose proof (shiftr1_bounds _ _ E) as Hm.
      set (mid := Z.shiftr (lo + hi) 1) in *.
      destruct (getNum c mid <? d) eqn:Hc.
      * apply IH; try lia; [|assumption].
        intros j Hj.
        destruct (Z.eq_dec j mid) as [->|Hne]; [exact Hc|].
        apply num_le_lt_trans with (getNum c mid); [|exact Hc].
        apply nondecreasing_lt_le; try assumption; lia.
      * apply IH; try lia; [assumption|].
        apply ltb_false_leb; [| |exact Hc].
        -- destruct (Z.eq_dec mid 0) as [E0|E0].
           ++ assert (Hx : getNum c mid <= getNum c hi)
                by (apply nondecreasing_lt_le; try assumption; lia).
              exact (le_notNaN_l _ _ Hx).
           ++ assert (Hx : getNum c 0 <= getNum c mid)
                by (apply nondecreasing_lt_le; try assumption; lia).
              exact (le_notNaN_r _ _ Hx).
        -- exact (le_notNaN_l _ _ Hright).
    + apply Z.ltb_ge in E. assert (lo = hi) by lia. subst. split; assumption.
Qed.

Lemma cumLen_length_pos st : cumLen st <> [] -> (0 <= lastIndex st)%Z.
Proof.
  unfold lastIndex. destruct (cumLen st); [congruence|]. simpl length. lia.
Qed.

(** What the search returns, in terms of the clamped distance. *)
Lemma distanceToIndex_clamped st s :
  arcLengthTable st ->
  let d := max zero (min s (totalLen st)) in
  d <= totalLen st ->
  let i := distanceToIndex st s in
  (0 <= i <= lastIndex st)%Z /\
  d <= getNum (cumLen st) i /\
  (forall j, (0 <= j < i)%Z -> getNum (cumLen st) j < d).
Proof.
  intros (Hne & Hs & Hlast) d Hd i.
  pose proof (cumLen_length_pos _ Hne) as Hpos.
  unfold lastIndex in *.
  split.
  - subst i. unfold distanceToIndex. apply bsearch_range. lia.
  - subst i. unfold distanceToIndex. fold d.
    apply bsearch_spec; try assumption; try lia.
    rewrite Hlast. exact Hd.
Qed.

Lemma distanceToIndex_mono_clamped st s1 s2 :
  arcLengthTable st ->
  max zero (min s1 (totalLen st)) <= max zero (min s2 (totalLen st)) ->
  max zero (min s2 (totalLen st)) <= totalLen st ->
  (distanceToIndex st s1 <= distanceToIndex st s2)%Z.
Proof.
  intros Ht H12 H2.
  assert (H1 : max zero (min s1 (totalLen st)) <= totalLen st)
    by (eapply num_le_trans; eassumption).
  destruct (distanceToIndex_clamped st s1 Ht H1) as (_ & _ & Hmin1).
  destruct (distanceToIndex_clamped st s2 Ht H2) as (Hr2 & Hge2 & _).
  destruct (Z_le_gt_dec (distanceToIndex st s1) (distanceToIndex st s2)) as [|Hgt];
    [assumption|exfalso].
  specialize (Hmin1 (distanceToIndex st s2) ltac:(lia)).
  pose proof (num_le_trans _ _ _ H12 Hge2) as Hc.
  apply le_ltb_false in Hc. unfold lt in Hmin1. congruence.
Qed.

(** C3. On a non-empty non-decreasing cumulative-length table ending at
    totalLen, distanceToIndex(s) for s in [0, totalLen] is the smallest index
    whose cumulative length is >= s, and distanceToIndex is monotone: for
    s1 <= s2 the index of s1 is at most the index of s2 (inside the range,
    and for arbitrary s1 <= s2 as soon as 0 <= totalLen). *)
Theorem distanceToIndex_smallest_and_monotone (st : PathState) :
  arcLengthTable st ->
  (forall s, zero <= s -> s <= totalLen st ->
     let i := distanceToIndex st s in
     (0 <= i <= lastIndex st)%Z /\
     (getNum (cumLen st) i >=? s) = true /\
     (forall j, (0 <= j < i)%Z -> (getNum (cumLen st) j >=? s) = false)) /\
  (forall s1 s2, zero <= s1 -> s1 <= s2 -> s2 <= totalLen st ->
     (distanceToIndex st s1 <= distanceToIndex st s2)%Z) /\
  (zero <= totalLen st -> forall s1 s2, s1 <= s2 ->
     (distanceToIndex st s1 <= distanceToIndex st s2)%Z).
Proof.
  intros Ht. split; [|split].
  - intros s H0 H1 i.
    destruct (clamp_dist_in_range s (totalLen st) (totalLen st) H0 H1) as [_ Hd].
    assert (Hle : max zero (min s (totalLen st)) <= totalLen st)
      by (unfold le; rewrite Hd; exact H1).
    destruct (distanceToIndex_clamped st s Ht Hle) as (Hr & Hge & Hmin).
    split; [exact Hr|]. unfold geb. split.
    + destruct (clamp_dist_in_range s (totalLen st) (getNum (cumLen st) i) H0 H1) as [_ E].
      rewrite <- E. exact Hge.
    + intros j Hj.
      destruct (clamp_dist_in_range s (totalLen st) (getNum (cumLen st) j) H0 H1) as [_ E].
      rewrite <- E. apply lt_leb_false. apply Hmin. exact Hj.
  - intros s1 s2 H0 H12 H2.
    assert (HT : zero <= totalLen st)
      by (eapply num_le_trans; [exact H0|eapply num_le_trans; eassumption]).
    apply distanceToIndex_mono_clamped; try assumption.
    + apply clamp_dist_mono; assumption.
    + apply clamp_dist_bounds; [assumption|]. exact (le_notNaN_r _ _ H12).
  - intros HT s1 s2 H12.
    apply distanceToIndex_mono_clamped; try assumption.
    + apply clamp_dist_mono; assumption.
    + apply clamp_dist_bounds; [assumption|]. exact (le_notNaN_r _ _ H12).
Qed.

(** ** Finiteness is preserved by the arithmetic of the speed profile *)

Lemma finite_inv x : isFinite x = true -> exists q, x = Fin q.
Proof. destruct x; simpl; try discriminate. intros _. eexists; reflexivity. Qed.

Lemma finite_add x y : isFinite x = true -> isFinite y = true -> isFinite (x + y) = true.
Proof. destruct x, y; simpl; congruence. Qed.

Lemma finite_sub x y : isFinite x = true -> isFinite y = true -> isFinite (x - y) = true.
Proof. destruct x, y; simpl; congruence. Qed.

Lemma finite_mul x y : isFinite x = true -> isFinite y = true -> isFinite (x * y) = true.
Proof. destruct x, y; simpl; congruence. Qed.

Lemma finite_min x y : isFinite x = true -> isFinite y = true -> isFinite (min x y) = true.
Proof. destruct x, y; simpl; try congruence. intros _ _. destruct (Qltb _ _); reflexivity. Qed.

Lemma finite_max x y : isFinite x = true -> isFinite y = true -> isFinite (max x y) = true.
Proof. destruct x, y; simpl; try congruence. intros _ _. destruct (Qltb _ _); reflexivity. Qed.

(** Dividing by a length floored at 1e-6 never divides by zero. *)
Lemma finite_div_floored x y :
  isFinite x = true -> isFinite y = true -> isFinite (x / max eps6 y) = true.
Proof.
  destruct x as [| |a|], y as [| |b|]; simpl; try congruence. intros _ _.
  destruct (Qltb (1 # 1000000) b) eqn:E; simpl.
  - destruct (Qeq_bool b 0) eqn:E0; [|reflexivity]. qbool. lra.
  - reflexivity.
Qed.

Lemma finite_div_100 x : isFinite x = true -> isFinite (x / n100) = true.
Proof. destruct x; simpl; congruence. Qed.

(** A value clamped to [0, 1] is finite unless it is NaN. *)
Lemma clamp01_finite x : isNaN (clamp x zero one) = false -> isFinite (clamp x zero one) = true.
Proof.
  destruct x as [| |a|]; simpl; try congruence; try reflexivity.
  intros _. destruct (Qltb a 1); simpl; [|reflexivity].
  destruct (Qltb 0 a); reflexivity.
Qed.

Lemma clamp01_finite_of x : isFinite x = true -> isFinite (clamp x zero one) = true.
Proof.
  destruct x as [| |a|]; simpl; try congruence.
  intros _. destruct (Qltb a 1); simpl; [|reflexivity].
  destruct (Qltb 0 a); reflexivity.
Qed.

Lemma leb_true_notNaN_l x y : (x <=? y) = true -> isNaN x = false.
Proof. destruct x, y; simpl; congruence. Qed.

Lemma leb_true_notNaN_r x y : (x <=? y) = true -> isNaN y = false.
Proof. destruct x, y; simpl; congruence. Qed.

Lemma ltb_true_notNaN_l x y : (x <? y) = true -> isNaN x = false.
Proof. destruct x, y; simpl; congruence. Qed.

Lemma ltb_true_notNaN_r x y : (x <? y) = true -> isNaN y = false.
Proof. destruct x, y; simpl; congruence. Qed.

Lemma finite_lerp x y t :
  isFinite x = true -> isFinite y = true -> isFinite t = true ->
  isFinite (lerp x y t) = true.
Proof.
  intros. unfold lerp. apply finite_add; apply finite_mul; try assumption.
  apply finite_sub; [reflexivity|assumption].
Qed.

Lemma finite_getOpt (l : list num) i d :
  Forall (fun v => isFinite v = true) l -> isFinite d = true ->
  isFinite (nullish (getOpt l i) d) = true.
Proof.
  intros Hl Hd. unfold getOpt. destruct (i <? 0)%Z; [exact Hd|].
  destruct (nth_error l (Z.to_nat i)) eqn:E; simpl; [|exact Hd].
  rewrite Forall_forall in Hl. apply Hl. eapply nth_error_In; eassumption.
Qed.

Lemma finite_anglePercent inp deg :
  finitePercentages inp -> isFinite (anglePercent inp deg) = true.
Proof.
  intros (H1 & H2 & H3 & H4 & H5 & H6 & H7).
  unfold anglePercent.
  repeat match goal with
  | |- context [if ?c then _ else _] => destruct c
  end; apply finite_div_100; assumption.
Qed.

(** A window fraction that took part in a comparison that came out true is
    not NaN, so it is finite when it is not an infinity. *)
Lemma notInfinite_finite x : notInfinite x = true -> isNaN x = false -> isFinite x = true.
Proof. destruct x; simpl; congruence. Qed.

Lemma finite_turnWindow inp st s v i :
  windowsNotInfinite inp -> finitePercentages inp -> finiteSpeeds st ->
  isFinite v = true ->
  isFinite (turnWindow inp st s v i) = true.
Proof.
  intros (Hps & Hpe & Hnh & Hna) Hpc Hsp Hv.
  unfold turnWindow. cbv zeta.
  set (prevV := nullish (getOpt (segSpeeds st) (Z.of_nat i - 1)) v).
  set (nextV := nullish (getOpt (segSpeeds st) (Z.of_nat i)) v).
  set (minV := min prevV nextV * anglePercent inp (getNum (turnAngle st) (Z.of_nat i))).
  assert (HprevV : isFinite prevV = true) by (apply finite_getOpt; assumption).
  assert (HnextV : isFinite nextV = true) by (apply finite_getOpt; assumption).
  assert (HminV : isFinite minV = true).
  { apply finite_mul; [apply finite_min; assumption|].
    apply finite_anglePercent; assumption. }
  set (tPrev := clamp ((s - getNum (sAtPoint st) (Z.of_nat i - 1)) / _) zero one).
  set (tNext := clamp ((s - getNum (sAtPoint st) (Z.of_nat i)) / _) zero one).
  match goal with
  | |- isFinite (if ?c then _ else ?w) = true =>
      set (v1 := w); assert (Hv1 : isFinite v1 = true); [subst v1|]
  end.
  { destruct ((s >=? _) && (s <=? _)); [|exact Hv].
    destruct ((tPrev >=? wPrevStart inp) && (tPrev <=? wPrevEnd inp)) eqn:E.
    - apply andb_true_iff in E. destruct E as [E1 E2]. unfold geb in E1.
      pose proof (notInfinite_finite _ Hps (leb_true_notNaN_l _ _ E1)) as Fps.
      pose proof (notInfinite_finite _ Hpe (leb_true_notNaN_r _ _ E2)) as Fpe.
      apply finite_lerp; try assumption.
      apply clamp01_finite_of. apply finite_div_floored.
      + apply finite_sub; [|assumption].
        apply clamp01_finite. exact (leb_true_notNaN_l _ _ E2).
      + apply finite_sub; assumption.
    - destruct ((tPrev >? wPrevEnd inp) && (tPrev <=? one)); assumption. }
  clearbody v1.
  destruct ((s >=? _) && (s <=? _)); [|exact Hv1].
  destruct (tNext <=? wNextHold inp); [exact HminV|].
  destruct ((tNext >? wNextHold inp) && (tNext <=? wNextAccel inp)) eqn:E;
    [|exact Hv1].
  apply andb_true_iff in E. destruct E as [E1 E2]. unfold gtb in E1.
  pose proof (notInfinite_finite _ Hnh (ltb_true_notNaN_l _ _ E1)) as Fnh.
  pose proof (notInfinite_finite _ Hna (leb_true_notNaN_r _ _ E2)) as Fna.
  apply finite_lerp; try assumption.
  apply clamp01_finite_of. apply finite_div_floored.
  - apply finite_sub; [|assumption].
    apply clamp01_finite. exact (leb_true_notNaN_l _ _ E2).
  - apply finite_sub; assumption.
Qed.

Lemma finite_findSegmentSpeed st s idxs v :
  finiteSpeeds st -> findSegmentSpeed st s idxs = Some v -> isFinite v = true.
Proof.
  intros Hsp. induction idxs as [|i rest IH]; simpl; [discriminate|].
  destruct (s <=? _).
  - intros [= <-]. apply finite_getOpt; [assumption|reflexivity].
  - exact IH.
Qed.

Lemma finite_baseSegmentSpeedAtS st s :
  finiteSpeeds st -> isFinite (baseSegmentSpeedAtS st s) = true.
Proof.
  intros Hsp. unfold baseSegmentSpeedAtS.
  destruct (_ <? 2)%nat; [reflexivity|].
  destruct (findSegmentSpeed _ _ _) eqn:E.
  - eapply finite_findSegmentSpeed; eassumption.
  - apply finite_getOpt; [assumption|reflexivity].
Qed.

Lemma finite_fold_turnWindow inp st s idxs : forall v,
  windowsNotInfinite inp -> finitePercentages inp -> finiteSpeeds st ->
  isFinite v = true ->
  isFinite (fold_left (turnWindow inp st s) idxs v) = true.
Proof.
  induction idxs as [|i rest IH]; intros v Hw Hpc Hsp Hv; simpl; [exact Hv|].
  apply IH; try assumption. apply finite_turnWindow; assumption.
Qed.

Lemma max_zero_finite v :
  isFinite v = true -> isFinite (max zero v) = true /\ zero <= max zero v.
Proof.
  destruct v as [| |a|]; simpl; try discriminate. intros _.
  unfold le. destruct (Qltb 0 a) eqn:E; simpl; split; try reflexivity; qbool; lra.
Qed.

(** Math.max(0, v) is NaN or a value >= 0. *)
Lemma max_zero_nan_or_nonneg v : max zero v = NaN \/ zero <= max zero v.
Proof.
  destruct v as [| |a|]; simpl; [left; reflexivity|right; reflexivity| |right; reflexivity].
  right. unfold le. destruct (Qltb 0 a) eqn:E; simpl; [qbool; lra|reflexivity].
Qed.

Lemma bounded_finite x : bounded x -> isFinite x = true.
Proof. unfold bounded, le. destruct x; simpl; intros [H1 H2]; congruence. Qed.

Lemma speedConfig_finite inp st :
  speedConfig inp st ->
  windowsNotInfinite inp /\ finitePercentages inp /\ finiteSpeeds st.
Proof.
  intros (_ & Hs & (H1 & H2 & H3 & H4 & H5 & H6 & H7) & Hw).
  split; [exact Hw|]. split.
  - repeat split; apply bounded_finite; assumption.
  - unfold finiteSpeeds, speedsBounded in *.
    eapply Forall_impl; [|exact Hs]. intros v Hv. apply bounded_finite. exact Hv.
Qed.

Lemma speedAtS_finite_nonneg (inp : Inputs) (st : PathState) (s : num) :
  speedConfig inp st ->
  isFinite (speedAtS inp st s) = true /\ zero <= speedAtS inp st s.
Proof.
  intros Hc. destruct (speedConfig_finite inp st Hc) as (Hw & Hpc & Hsp).
  unfold speedAtS.
  assert (H : isFinite (fold_left (turnWindow inp st s)
                 (seq 1 (length (sCurveControlPoints st) - 2))
                 (baseSegmentSpeedAtS st s)) = true).
  { apply finite_fold_turnWindow; try assumption.
    apply finite_baseSegmentSpeedAtS; assumption. }
  exact (max_zero_finite _ H).
Qed.

(** C1 (as amended). Whatever the configuration is, speedAtS(s) is NaN or a
    value >= 0, never a negative number.  With one speed per segment, segment
    speeds and angle-band percentages that are finite numbers of magnitude
    at most 1e100, and window fractions that are not infinite (a cleared
    window field, NaN, is allowed), speedAtS(s) is a finite number >= 0 for
    every s, whatever the turn angles and the per-point arc lengths are. *)
Theorem speedAtS_nonneg_bounded_config (inp : Inputs) (st : PathState) (s : num) :
  (speedAtS inp st s = NaN \/ zero <= speedAtS inp st s) /\
  (speedPerSegment st -> speedsBounded st ->
   percentagesBounded inp -> windowsNotInfinite inp ->
   isFinite (speedAtS inp st s) = true /\ zero <= speedAtS inp st s).
Proof.
  split.
  - unfold speedAtS. apply max_zero_nan_or_nonneg.
  - intros H1 H2 H3 H4. apply speedAtS_finite_nonneg.
    exact (conj H1 (conj H2 (conj H3 H4))).
Qed.

(** ** The arc-length table built by initializePathData *)

Lemma getNum_app_l (c : list num) x i :
  (0 <= i < Z.of_nat (length c))%Z -> getNum (c ++ [x]) i = getNum c i.
Proof.
  intros Hi. unfold getNum.
  destruct (i <? 0)%Z eqn:E; [apply Z.ltb_lt in E; lia|].
  apply app_nth1. lia.
Qed.

Lemma getNum_app_r (c : list num) x :
  getNum (c ++ [x]) (Z.of_nat (length c)) = x.
Proof.
  unfold getNum.
  destruct (Z.of_nat (length c) <? 0)%Z eqn:E; [apply Z.ltb_lt in E; lia|].
  rewrite Nat2Z.id, app_nth2 by lia. rewrite Nat.sub_diag. reflexivity.
Qed.

Lemma nondecreasing_snoc (c : list num) x :
  c <> [] ->
  nondecreasing c ->
  getNum c (Z.of_nat (length c) - 1) <= x ->
  nondecreasing (c ++ [x]).
Proof.
  intros Hne Hs Hx i Hi Hlt.
  rewrite length_app in Hlt. simpl in Hlt.
  destruct (Z.eq_dec (i + 1) (Z.of_nat (length c))) as [E|E].
  - rewrite E, getNum_app_r, getNum_app_l by lia.
    replace i with (Z.of_nat (length c) - 1)%Z by lia. exact Hx.
  - rewrite !getNum_app_l by lia. apply Hs; lia.
Qed.

Lemma tableShape_push env a b steps tb k :
  tableShape tb -> tableShape (pushSample env a b steps tb k).
Proof.
  intros (Hlen & Hne & H0 & Hlast). unfold tableShape, pushSample; simpl.
  rewrite !length_app. simpl. repeat split.
  - lia.
  - destruct (tblCum tb); discriminate.
  - destruct (tblCum tb) as [|c0 cs] eqn:E; [congruence|]. exact H0.
  - replace (Z.of_nat (length (tblCum tb) + 1) - 1)%Z
      with (Z.of_nat (length (tblCum tb))) by lia.
    apply getNum_app_r.
Qed.

Lemma tableShape_fold env a b steps ks : forall tb,
  tableShape tb -> tableShape (fold_left (pushSample env a b steps) ks tb).
Proof.
  induction ks as [|k ks IH]; intros tb H; simpl; [exact H|].
  apply IH. apply tableShape_push. exact H.
Qed.

Lemma tableShape_buildLoop env rest : forall tb a tb',
  tableShape tb -> buildLoop env tb a rest = Some tb' -> tableShape tb'.
Proof.
  induction rest as [|b rest IH]; intros tb a tb' H; simpl.
  - intros [= <-]. exact H.
  - unfold subdivide. destruct (loopCount _) as [n|]; [|discriminate].
    apply IH. apply tableShape_fold. exact H.
Qed.

Lemma vec_finite_inv p :
  vec_finite p = true ->
  exists x y z, p = Vec3 (Fin x) (Fin y) (Fin z).
Proof.
  destruct p as [[| |x|] [| |y|] [| |z|]]; simpl; try discriminate.
  intros _. eauto.
Qed.

Lemma Qsquare_nonneg (x : Q) : (0 <= x * x)%Q.
Proof.
  destruct (Qlt_le_dec x 0) as [H|H].
  - setoid_replace (x * x)%Q with ((- x) * (- x))%Q by ring.
    apply Qmult_le_0_compat; lra.
  - apply Qmult_le_0_compat; assumption.
Qed.

Lemma distanceToSquared_finite a b :
  vec_finite a = true -> vec_finite b = true ->
  exists q, distanceToSquared a b = Fin q /\ (0 <= q)%Q.
Proof.
  intros Ha Hb.
  destruct (vec_finite_inv _ Ha) as (x1 & y1 & z1 & ->).
  destruct (vec_finite_inv _ Hb) as (x2 & y2 & z2 & ->).
  unfold distanceToSquared; simpl. eexists; split; [reflexivity|].
  pose proof (Qsquare_nonneg (x1 + - x2)).
  pose proof (Qsquare_nonneg (y1 + - y2)).
  pose proof (Qsquare_nonneg (z1 + - z2)).
  lra.
Qed.

Lemma distanceTo_finite env a b :
  sqrtNonneg env -> vec_finite a = true -> vec_finite b = true ->
  exists r, distanceTo env a b = Fin r /\ (0 <= r)%Q.
Proof.
  intros Hs Ha Hb. unfold distanceTo.
  destruct (distanceToSquared_finite a b Ha Hb) as (q & -> & Hq).
  apply Hs. exact Hq.
Qed.

(** The step count of a subdivision is a finite number >= 1. *)
Lemma steps_finite (r : Q) :
  exists m, max one (ceil (Fin r / targetStep)) = Fin m /\ (1 <= m)%Q.
Proof.
  unfold targetStep. simpl.
  destruct (Qltb _ _) eqn:E; eexists; split; try reflexivity; qbool; lra.
Qed.

Lemma lerpVectors_finite a b k m :
  vec_finite a = true -> vec_finite b = true -> (1 <= m)%Q ->
  vec_finite (lerpVectors a b (intNum k / Fin m)) = true.
Proof.
  intros Ha Hb Hm.
  destruct (vec_finite_inv _ Ha) as (x1 & y1 & z1 & ->).
  destruct (vec_finite_inv _ Hb) as (x2 & y2 & z2 & ->).
  unfold lerpVectors, intNum. simpl.
  destruct (Qeq_bool m 0) eqn:E; [qbool; lra|]. reflexivity.
Qed.

Lemma last_finite (pts : list vec3) :
  pts <> [] -> Forall (fun p => vec_finite p = true) pts ->
  vec_finite (lastPt pts) = true.
Proof.
  intros Hne Hall. unfold lastPt.
  destruct (exists_last Hne) as (l & x & ->).
  rewrite last_last. apply Forall_app in Hall. destruct Hall as [_ Hx].
  inversion Hx; assumption.
Qed.

Lemma tableSorted_push env a b m tb k :
  sqrtNonneg env -> vec_finite a = true -> vec_finite b = true -> (1 <= m)%Q ->
  tableShape tb -> tableSorted tb ->
  tableSorted (pushSample env a b (Fin m) tb k).
Proof.
  intros Hsq Ha Hb Hm (Hlen & Hne & H0 & Hlast) (Hacc & Hpts & Hs).
  assert (Hp : vec_finite (lerpVectors a b (intNum (Z.of_nat k) / Fin m)) = true)
    by (apply lerpVectors_finite; assumption).
  assert (Hnep : tblPts tb <> []).
  { intro E. rewrite E in Hlen. destruct (tblCum tb); [congruence|discriminate]. }
  pose proof (last_finite _ Hnep Hpts) as Hl.
  destruct (distanceTo_finite env _ _ Hsq Hp Hl) as (r & Hr & Hr0).
  destruct (finite_inv _ Hacc) as (acc & Eacc).
  unfold tableSorted, pushSample. cbv zeta. cbn [tblAcc tblPts tblCum].
  rewrite Hr, Eacc. cbn [add isFinite].
  repeat split.
  - apply Forall_app. split; [assumption|]. constructor; [assumption|constructor].
  - apply nondecreasing_snoc; try assumption.
    rewrite Hlast, Eacc. unfold le. simpl. qbool. lra.
Qed.

Lemma tableSorted_fold env a b m ks : forall tb,
  sqrtNonneg env -> vec_finite a = true -> vec_finite b = true -> (1 <= m)%Q ->
  tableShape tb -> tableSorted tb ->
  tableShape (fold_left (pushSample env a b (Fin m)) ks tb) /\
  tableSorted (fold_left (pushSample env a b (Fin m)) ks tb).
Proof.
  induction ks as [|k ks IH]; intros tb Hsq Ha Hb Hm Hsh Hso; simpl;
    [split; assumption|].
  apply IH; try assumption.
  - apply tableShape_push; assumption.
  - apply tableSorted_push; assumption.
Qed.

Lemma tableSorted_buildLoop env rest : forall tb a tb',
  sqrtNonneg env -> vec_finite a = true ->
  Forall (fun p => vec_finite p = true) rest ->
  tableShape tb -> tableSorted tb ->
  buildLoop env tb a rest = Some tb' -> tableSorted tb'.
Proof.
  induction rest as [|b rest IH]; intros tb a tb' Hsq Ha Hrest Hsh Hso; simpl.
  - intros [= <-]. exact Hso.
  - inversion Hrest as [|? ? Hb Hrest']; subst.
    unfold subdivide.
    destruct (distanceTo_finite env a b Hsq Ha Hb) as (r & -> & _).
    destruct (steps_finite r) as (m & -> & Hm). simpl.
    destruct (tableSorted_fold env a b m (seq 1 (Z.to_nat (Qfloor m))) tb
                Hsq Ha Hb Hm Hsh Hso) as [Hsh' Hso'].
    apply IH; assumption.
Qed.

(** With finite points the loops end: the table is always produced. *)
Lemma buildLoop_returns env rest : forall tb a,
  sqrtNonneg env -> vec_finite a = true ->
  Forall (fun p => vec_finite p = true) rest ->
  exists tb', buildLoop env tb a rest = Some tb'.
Proof.
  induction rest as [|b rest IH]; intros tb a Hsq Ha Hrest; simpl.
  - eauto.
  - inversion Hrest as [|? ? Hb Hrest']; subst.
    unfold subdivide.
    destruct (distanceTo_finite env a b Hsq Ha Hb) as (r & -> & _).
    destruct (steps_finite r) as (m & -> & Hm). simpl.
    apply IH; assumption.
Qed.

Lemma initial_table_shape p0 : tableShape (mkArcTable [p0] [zero] zero).
Proof. unfold tableShape; simpl. repeat split. discriminate. Qed.

Lemma initial_table_sorted p0 :
  vec_finite p0 = true -> tableSorted (mkArcTable [p0] [zero] zero).
Proof.
  intros H. unfold tableSorted; simpl. repeat split.
  - constructor; [assumption|constructor].
  - intros i Hi Hlt. simpl in Hlt. lia.
Qed.

(** C2 (as amended). After initializePathData has run, cumLen has as many
    entries as sampledPts, starts at 0 and ends at totalLen; and it is
    non-decreasing (cumLen[i] <= cumLen[i+1] for every i) when Math.sqrt is
    non-negative on non-negative numbers and the points returned by the curve
    sampler have finite coordinates. *)
Theorem initializePathData_cumLen (env : Env) (inp : Inputs) (st st' : PathState) :
  initializePathData env inp st = Done st' ->
  length (cumLen st') = length (sampledPts st') /\
  getNum (cumLen st') 0 = zero /\
  getNum (cumLen st') (lastIndex st') = totalLen st' /\
  (sqrtNonneg env -> finiteCurvePoints env inp st ->
   forall i : Z, (0 <= i)%Z -> (i + 1 < Z.of_nat (length (cumLen st')))%Z ->
     getNum (cumLen st') i <= getNum (cumLen st') (i + 1)).
Proof.
  unfold initializePathData, finiteCurvePoints. cbv zeta.
  destruct (curve_getPoints env _ _ _) as [|p0 rest] eqn:Ep; [discriminate|].
  unfold buildArcTable.
  destruct (buildLoop env _ p0 rest) as [tb|] eqn:Eb; [|discriminate].
  intros [= <-]. unfold lastIndex. simpl.
  pose proof (tableShape_buildLoop env rest _ p0 tb (initial_table_shape p0) Eb)
    as (Hlen & Hne & H0 & Hlast).
  repeat split; try assumption.
  intros Hsq Hfin. inversion Hfin as [|? ? Hp0 Hrest]; subst.
  pose proof (tableSorted_buildLoop env rest _ p0 tb Hsq Hp0 Hrest
                (initial_table_shape p0) (initial_table_sorted p0 Hp0) Eb)
    as (_ & _ & Hs).
  exact Hs.
Qed.

(** ** sToT at the two ends *)

Lemma num_lt_le x y : x < y -> x <= y.
Proof. intros; num_cases. Qed.

Lemma lt_irrefl_le x y : x < y -> y <= x -> False.
Proof. intros; num_cases. Qed.

Lemma max_zero_pos T : zero < T -> max zero T = T.
Proof.
  unfold lt, max, zero. destruct T; simpl; try discriminate; try reflexivity.
  intros H; rewrite H; reflexivity.
Qed.

Lemma min_self_ge T s : T <= s -> min T s = T.
Proof.
  unfold le, min. destruct T as [| |a|], s as [| |b|]; simpl; try discriminate; try reflexivity.
  intros H. destruct (Qltb b a) eqn:E; [qbool; lra|reflexivity].
Qed.

Lemma min_zero_pos T : zero < T -> min T zero = zero.
Proof.
  unfold lt, min, zero. destruct T; simpl; try discriminate; try reflexivity.
  intros H; rewrite H; reflexivity.
Qed.

Lemma eqb_zero_pos T : zero < T -> (T === zero) = false.
Proof.
  unfold lt, zero. destruct T as [| |a|]; simpl; try discriminate; try reflexivity.
  intros H. destruct (Qeq_bool a 0) eqn:E; [qbool; lra|reflexivity].
Qed.

(** At 0 the search stops at index 0 as soon as the table starts at 0. *)
Lemma distanceToIndex_zero st :
  arcLengthTable st -> getNum (cumLen st) 0 = zero -> zero < totalLen st ->
  distanceToIndex st zero = 0%Z.
Proof.
  intros Ht H0 HT.
  assert (Hd : max zero (min zero (totalLen st)) = zero).
  { clear Ht H0. unfold lt, zero in *.
    destruct (totalLen st) as [| |q|]; simpl in *; try discriminate; try reflexivity.
    destruct (Qltb q 0) eqn:E; [qbool; lra|reflexivity]. }
  pose proof (distanceToIndex_clamped st zero Ht) as H. cbv zeta in H.
  rewrite Hd in H. specialize (H (num_lt_le _ _ HT)).
  destruct H as (Hr & _ & Hmin).
  destruct (Z.eq_dec (distanceToIndex st zero) 0) as [|Hne]; [assumption|exfalso].
  specialize (Hmin 0%Z ltac:(lia)). rewrite H0 in Hmin.
  unfold lt, zero in Hmin. simpl in Hmin. qbool. lra.
Qed.

(** At totalLen the search stops at the last index when the entry before the
    last one is strictly below totalLen. *)
Lemma distanceToIndex_total st :
  arcLengthTable st -> zero < totalLen st ->
  getNum (cumLen st) (lastIndex st - 1) < totalLen st ->
  distanceToIndex st (totalLen st) = lastIndex st /\ (1 <= lastIndex st)%Z.
Proof.
  intros Ht HT Hprev.
  assert (HTn : isNaN (totalLen st) = false) by exact (ltb_true_notNaN_r _ _ HT).
  assert (Hd : max zero (min (totalLen st) (totalLen st)) = totalLen st).
  { rewrite min_self_ge by (apply num_le_refl; assumption). apply max_zero_pos; assumption. }
  pose proof (distanceToIndex_clamped st (totalLen st) Ht) as H. cbv zeta in H.
  rewrite Hd in H. specialize (H (num_le_refl _ HTn)).
  destruct H as (Hr & Hge & _).
  destruct Ht as (Hne & Hs & Hlast).
  assert (Hpos : (1 <= lastIndex st)%Z).
  { destruct (Z_le_gt_dec 1 (lastIndex st)); [assumption|exfalso].
    unfold getNum in Hprev.
    destruct (lastIndex st - 1 <? 0)%Z eqn:E; [discriminate|].
    apply Z.ltb_ge in E. lia. }
  split; [|exact Hpos].
  destruct (Z.eq_dec (distanceToIndex st (totalLen st)) (lastIndex st)) as [|Hn];
    [assumption|exfalso].
  set (i := distanceToIndex st (totalLen st)) in *.
  assert (Hle : getNum (cumLen st) i <= getNum (cumLen st) (lastIndex st - 1)).
  { destruct (Z.eq_dec i (lastIndex st - 1)) as [->|Hn'].
    - apply num_le_refl. exact (ltb_true_notNaN_l _ _ Hprev).
    - apply nondecreasing_lt_le; try assumption; unfold lastIndex in *; lia. }
  apply (lt_irrefl_le _ _ (num_le_lt_trans _ _ _ Hle Hprev) Hge).
Qed.

(** C4 (as amended). On a table that starts at 0, is non-decreasing and ends
    at totalLen > 0: sToT(0) = 0; if the entry before the last one is strictly
    below totalLen, sToT(s) = 1 for every finite s >= totalLen, so
    sToT(totalLen) = 1 when totalLen is finite.  And whatever the state is,
    sToT returns 0 when totalLen is 0 or s is not finite. *)
Theorem sToT_endpoints (st : PathState) :
  (arcLengthTable st -> getNum (cumLen st) 0 = zero -> zero < totalLen st ->
     sToT st zero = zero /\
     (getNum (cumLen st) (lastIndex st - 1) < totalLen st ->
        forall s, isFinite s = true -> totalLen st <= s -> sToT st s = one)) /\
  (forall s, (totalLen st === zero) = true \/ isFinite s = false ->
     sToT st s = zero).
Proof.
  split.
  - intros Ht H0 HT. split.
    + unfold sToT. cbv zeta. rewrite (eqb_zero_pos _ HT).
      change (isFinite zero) with true. cbn [negb orb].
      unfold clamp. rewrite (min_zero_pos _ HT).
      change (max zero zero) with zero.
      rewrite (distanceToIndex_zero st Ht H0 HT). reflexivity.
    + intros Hprev s Hfin Hs.
      unfold sToT. cbv zeta. rewrite (eqb_zero_pos _ HT), Hfin.
      cbn [negb orb].
      unfold clamp. rewrite (min_self_ge _ _ Hs), (max_zero_pos _ HT).
      destruct (distanceToIndex_total st Ht HT Hprev) as [-> Hpos].
      destruct (lastIndex st =? 0)%Z eqn:E; [apply Z.eqb_eq in E; lia|].
      unfold lastIndex. rewrite Z.geb_leb, Z.leb_refl. reflexivity.
  - intros s [H|H]; unfold sToT; rewrite H; simpl; [reflexivity|].
    rewrite orb_true_r. reflexivity.
Qed.

(** ** The ride clock *)

(** For a non-negative dividend and a positive divisor the remainder lies in
    [0, divisor). *)
Lemma rem_bounds (a b : Q) :
  (0 <= a)%Q -> (0 < b)%Q ->
  exists r, rem (Fin a) (Fin b) = Fin r /\ (0 <= r)%Q /\ (r < b)%Q.
Proof.
  intros Ha Hb. unfold rem.
  destruct (Qeq_bool b 0) eqn:E; [qbool; lra|].
  eexists; split; [reflexivity|].
  assert (Hx : (0 <= a / b)%Q).
  { apply Qle_shift_div_l; [assumption|]. lra. }
  unfold Qtrunc. apply Qle_bool_iff in Hx. rewrite Hx.
  pose proof (Qfloor_le (a / b)) as Hf.
  pose proof (Qlt_floor (a / b)) as Hc.
  rewrite inject_Z_plus in Hc. change (inject_Z 1) with 1%Q in Hc.
  set (f := inject_Z (Qfloor (a / b))) in *.
  assert (Hab : (a == (a / b) * b)%Q).
  { field. intro Hz. lra. }
  set (x := (a / b)%Q) in *. clearbody x f.
  split.
  - assert (H1 : (0 <= b * (x - f))%Q) by (apply Qmult_le_0_compat; lra).
    lra.
  - assert (H1 : (0 < b * (f + 1 - x))%Q) by (apply Qmult_lt_0_compat; lra).
    lra.
Qed.

Lemma frameTime_inv dt :
  frameTime dt -> exists d, dt = Fin d /\ (0 <= d)%Q.
Proof.
  unfold frameTime, le, zero. destruct dt as [| |d|]; simpl; intros [H1 H2];
    try discriminate.
  exists d. split; [reflexivity|]. qbool. exact H1.
Qed.

Lemma advanced_nonneg inp st dt :
  speedConfig inp st ->
  isFinite (rideProgressS st) = true -> zero <= rideProgressS st ->
  frameTime dt ->
  isFinite (advanced inp st dt) = true /\ zero <= advanced inp st dt.
Proof.
  intros Hc Hsf Hs0 Hdt. unfold advanced.
  destruct (speedAtS_finite_nonneg inp st (rideProgressS st) Hc) as [Hvf Hv0].
  destruct (finite_inv _ Hvf) as (v & Ev). rewrite Ev in *.
  destruct (finite_inv _ Hsf) as (s & Es). rewrite Es in *.
  destruct (frameTime_inv dt Hdt) as (d & -> & Hd0).
  unfold le, zero in *. simpl in *. split; [reflexivity|].
  qbool. assert (0 <= v * d)%Q by (apply Qmult_le_0_compat; assumption). lra.
Qed.

Lemma rideStep_fields inp st dt :
  let s1 := advanced inp st dt in
  rideProgressS (rideStep inp st dt) =
    (if s1 >=? totalLen st
     then if isRideLooping st then rem s1 (totalLen st) else totalLen st
     else s1) /\
  isRideActive (rideStep inp st dt) =
    (if s1 >=? totalLen st
     then if isRideLooping st then isRideActive st else false
     else isRideActive st).
Proof.
  unfold rideStep, advanced. cbv zeta.
  destruct (_ >=? totalLen st); [destruct (isRideLooping st)|];
    split; reflexivity.
Qed.

(** C5 (as amended). On a path with a finite totalLen > 0, with a speed
    configuration within bounds (one speed per segment, speeds and
    percentages of magnitude at most 1e100, no infinite window fraction), a
    finite rideProgressS >= 0 and a frame time between 0 and 1e6 seconds:
    when the advanced arc length reaches totalLen, a looping ride wraps it by
    the remainder into [0, totalLen) and stays active, and a non-looping ride
    is set to exactly totalLen and becomes inactive; otherwise the advanced
    arc length is kept, lies in [0, totalLen), and the ride stays active. *)
Theorem rideStep_wrap_or_stop (inp : Inputs) (st : PathState) (dt : num) :
  speedConfig inp st ->
  isFinite (totalLen st) = true -> zero < totalLen st ->
  isFinite (rideProgressS st) = true -> zero <= rideProgressS st ->
  frameTime dt ->
  isRideActive st = true ->
  let s1 := advanced inp st dt in
  let st' := rideStep inp st dt in
  ((s1 >=? totalLen st) = true -> isRideLooping st = true ->
     rideProgressS st' = rem s1 (totalLen st) /\
     zero <= rideProgressS st' /\ rideProgressS st' < totalLen st /\
     isRideActive st' = true) /\
  ((s1 >=? totalLen st) = true -> isRideLooping st = false ->
     rideProgressS st' = totalLen st /\ isRideActive st' = false) /\
  ((s1 >=? totalLen st) = false ->
     rideProgressS st' = s1 /\
     zero <= rideProgressS st' /\ rideProgressS st' < totalLen st /\
     isRideActive st' = true).
Proof.
  intros Hc HTf HT Hsf Hs0 Hdt Hact s1 st'.
  destruct (advanced_nonneg inp st dt Hc Hsf Hs0 Hdt) as [H1f H10].
  fold s1 in H1f, H10.
  destruct (rideStep_fields inp st dt) as [ES EA].
  fold s1 in ES, EA. fold st' in ES, EA.
  destruct (finite_inv _ H1f) as (a & Ea).
  destruct (finite_inv _ HTf) as (L & EL).
  split; [|split].
  - intros Hge Hloop. rewrite ES, EA, Hge, Hloop, Hact.
    split; [reflexivity|]. rewrite Ea, EL in *.
    assert (Ha0 : (0 <= a)%Q) by (unfold le, zero in H10; simpl in H10; qbool; exact H10).
    assert (HL0 : (0 < L)%Q) by (unfold lt, zero in HT; simpl in HT; qbool; exact HT).
    destruct (rem_bounds a L Ha0 HL0) as (r & -> & Hr0 & Hr1).
    unfold le, lt, zero. simpl. repeat split; qbool; assumption.
  - intros Hge Hloop. rewrite ES, EA, Hge, Hloop. split; reflexivity.
  - intros Hlt. rewrite ES, EA, Hlt.
    split; [reflexivity|]. split; [exact H10|]. split; [|exact Hact].
    rewrite Ea, EL in *. unfold lt, geb in *. simpl in *. qbool. exact Hlt.
Qed.

(** ** The speed profile deep inside a segment *)

Lemma turnWindow_outside inp st s v i :
  (s >=? getNum (sAtPoint st) (Z.of_nat i - 1)) &&
    (s <=? getNum (sAtPoint st) (Z.of_nat i)) = false ->
  (s >=? getNum (sAtPoint st) (Z.of_nat i)) &&
    (s <=? getNum (sAtPoint st) (Z.of_nat i + 1)) = false ->
  turnWindow inp st s v i = v.
Proof.
  intros H1 H2. unfold turnWindow. cbv zeta. rewrite H1, H2. reflexivity.
Qed.

(** The approach window of the turn at the end of the segment leaves the
    speed alone below its start. *)
Lemma turnWindow_before_approach inp st s v i :
  defaultWindows inp ->
  segmentFraction st (Z.of_nat i) s < Fin (625 # 1000)%Q ->
  (s >=? getNum (sAtPoint st) (Z.of_nat i)) &&
    (s <=? getNum (sAtPoint st) (Z.of_nat i + 1)) = false ->
  turnWindow inp st s v i = v.
Proof.
  intros (E1 & E2 & E3 & E4) Hf H2.
  unfold turnWindow. cbv zeta. rewrite H2. fold (segmentFraction st (Z.of_nat i) s).
  rewrite E1, E2.
  assert (Ha : (segmentFraction st (Z.of_nat i) s >=? Fin (625 # 1000)%Q) = false).
  { unfold geb. apply lt_leb_false. exact Hf. }
  assert (Hb : (segmentFraction st (Z.of_nat i) s >? Fin 1%Q) = false).
  { revert Hf. unfold gtb, lt.
    destruct (segmentFraction st (Z.of_nat i) s) as [| |q|]; simpl;
      try discriminate; try reflexivity.
    intros H. qbool. lra. }
  rewrite Ha, Hb. simpl.
  match goal with |- (if ?c then _ else _) = _ => destruct c end; reflexivity.
Qed.

(** The exit window of the turn at the start of the segment leaves the speed
    alone beyond its end. *)
Lemma turnWindow_after_exit inp st s v i :
  defaultWindows inp ->
  Fin (5 # 10)%Q < segmentFraction st (Z.of_nat i + 1) s ->
  (s >=? getNum (sAtPoint st) (Z.of_nat i - 1)) &&
    (s <=? getNum (sAtPoint st) (Z.of_nat i)) = false ->
  turnWindow inp st s v i = v.
Proof.
  intros (E1 & E2 & E3 & E4) Hf H1.
  unfold turnWindow. cbv zeta. rewrite H1.
  assert (Ef : clamp ((s - getNum (sAtPoint st) (Z.of_nat i)) /
                 max eps6 (getNum (sAtPoint st) (Z.of_nat i + 1) -
                           getNum (sAtPoint st) (Z.of_nat i))) zero one
               = segmentFraction st (Z.of_nat i + 1) s).
  { unfold segmentFraction. replace (Z.of_nat i + 1 - 1)%Z with (Z.of_nat i) by lia.
    reflexivity. }
  rewrite Ef, E3, E4.
  assert (Ha : (segmentFraction st (Z.of_nat i + 1) s <=? Fin 0%Q) = false).
  { revert Hf. unfold lt.
    destruct (segmentFraction st (Z.of_nat i + 1) s) as [| |q|]; simpl;
      try discriminate; try reflexivity.
    intros H. qbool. lra. }
  assert (Hb : (segmentFraction st (Z.of_nat i + 1) s <=? Fin (5 # 10)%Q) = false).
  { apply lt_leb_false. exact Hf. }
  rewrite Ha, Hb, andb_false_r.
  match goal with |- (if ?c then _ else _) = _ => destruct c end; reflexivity.
Qed.

Lemma geb_false_of_lt s x : s < x -> (s >=? x) = false.
Proof. unfold geb. apply lt_leb_false. Qed.

Lemma leb_false_of_lt s x : x < s -> (s <=? x) = false.
Proof. apply lt_leb_false. Qed.

Lemma nondecreasing_le_idx c i j :
  nondecreasing c -> (0 <= i)%Z -> (i <= j)%Z -> (j < Z.of_nat (length c))%Z ->
  isNaN (getNum c j) = false ->
  getNum c i <= getNum c j.
Proof.
  intros Hs Hi Hij Hj Hn.
  destruct (Z.eq_dec i j) as [->|Hne]; [apply num_le_refl; assumption|].
  apply nondecreasing_lt_le; try assumption; lia.
Qed.

Section MidSegment.

Variables (inp : Inputs) (st : PathState) (j : nat) (s : num).
Hypothesis Hdef : defaultWindows inp.
Hypothesis Hsorted : nondecreasing (sAtPoint st).
Hypothesis Hlen : length (sAtPoint st) = length (sCurveControlPoints st).
Hypothesis Hj1 : (1 <= j)%nat.
Hypothesis Hjn : (j < length (sCurveControlPoints st))%nat.
Hypothesis Hlo : getNum (sAtPoint st) (Z.of_nat j - 1) < s.
Hypothesis Hhi : s < getNum (sAtPoint st) (Z.of_nat j).

Lemma before_segment i :
  (0 <= i)%Z -> (i <= Z.of_nat j - 1)%Z -> (s <=? getNum (sAtPoint st) i) = false.
Proof.
  intros Hi Hij. apply leb_false_of_lt.
  apply num_le_lt_trans with (getNum (sAtPoint st) (Z.of_nat j - 1)); [|exact Hlo].
  apply nondecreasing_le_idx; try assumption; try lia.
  exact (ltb_true_notNaN_l _ _ Hlo).
Qed.

Lemma after_segment i :
  (Z.of_nat j <= i)%Z -> (s >=? getNum (sAtPoint st) i) = false.
Proof.
  intros Hij.
  destruct (Z_lt_ge_dec i (Z.of_nat (length (sAtPoint st)))) as [Hin|Hout].
  - apply geb_false_of_lt.
    apply num_lt_le_trans with (getNum (sAtPoint st) (Z.of_nat j)); [exact Hhi|].
    destruct (Z.eq_dec (Z.of_nat j) i) as [<-|Hne].
    + apply num_le_refl. exact (ltb_true_notNaN_r _ _ Hhi).
    + apply nondecreasing_lt_le; try assumption; lia.
  - unfold getNum. destruct (i <? 0)%Z; [destruct s; reflexivity|].
    rewrite nth_overflow by lia. destruct s; reflexivity.
Qed.

Lemma turnWindow_mid v i :
  (1 <= i)%nat ->
  Fin (5 # 10)%Q < segmentFraction st (Z.of_nat j) s ->
  segmentFraction st (Z.of_nat j) s < Fin (625 # 1000)%Q ->
  turnWindow inp st s v i = v.
Proof.
  intros Hi Hf1 Hf2.
  destruct (Nat.eq_dec i j) as [->|Hne].
  - apply turnWindow_before_approach; try assumption.
    rewrite after_segment by lia. reflexivity.
  - destruct (Nat.eq_dec (i + 1) j) as [E|Hne'].
    + apply turnWindow_after_exit; try assumption.
      * replace (Z.of_nat i + 1)%Z with (Z.of_nat j) by lia. exact Hf1.
      * rewrite (before_segment (Z.of_nat i)) by lia. apply andb_false_r.
    + apply turnWindow_outside.
      * destruct (Nat.lt_ge_cases i j).
        -- rewrite (before_segment (Z.of_nat i)) by lia. apply andb_false_r.
        -- rewrite after_segment by lia. reflexivity.
      * destruct (Nat.lt_ge_cases i j).
        -- rewrite (before_segment (Z.of_nat i + 1)) by lia. apply andb_false_r.
        -- rewrite after_segment by lia. reflexivity.
Qed.

Lemma fold_turnWindow_mid idxs : forall v,
  Forall (fun i => (1 <= i)%nat) idxs ->
  Fin (5 # 10)%Q < segmentFraction st (Z.of_nat j) s ->
  segmentFraction st (Z.of_nat j) s < Fin (625 # 1000)%Q ->
  fold_left (turnWindow inp st s) idxs v = v.
Proof.
  induction idxs as [|i rest IH]; intros v Hall Hf1 Hf2; simpl; [reflexivity|].
  inversion Hall; subst.
  rewrite turnWindow_mid by assumption. apply IH; assumption.
Qed.

Lemma findSegmentSpeed_at len : forall a,
  (1 <= a)%nat -> (a <= j)%nat -> (j < a + len)%nat ->
  findSegmentSpeed st s (seq a len) =
  Some (nullish (getOpt (segSpeeds st) (Z.of_nat j - 1)) n10).
Proof.
  induction len as [|len IH]; intros a Ha Haj Hjl; [lia|].
  simpl. destruct (Nat.eq_dec a j) as [->|Hne].
  - rewrite (num_lt_le _ _ Hhi). reflexivity.
  - rewrite (before_segment (Z.of_nat a)) by lia. apply IH; lia.
Qed.

Lemma baseSegmentSpeedAtS_mid :
  baseSegmentSpeedAtS st s = nullish (getOpt (segSpeeds st) (Z.of_nat j - 1)) n10.
Proof.
  unfold baseSegmentSpeedAtS.
  destruct (length (sCurveControlPoints st) <? 2)%nat eqn:E.
  - apply Nat.ltb_lt in E. lia.
  - rewrite (findSegmentSpeed_at (length (sCurveControlPoints st) - 1) 1);
      [reflexivity|lia|lia|lia].
Qed.

End MidSegment.

Lemma max_zero_nonneg_eq b : zero <= b -> (max zero b === b) = true.
Proof.
  unfold le, zero. destruct b as [| |q|]; simpl; try discriminate; try reflexivity.
  intros H. qbool.
  destruct (Qltb 0 q) eqn:E; simpl; qbool; lra.
Qed.

Lemma seq_ge a len : Forall (fun i => (a <= i)%nat) (seq a len).
Proof.
  apply Forall_forall. intros i Hi. apply in_seq in Hi. lia.
Qed.

(** In the model, where the fractional position is computed exactly, the
    speed is the base speed wherever that position is strictly between the
    two windows. *)
Lemma speedAtS_mid_segment (inp : Inputs) (st : PathState)
    (j : nat) (s b : num) :
  defaultWindows inp ->
  nondecreasing (sAtPoint st) ->
  length (sAtPoint st) = length (sCurveControlPoints st) ->
  (1 <= j)%nat -> (j < length (sCurveControlPoints st))%nat ->
  getNum (sAtPoint st) (Z.of_nat j - 1) < s ->
  s < getNum (sAtPoint st) (Z.of_nat j) ->
  Fin (5 # 10)%Q < segmentFraction st (Z.of_nat j) s ->
  segmentFraction st (Z.of_nat j) s < Fin (625 # 1000)%Q ->
  getOpt (segSpeeds st) (Z.of_nat j - 1) = Some b ->
  zero <= b ->
  (speedAtS inp st s === b) = true.
Proof.
  intros Hdef Hsorted Hlen Hj1 Hjn Hlo Hhi Hf1 Hf2 Hb Hb0.
  unfold speedAtS. cbv zeta.
  rewrite (baseSegmentSpeedAtS_mid st j s); try assumption.
  rewrite Hb. cbn [nullish].
  rewrite (fold_turnWindow_mid inp st j s); try assumption.
  - apply max_zero_nonneg_eq; assumption.
  - apply seq_ge.
Qed.

(** C6 (as amended). Under the default window parameters (0.625, 1.0, 0,
    0.5), on a path whose per-point arc lengths are non-decreasing and not
    negative, for every s strictly inside the control-point segment j whose
    fractional position in that segment lies between 0.5 + 1e-9 and
    0.625 - 1e-9, speedAtS(s) equals the configured speed segSpeeds[j-1] of
    that segment, when that speed is a number >= 0 (the loader stores
    Math.max(0, ...) and the initial list holds 10). *)
Theorem speedAtS_mid_segment_is_base (inp : Inputs) (st : PathState)
    (j : nat) (s b : num) :
  defaultWindows inp ->
  nondecreasing (sAtPoint st) ->
  length (sAtPoint st) = length (sCurveControlPoints st) ->
  (1 <= j)%nat -> (j < length (sCurveControlPoints st))%nat ->
  zero <= getNum (sAtPoint st) (Z.of_nat j - 1) ->
  getNum (sAtPoint st) (Z.of_nat j - 1) < s ->
  s < getNum (sAtPoint st) (Z.of_nat j) ->
  midLow <= segmentFraction st (Z.of_nat j) s ->
  segmentFraction st (Z.of_nat j) s <= midHigh ->
  getOpt (segSpeeds st) (Z.of_nat j - 1) = Some b ->
  zero <= b ->
  (speedAtS inp st s === b) = true.
Proof.
  intros Hdef Hsorted Hlen Hj1 Hjn _ Hlo Hhi Hf1 Hf2 Hb Hb0.
  apply (speedAtS_mid_segment inp st j s b); try assumption.
  - apply num_lt_le_trans with midLow; [reflexivity|exact Hf1].
  - apply num_le_lt_trans with midHigh; [exact Hf2|reflexivity].
Qed.

(** ** Loading a path description *)

(** C9. Given input that could not be parsed, or whose points list is
    missing or has fewer than two entries, loadPathFromJSON ends in its catch
    block with the message "Path import failed: ..." and the state
    (sCurveControlPoints, segSpeeds, sampledPts, cumLen, totalLen, sAtPoint,
    turnAngle and the ride fields) is exactly the state before the call. *)
Theorem loadPathFromJSON_malformed_keeps_state
    (env : Env) (inp : Inputs) (st : PathState) (src : loaded) :
  malformed src ->
  exists message,
    loadPathFromJSON env inp st src = Raised (importFailed message) st.
Proof.
  destruct src as [m|data]; simpl.
  - intros _. exists m. reflexivity.
  - unfold pointsOf.
    destruct (getProp data "points") as [[v|]|] eqn:E.
    + destruct v; try (intros _; eexists; reflexivity).
      intros Hlt. apply Nat.ltb_lt in Hlt. rewrite Hlt.
      eexists; reflexivity.
    + intros _. eexists; reflexivity.
    + intros _. eexists; reflexivity.
Qed.

Lemma mapPoints_length env items : forall pts,
  mapPoints env items = Some pts -> length pts = length items.
Proof.
  induction items as [|p rest IH]; intros pts; simpl.
  - intros [= <-]. reflexivity.
  - destruct (getProp p "x"); [|discriminate].
    destruct (getProp p "z"); [|discriminate].
    destruct (mapPoints env rest) as [pts'|]; [|discriminate].
    intros [= <-]. simpl. rewrite (IH pts' eq_refl). reflexivity.
Qed.

Lemma initializePathData_keeps_path env inp st st' :
  initializePathData env inp st = Done st' ->
  sCurveControlPoints st' = sCurveControlPoints st /\ segSpeeds st' = segSpeeds st.
Proof.
  unfold initializePathData. cbv zeta.
  destruct (curve_getPoints env _ _ _) as [|p0 rest]; [discriminate|].
  destruct (buildArcTable env p0 rest); [|discriminate].
  intros [= <-]. split; reflexivity.
Qed.

Lemma rebuildCurveAndRoad_keeps_path env inp st st' :
  rebuildCurveAndRoad env inp st = Done st' ->
  sCurveControlPoints st' = sCurveControlPoints st /\ segSpeeds st' = segSpeeds st.
Proof.
  unfold rebuildCurveAndRoad.
  destruct (_ <? 2)%nat; [intros [= <-]; split; reflexivity|].
  destruct (initializePathData env inp st) as [st1|m st1|] eqn:E; try discriminate.
  destruct (initializePathData_keeps_path env inp st st1 E) as [E1 E2].
  cbv zeta. destruct (roadLoopOk _); [|discriminate].
  intros [= <-]. simpl. split; assumption.
Qed.

Lemma resetCameraToPathStart_keeps_path env inp st st' :
  resetCameraToPathStart env inp st = Done st' ->
  sCurveControlPoints st' = sCurveControlPoints st /\ segSpeeds st' = segSpeeds st.
Proof.
  unfold resetCameraToPathStart. cbv zeta.
  destruct (placeCameraAtPathT inp _); [|discriminate].
  destruct (curve_getPointAt env _ _ _); [|discriminate].
  intros [= <-]. split; reflexivity.
Qed.

(** What a successful load leaves in segSpeeds. *)
Lemma loadPathFromJSON_segSpeeds env inp st data points st' :
  pointsOf data = Some points ->
  loadPathFromJSON env inp st (Parsed data) = Done st' ->
  segSpeeds st' =
    map (sanitizeSpeed env) (fitSpeeds (suppliedSpeeds data) (length points - 1)).
Proof.
  unfold pointsOf, loadPathFromJSON, suppliedSpeeds, fail.
  destruct (getProp data "points") as [[v|]|]; try discriminate.
  destruct v; try discriminate. intros [= ->].
  destruct (length points <? 2)%nat; [discriminate|]. cbv zeta.
  destruct (mapPoints env points) as [newPts|] eqn:Em; [|discriminate].
  cbn [setPath sCurveControlPoints segSpeeds].
  rewrite (mapPoints_length env points newPts Em).
  destruct (rebuildCurveAndRoad env inp _) as [st1|m st1|] eqn:Er; try discriminate.
  destruct (resetCameraToPathStart env inp st1) as [st2|m st2|] eqn:Ec; try discriminate.
  intros [= <-].
  destruct (resetCameraToPathStart_keeps_path env inp st1 st2 Ec) as [_ ->].
  destruct (rebuildCurveAndRoad_keeps_path env inp _ st1 Er) as [_ ->].
  reflexivity.
Qed.

Lemma fitSpeeds_length speeds need : length (fitSpeeds speeds need) = need.
Proof.
  unfold fitSpeeds.
  destruct (length speeds <? need)%nat eqn:E1.
  - apply Nat.ltb_lt in E1. rewrite length_app, repeat_length. lia.
  - apply Nat.ltb_ge in E1.
    destruct (need <? length speeds)%nat eqn:E2.
    + apply Nat.ltb_lt in E2. rewrite length_firstn. lia.
    + apply Nat.ltb_ge in E2. lia.
Qed.

Lemma fitSpeeds_nth speeds need i :
  (i < need)%nat ->
  nth_error (fitSpeeds speeds need) i =
    Some (match nth_error speeds i with
          | Some v => v
          | None => JNumber defaultSpeed
          end).
Proof.
  intros Hi. unfold fitSpeeds.
  destruct (length speeds <? need)%nat eqn:E1.
  - apply Nat.ltb_lt in E1.
    destruct (Nat.lt_ge_cases i (length speeds)) as [Hin|Hout].
    + rewrite nth_error_app1 by assumption.
      destruct (nth_error speeds i) eqn:E; [reflexivity|].
      apply nth_error_None in E. lia.
    + rewrite nth_error_app2 by assumption.
      rewrite (proj2 (nth_error_None speeds i)) by assumption.
      rewrite nth_error_repeat by lia. reflexivity.
  - apply Nat.ltb_ge in E1.
    assert (Hin : (i < length speeds)%nat) by lia.
    destruct (nth_error speeds i) eqn:E;
      [|apply nth_error_None in E; lia].
    destruct (need <? length speeds)%nat.
    + rewrite nth_error_firstn.
      destruct (i <? need)%nat eqn:E3; [exact E|].
      apply Nat.ltb_ge in E3. lia.
    + exact E.
Qed.

Lemma sanitizeSpeed_default env : sanitizeSpeed env (JNumber defaultSpeed) = n10.
Proof. reflexivity. Qed.

(** Math.max(0, x || 10), by the sign of x = parseFloat(v). *)
Lemma sanitizeSpeed_cases env v :
  let x := parseFloat env v in
  (zero < x -> sanitizeSpeed env v = x) /\
  (x < zero -> sanitizeSpeed env v = zero) /\
  ((x === zero) = true \/ x = NaN -> sanitizeSpeed env v = n10).
Proof.
  cbv zeta. unfold sanitizeSpeed, or_else, truthy, defaultSpeed, lt.
  destruct (parseFloat env v) as [| |q|].
  - split; [discriminate|]. split; [discriminate|]. intros _. reflexivity.
  - split; [discriminate|]. split; [reflexivity|]. intros [H|H]; discriminate.
  - split; [|split].
    + simpl. intros H. qbool.
      destruct (Qeq_bool q 0) eqn:E; [qbool; lra|]. simpl.
      apply Qltb_iff in H. rewrite H. reflexivity.
    + simpl. intros H. qbool.
      destruct (Qeq_bool q 0) eqn:E; [qbool; lra|]. simpl.
      destruct (Qltb 0 q) eqn:E0; [qbool; lra|reflexivity].
    + intros [H|H]; [|discriminate]. simpl in H. rewrite H. reflexivity.
  - split; [reflexivity|]. split; [discriminate|]. intros [H|H]; discriminate.
Qed.

(** C8 (as amended). After a successful loadPathFromJSON on a description
    with the points array [points], segSpeeds has exactly points.length - 1
    entries: the supplied list cut to that length when it is longer, padded
    with the default speed 10 when it is shorter.  A supplied entry v that is
    kept is stored as Math.max(0, parseFloat(v) || 10): as parseFloat(v) when
    that is positive (a positive JSON number is left unchanged), as 0 when it
    is negative, and as the default 10 when it is 0 or NaN (an entry that
    does not parse to a number; null, for instance). *)
Theorem loadPathFromJSON_speeds_padded
    (env : Env) (inp : Inputs) (st st' : PathState) (data : json) (points : list json) :
  pointsOf data = Some points ->
  loadPathFromJSON env inp st (Parsed data) = Done st' ->
  let need := (length points - 1)%nat in
  length (segSpeeds st') = need /\
  (forall i, (i < need)%nat -> (length (suppliedSpeeds data) <= i)%nat ->
     nth_error (segSpeeds st') i = Some n10) /\
  (forall i v, (i < need)%nat -> nth_error (suppliedSpeeds data) i = Some v ->
     nth_error (segSpeeds st') i = Some (sanitizeSpeed env v) /\
     (zero < parseFloat env v ->
        nth_error (segSpeeds st') i = Some (parseFloat env v)) /\
     (parseFloat env v < zero -> nth_error (segSpeeds st') i = Some zero) /\
     ((parseFloat env v === zero) = true \/ parseFloat env v = NaN ->
        nth_error (segSpeeds st') i = Some n10)) /\
  (forall i q, (i < need)%nat ->
     nth_error (suppliedSpeeds data) i = Some (JNumber (Fin q)) ->
     ((0 < q)%Q -> nth_error (segSpeeds st') i = Some (Fin q)) /\
     ((q < 0)%Q -> nth_error (segSpeeds st') i = Some zero) /\
     ((q == 0)%Q -> nth_error (segSpeeds st') i = Some n10)) /\
  (forall i, (i < need)%nat -> nth_error (suppliedSpeeds data) i = Some JNull ->
     nth_error (segSpeeds st') i = Some n10).
Proof.
  intros Hp Hload need.
  rewrite (loadPathFromJSON_segSpeeds env inp st data points st' Hp Hload).
  fold need.
  assert (Hnth : forall i, (i < need)%nat ->
     nth_error (map (sanitizeSpeed env) (fitSpeeds (suppliedSpeeds data) need)) i =
       Some (match nth_error (suppliedSpeeds data) i with
             | Some v => sanitizeSpeed env v
             | None => n10
             end)).
  { intros i Hi. rewrite nth_error_map, (fitSpeeds_nth _ _ _ Hi). simpl.
    destruct (nth_error (suppliedSpeeds data) i); reflexivity. }
  assert (Hkept : forall i v, (i < need)%nat ->
     nth_error (suppliedSpeeds data) i = Some v ->
     nth_error (map (sanitizeSpeed env) (fitSpeeds (suppliedSpeeds data) need)) i =
       Some (sanitizeSpeed env v)).
  { intros i v Hi Hv. rewrite (Hnth i Hi), Hv. reflexivity. }
  split; [|split; [|split; [|split]]].
  - rewrite length_map. apply fitSpeeds_length.
  - intros i Hi Hshort. rewrite (Hnth i Hi).
    apply nth_error_None in Hshort. rewrite Hshort. reflexivity.
  - intros i v Hi Hv. rewrite (Hkept i v Hi Hv).
    destruct (sanitizeSpeed_cases env v) as (Hpos & Hneg & Hnan).
    split; [reflexivity|]. split; [|split].
    + intros H. rewrite (Hpos H). reflexivity.
    + intros H. rewrite (Hneg H). reflexivity.
    + intros H. rewrite (Hnan H). reflexivity.
  - intros i q Hi Hv. rewrite (Hkept i _ Hi Hv).
    destruct (sanitizeSpeed_cases env (JNumber (Fin q))) as (Hpos & Hneg & Hnan).
    cbn [parseFloat] in Hpos, Hneg, Hnan.
    split; [|split].
    + intros H. rewrite Hpos; [reflexivity|]. unfold lt, zero. simpl. qbool. exact H.
    + intros H. rewrite Hneg; [reflexivity|]. unfold lt, zero. simpl. qbool. exact H.
    + intros H. rewrite Hnan; [reflexivity|]. left. unfold zero. simpl. qbool. exact H.
  - intros i Hi Hv. rewrite (Hkept i _ Hi Hv). reflexivity.
Qed.

(** ** Sample lookups stay in bounds *)

Lemma distanceToIndex_in_range st s :
  cumLen st <> [] -> (0 <= distanceToIndex st s <= lastIndex st)%Z.
Proof.
  intros Hne. pose proof (cumLen_length_pos st Hne) as Hpos.
  unfold distanceToIndex, lastIndex in *. cbv zeta.
  apply bsearch_range. lia.
Qed.

Lemma getOpt_in_range {A} (l : list A) i :
  (0 <= i < Z.of_nat (length l))%Z -> exists x, getOpt l i = Some x.
Proof.
  intros Hi. unfold getOpt.
  destruct (i <? 0)%Z eqn:E; [apply Z.ltb_lt in E; lia|].
  destruct (nth_error l (Z.to_nat i)) eqn:En; [eauto|].
  apply nth_error_None in En. lia.
Qed.

Lemma frameAt_in_range (pts : list vec3) idx :
  (2 <= length pts)%nat -> (0 <= idx <= Z.of_nat (length pts) - 1)%Z ->
  exists f, frameAt pts idx = Some f.
Proof.
  intros Hn Hi. unfold frameAt.
  destruct (getOpt_in_range pts idx ltac:(lia)) as (p & ->).
  destruct (idx <? Z.of_nat (length pts) - 1)%Z eqn:E.
  - apply Z.ltb_lt in E.
    destruct (getOpt_in_range pts (idx + 1) ltac:(lia)) as (q & ->). eauto.
  - apply Z.ltb_ge in E.
    destruct (getOpt_in_range pts (idx - 1) ltac:(lia)) as (q & ->). eauto.
Qed.

Lemma tablesBuilt_nonempty st : tablesBuilt st -> cumLen st <> [].
Proof.
  intros [Hlen Hn] E. rewrite E in Hlen. simpl in Hlen. lia.
Qed.

Lemma frameAt_distanceToIndex st s :
  tablesBuilt st -> exists f, frameAt (sampledPts st) (distanceToIndex st s) = Some f.
Proof.
  intros Hb. pose proof (tablesBuilt_nonempty st Hb) as Hne.
  destruct Hb as [Hlen Hn].
  pose proof (distanceToIndex_in_range st s Hne) as Hr.
  unfold lastIndex in Hr. rewrite Hlen in Hr.
  apply frameAt_in_range; assumption.
Qed.

Lemma placeCameraAtPathT_ok inp st :
  tablesBuilt st -> exists f, placeCameraAtPathT inp st = Some f.
Proof.
  intros Hb. unfold placeCameraAtPathT. cbv zeta.
  destruct (frameAt_distanceToIndex st (rideProgressS st) Hb) as (f1 & ->).
  destruct (frameAt_distanceToIndex st
              (rem (rideProgressS st + or_else (leadDistanceValue inp) (Fin 2%Q))
                   (totalLen st)) Hb) as (f2 & ->).
  eauto.
Qed.

Lemma tablesBuilt_setRide st s t a : tablesBuilt st -> tablesBuilt (setRide st s t a).
Proof. intros H. exact H. Qed.

Lemma tablesBuilt_rideStep inp st dt : tablesBuilt st -> tablesBuilt (rideStep inp st dt).
Proof.
  intros H. unfold rideStep. cbv zeta.
  destruct (_ >=? totalLen st); [destruct (isRideLooping st)|]; exact H.
Qed.

Lemma renderLoop_ok env inp st dt :
  tablesBuilt st -> exists st', renderLoop env inp st dt = Done st'.
Proof.
  intros Hb. unfold renderLoop.
  destruct (isRideActive st); [|eauto]. cbv zeta.
  assert (Hb' : tablesBuilt (rideStep inp st dt))
    by (apply tablesBuilt_rideStep; exact Hb).
  destruct (placeCameraAtPathT_ok inp _ Hb') as (f & ->).
  destruct (frameAt_distanceToIndex _ (rideProgressS (rideStep inp st dt)) Hb')
    as (g & ->).
  eauto.
Qed.

Lemma liftSamples_length h pts : forall cum,
  length (liftSamples h pts cum) = length pts.
Proof.
  induction pts as [|p pts IH]; intros cum; [reflexivity|].
  destruct cum; simpl; rewrite IH; reflexivity.
Qed.

Lemma initializePathData_lengths env inp st st' :
  initializePathData env inp st = Done st' ->
  length (cumLen st') = length (sampledPts st') /\ cumLen st' <> [].
Proof.
  unfold initializePathData. cbv zeta.
  destruct (curve_getPoints env _ _ _) as [|p0 rest]; [discriminate|].
  unfold buildArcTable.
  destruct (buildLoop env _ p0 rest) as [tb|] eqn:Eb; [|discriminate].
  intros [= <-]. simpl.
  pose proof (tableShape_buildLoop env rest _ p0 tb (initial_table_shape p0) Eb)
    as (Hlen & Hne & _).
  split; assumption.
Qed.

Lemma roadLoopOk_two (pts : list vec3) :
  pts <> [] -> roadLoopOk pts = true -> (2 <= length pts)%nat.
Proof.
  intros Hne Hok.
  destruct pts as [|p [|q rest]]; [congruence| |simpl; lia].
  discriminate Hok.
Qed.

Lemma rebuildCurveAndRoad_built env inp st st' :
  (2 <= length (sCurveControlPoints st))%nat ->
  rebuildCurveAndRoad env inp st = Done st' -> tablesBuilt st'.
Proof.
  intros Hn. unfold rebuildCurveAndRoad.
  destruct (_ <? 2)%nat eqn:E; [apply Nat.ltb_lt in E; lia|].
  destruct (initializePathData env inp st) as [st1|m st1|] eqn:Ei; try discriminate.
  destruct (initializePathData_lengths env inp st st1 Ei) as [Hlen Hne].
  cbv zeta. destruct (roadLoopOk _) eqn:Eok; [|discriminate].
  intros [= <-]. unfold tablesBuilt. simpl in *.
  rewrite liftSamples_length in *. split; [exact Hlen|].
  apply roadLoopOk_two in Eok.
  - rewrite liftSamples_length in Eok. exact Eok.
  - intros E0. apply (f_equal (@length vec3)) in E0.
    rewrite liftSamples_length in E0. simpl in E0.
    destruct (cumLen st1); [congruence|]. simpl in Hlen. lia.
Qed.

(** C10. Whatever the number s is (NaN, negative, beyond totalLen),
    distanceToIndex(s) is an index between 0 and cumLen.length - 1 when the
    table is not empty.  After a successful rebuildCurveAndRoad on at least
    two control points there are at least two samples, one cumulative length
    per sample, and the samples read at the index, its successor or its
    predecessor by placeCameraAtPathT and by the ride loop exist, wherever
    the ride stands. *)
Theorem sample_lookups_in_bounds (env : Env) (inp : Inputs) (st st' : PathState) :
  (forall s, cumLen st <> [] -> (0 <= distanceToIndex st s <= lastIndex st)%Z) /\
  ((2 <= length (sCurveControlPoints st))%nat ->
   rebuildCurveAndRoad env inp st = Done st' ->
   (2 <= length (sampledPts st'))%nat /\
   length (cumLen st') = length (sampledPts st') /\
   (forall s, (0 <= distanceToIndex st' s <= lastIndex st')%Z /\
      exists f, frameAt (sampledPts st') (distanceToIndex st' s) = Some f) /\
   (forall s t a, exists f, placeCameraAtPathT inp (setRide st' s t a) = Some f) /\
   (forall s t a dt, exists st'',
      renderLoop env inp (setRide st' s t a) dt = Done st'')).
Proof.
  split; [intros s Hne; apply distanceToIndex_in_range; assumption|].
  intros Hn Hr.
  pose proof (rebuildCurveAndRoad_built env inp st st' Hn Hr) as Hb.
  pose proof (tablesBuilt_nonempty st' Hb) as Hne.
  pose proof Hb as [Hlen H2].
  repeat split; try assumption.
  - apply distanceToIndex_in_range; assumption.
  - apply distanceToIndex_in_range; assumption.
  - apply frameAt_distanceToIndex; assumption.
  - intros s t a. apply placeCameraAtPathT_ok. apply tablesBuilt_setRide; assumption.
  - intros s t a dt. apply renderLoop_ok. apply tablesBuilt_setRide; assumption.
Qed.

(** ** The reference environment and the concrete paths *)

Lemma nondecreasingb_sound c : nondecreasingb c = true -> nondecreasing c.
Proof.
  induction c as [|x rest IH]; intros H i Hi Hlt; simpl in Hlt; [lia|].
  destruct rest as [|y rest']; [simpl in Hlt; lia|].
  simpl in H. apply andb_true_iff in H. destruct H as [Hxy Hrest].
  destruct (Z.eq_dec i 0) as [->|Hne].
  - exact Hxy.
  - specialize (IH Hrest (i - 1)%Z ltac:(lia)).
    assert (Hlt' : (i - 1 + 1 < Z.of_nat (length (y :: rest')))%Z).
    { simpl length in *. lia. }
    specialize (IH Hlt').
    unfold getNum in *.
    destruct (i <? 0)%Z eqn:E1; [apply Z.ltb_lt in E1; lia|].
    destruct (i + 1 <? 0)%Z eqn:E2; [apply Z.ltb_lt in E2; lia|].
    destruct (i - 1 <? 0)%Z eqn:E3; [apply Z.ltb_lt in E3; lia|].
    destruct (i - 1 + 1 <? 0)%Z eqn:E4; [apply Z.ltb_lt in E4; lia|].
    replace (Z.to_nat i) with (S (Z.to_nat (i - 1))) by lia.
    replace (Z.to_nat (i + 1)) with (S (Z.to_nat (i - 1 + 1))) by lia.
    exact IH.
Qed.

Lemma sqrtNonneg_refEnv : sqrtNonneg refEnv.
Proof.
  intros q Hq. change (Math_sqrt refEnv) with approxSqrt. unfold approxSqrt.
  destruct (Qltb q 0) eqn:E; [qbool; lra|].
  eexists; split; [reflexivity|].
  set (x := (Z.sqrt (Qfloor (q * inject_Z (10 ^ 24))) # 10 ^ 12)%Q).
  assert (Hx : (0 <= x)%Q).
  { unfold x, Qle. cbn [Qnum Qden].
    pose proof (Z.sqrt_nonneg (Qfloor (q * inject_Z (10 ^ 24)))). lia. }
  pose proof (Qred_correct x) as Er.
  clearbody x. set (y := Qred x) in *. clearbody y. lra.
Qed.

Lemma bounded_intro (q : Q) :
  Qle_bool (- magnitudeBound) q = true -> Qle_bool q magnitudeBound = true ->
  bounded (Fin q).
Proof. intros H1 H2. split; [exact H1|exact H2]. Qed.

Ltac bounded_numbers :=
  repeat first
    [ apply Forall_nil
    | apply Forall_cons
    | apply bounded_intro; vm_compute; reflexivity
    | split ].

Lemma percentagesBounded_refInputs : percentagesBounded refInputs.
Proof. unfold percentagesBounded, refInputs; cbn. bounded_numbers. Qed.

Lemma windowsNotInfinite_refInputs : windowsNotInfinite refInputs.
Proof. repeat split. Qed.

Lemma speedConfig_refInputs st :
  speedPerSegment st -> speedsBounded st -> speedConfig refInputs st.
Proof.
  intros H1 H2. split; [exact H1|]. split; [exact H2|].
  split; [exact percentagesBounded_refInputs|exact windowsNotInfinite_refInputs].
Qed.

Lemma frameTime_intro (q : Q) :
  Qle_bool 0 q = true -> Qle_bool q (inject_Z (10 ^ 6)) = true -> frameTime (Fin q).
Proof. intros H1 H2. split; [exact H1|exact H2]. Qed.

Lemma arcLengthTable_shortBuilt : arcLengthTable shortBuilt.
Proof.
  unfold arcLengthTable. split; [discriminate|]. split; [|reflexivity].
  apply nondecreasingb_sound. vm_compute. reflexivity.
Qed.

Lemma arcLengthTable_stalledBuilt : arcLengthTable stalledBuilt.
Proof.
  unfold arcLengthTable. split; [discriminate|]. split; [|reflexivity].
  apply nondecreasingb_sound. vm_compute. reflexivity.
Qed.

(** *** C1 *)

(** C1, counterexample.  On the straight three-point path, with the "0-20
    degrees" percentage field cleared (NaN), the speed at the middle control
    point, an arc length inside [0, totalLen], is NaN, and [NaN >= 0] is
    false. *)
Lemma speedAtS_nan_percentage :
  loadPathFromJSON refEnv refInputs initialState (Parsed straightPath) = Done straightBuilt /\
  (2 <= length (sCurveControlPoints straightBuilt))%nat /\
  zero <= getNum (sAtPoint straightBuilt) 1 /\
  getNum (sAtPoint straightBuilt) 1 <= totalLen straightBuilt /\
  speedAtS clearedPercentInputs straightBuilt (getNum (sAtPoint straightBuilt) 1) = NaN /\
  (speedAtS clearedPercentInputs straightBuilt (getNum (sAtPoint straightBuilt) 1) >=? zero) = false.
Proof.
  repeat split; try (vm_compute; reflexivity). simpl; lia.
Qed.

Lemma speedAtS_nonneg_witness :
  speedPerSegment cornerBuilt /\ speedsBounded cornerBuilt /\
  percentagesBounded clearedWindowInputs /\ windowsNotInfinite clearedWindowInputs /\
  isFinite (speedAtS clearedWindowInputs cornerBuilt (getNum (sAtPoint cornerBuilt) 1)) = true /\
  zero <= speedAtS clearedWindowInputs cornerBuilt (getNum (sAtPoint cornerBuilt) 1).
Proof.
  assert (H1 : speedPerSegment cornerBuilt) by (unfold speedPerSegment; simpl; lia).
  assert (H2 : speedsBounded cornerBuilt)
    by (unfold speedsBounded; simpl; bounded_numbers).
  assert (H3 : percentagesBounded clearedWindowInputs)
    by (unfold percentagesBounded, clearedWindowInputs; cbn; bounded_numbers).
  assert (H4 : windowsNotInfinite clearedWindowInputs) by (repeat split).
  split; [exact H1|]. split; [exact H2|]. split; [exact H3|]. split; [exact H4|].
  exact (proj2 (speedAtS_nonneg_bounded_config clearedWindowInputs cornerBuilt
                  (getNum (sAtPoint cornerBuilt) 1)) H1 H2 H3 H4).
Defined.

(** *** C2 *)

Lemma initializePathData_returns env inp st :
  sqrtNonneg env -> finiteCurvePoints env inp st ->
  curve_getPoints env (sCurveControlPoints st) (tension st)
    (max (Fin 2%Q) (lenNum (sCurveControlPoints st) * resScale inp)) <> [] ->
  exists st', initializePathData env inp st = Done st'.
Proof.
  intros Hsq Hfin Hne. unfold initializePathData, finiteCurvePoints in *.
  cbv zeta.
  destruct (curve_getPoints env _ _ _) as [|p0 rest]; [congruence|].
  inversion Hfin as [|? ? Hp0 Hrest]; subst.
  unfold buildArcTable.
  destruct (buildLoop_returns env rest (mkArcTable [p0] [zero] zero) p0 Hsq Hp0 Hrest)
    as (tb & ->).
  eauto.
Qed.

(** C2, counterexample.  A points array whose first entry has no x loads
    as four control points, the first with x = NaN (+undefined).  On them
    initializePathData returns with cumLen = [0, NaN]: the first sample is
    the NaN curve point, the distance to it is NaN, and [0 <= NaN] is false,
    so the table is not non-decreasing.  The import itself then ends in the
    alert, with that table left in the state. *)
Lemma initializePathData_nan_table :
  mapPoints refEnv missingXPoints = Some (sCurveControlPoints missingXLoaded) /\
  (2 <= length (sCurveControlPoints missingXLoaded))%nat /\
  initializePathData refEnv refInputs missingXLoaded = Done missingXInitialized /\
  cumLen missingXInitialized = [zero; NaN] /\
  (getNum (cumLen missingXInitialized) 0 <=? getNum (cumLen missingXInitialized) 1) = false /\
  exists message st',
    loadPathFromJSON refEnv refInputs initialState
      (Parsed (JObject [("points"%string, JArray missingXPoints)])) = Raised message st' /\
    cumLen st' = [zero; NaN].
Proof.
  split; [reflexivity|]. split; [simpl; lia|].
  split; [vm_compute; reflexivity|]. split; [reflexivity|]. split; [reflexivity|].
  eexists. eexists. split; [vm_compute; reflexivity|reflexivity].
Qed.

Lemma initializePathData_cumLen_witness :
  initializePathData refEnv refInputs shortBuilt = Done shortInitialized /\
  sqrtNonneg refEnv /\
  finiteCurvePoints refEnv refInputs shortBuilt /\
  length (cumLen shortInitialized) = length (sampledPts shortInitialized) /\
  getNum (cumLen shortInitialized) 0 = zero /\
  getNum (cumLen shortInitialized) (lastIndex shortInitialized) = totalLen shortInitialized /\
  nondecreasing (cumLen shortInitialized).
Proof.
  assert (H1 : initializePathData refEnv refInputs shortBuilt = Done shortInitialized)
    by (vm_compute; reflexivity).
  assert (H2 : finiteCurvePoints refEnv refInputs shortBuilt)
    by (unfold finiteCurvePoints; vm_compute; repeat constructor).
  destruct (initializePathData_cumLen refEnv refInputs shortBuilt shortInitialized H1)
    as (Ha & Hb & Hc & Hd).
  repeat split; try assumption.
  - exact sqrtNonneg_refEnv.
  - exact (Hd sqrtNonneg_refEnv H2).
Defined.

(** *** C3 *)

Lemma distanceToIndex_witness :
  arcLengthTable shortBuilt /\
  (forall s, zero <= s -> s <= totalLen shortBuilt ->
     let i := distanceToIndex shortBuilt s in
     (0 <= i <= lastIndex shortBuilt)%Z /\
     (getNum (cumLen shortBuilt) i >=? s) = true /\
     (forall j, (0 <= j < i)%Z -> (getNum (cumLen shortBuilt) j >=? s) = false)) /\
  distanceToIndex shortBuilt (Fin (3 # 100)%Q) = 3%Z.
Proof.
  split; [exact arcLengthTable_shortBuilt|]. split.
  - exact (proj1 (distanceToIndex_smallest_and_monotone shortBuilt
                    arcLengthTable_shortBuilt)).
  - vm_compute. reflexivity.
Defined.

(** *** C4 *)

(** C4, counterexample.  The path whose last three control points coincide
    loads; its table starts at 0, is non-decreasing, ends at totalLen > 0 and
    has six samples, and sToT(totalLen) is 4/5, not 1. *)
Lemma sToT_total_not_one :
  loadPathFromJSON refEnv refInputs initialState (Parsed stalledPath) = Done stalledBuilt /\
  arcLengthTable stalledBuilt /\
  getNum (cumLen stalledBuilt) 0 = zero /\
  zero < totalLen stalledBuilt /\
  (2 <= length (sampledPts stalledBuilt))%nat /\
  (sToT stalledBuilt (totalLen stalledBuilt) === Fin (4 # 5)%Q) = true /\
  (sToT stalledBuilt (totalLen stalledBuilt) === one) = false.
Proof.
  split; [vm_compute; reflexivity|].
  split; [exact arcLengthTable_stalledBuilt|].
  repeat split; try (vm_compute; reflexivity). simpl; lia.
Qed.

Lemma sToT_endpoints_witness :
  arcLengthTable shortBuilt /\
  getNum (cumLen shortBuilt) 0 = zero /\
  zero < totalLen shortBuilt /\
  getNum (cumLen shortBuilt) (lastIndex shortBuilt - 1) < totalLen shortBuilt /\
  sToT shortBuilt zero = zero /\
  sToT shortBuilt (totalLen shortBuilt) = one.
Proof.
  assert (H0 : getNum (cumLen shortBuilt) 0 = zero) by reflexivity.
  assert (HT : zero < totalLen shortBuilt) by (vm_compute; reflexivity).
  assert (Hp : getNum (cumLen shortBuilt) (lastIndex shortBuilt - 1) < totalLen shortBuilt)
    by (vm_compute; reflexivity).
  destruct (proj1 (sToT_endpoints shortBuilt) arcLengthTable_shortBuilt H0 HT)
    as [Ha Hb].
  split; [exact arcLengthTable_shortBuilt|].
  split; [exact H0|]. split; [exact HT|]. split; [exact Hp|].
  split; [exact Ha|].
  apply (Hb Hp); [reflexivity|vm_compute; reflexivity].
Defined.

(** *** C5 *)

(** C5, counterexample.  The path of two coincident points loads with
    totalLen = 0.  On a looping ride the first frame advances to 0.16, which
    reaches totalLen, and the remainder by 0 leaves NaN in rideProgressS: it
    is not in [0, totalLen). *)
Lemma rideStep_zero_length_nan :
  loadPathFromJSON refEnv refInputs initialState (Parsed pointPath) = Done pointBuilt /\
  totalLen pointBuilt = zero /\
  let st := startRide pointBuilt true in
  let dt := Fin (16 # 1000)%Q in
  (advanced refInputs st dt >=? totalLen st) = true /\
  rideProgressS (rideStep refInputs st dt) = NaN /\
  (zero <=? rideProgressS (rideStep refInputs st dt)) = false.
Proof.
  repeat split; vm_compute; reflexivity.
Qed.

Lemma rideStep_wrap_or_stop_witness :
  let st := startRide shortBuilt true in
  let dt := Fin (16 # 1000)%Q in
  (advanced refInputs st dt >=? totalLen st) = true /\
  rideProgressS (rideStep refInputs st dt) = rem (advanced refInputs st dt) (totalLen st) /\
  zero <= rideProgressS (rideStep refInputs st dt) /\
  rideProgressS (rideStep refInputs st dt) < totalLen st /\
  isRideActive (rideStep refInputs st dt) = true.
Proof.
  intros st dt.
  assert (Hge : (advanced refInputs st dt >=? totalLen st) = true)
    by (vm_compute; reflexivity).
  assert (Hc : speedConfig refInputs st).
  { apply speedConfig_refInputs.
    - unfold speedPerSegment. simpl. lia.
    - unfold speedsBounded. simpl. bounded_numbers. }
  split; [exact Hge|].
  refine (proj1 (rideStep_wrap_or_stop refInputs st dt Hc _ _ _ _ _ _) Hge eq_refl).
  - reflexivity.
  - vm_compute; reflexivity.
  - reflexivity.
  - vm_compute; reflexivity.
  - apply frameTime_intro; vm_compute; reflexivity.
  - reflexivity.
Defined.

(** *** C6 *)

(** C6, counterexample.  On the path (0,0), (0.03,0), (0,0), (0.03,0.03)
    the third control point is the first one again and is anchored at arc
    length 0, so the per-point arc lengths are not non-decreasing.  At
    s = 0.0165, strictly inside the first segment at about 0.60 of it
    (between 0.5 and 0.625), the exit window of the turn at the third point
    applies and the speed is about 4.26, not the segment's speed 10. *)
Lemma speedAtS_mid_segment_doubled_back :
  loadPathFromJSON refEnv refInputs initialState (Parsed doubledBackPath)
    = Done doubledBackBuilt /\
  defaultWindows refInputs /\
  let s := Fin (165 # 10000)%Q in
  getNum (sAtPoint doubledBackBuilt) 0 < s /\
  s < getNum (sAtPoint doubledBackBuilt) 1 /\
  Fin (5 # 10)%Q < segmentFraction doubledBackBuilt 1 s /\
  segmentFraction doubledBackBuilt 1 s < Fin (625 # 1000)%Q /\
  getOpt (segSpeeds doubledBackBuilt) 0 = Some n10 /\
  getNum (sAtPoint doubledBackBuilt) 2 = zero /\
  (speedAtS refInputs doubledBackBuilt s === n10) = false /\
  speedAtS refInputs doubledBackBuilt s < Fin 5%Q.
Proof.
  split; [vm_compute; reflexivity|]. split; [repeat split|].
  cbv zeta. repeat split; vm_compute; reflexivity.
Qed.

Lemma speedAtS_mid_segment_witness :
  Fin (75 # 10)%Q <= speedAtS refInputs cornerBuilt (getNum (sAtPoint cornerBuilt) 1)
    <= Fin (75 # 10)%Q /\
  (speedAtS refInputs cornerBuilt (Fin (4325 # 100000)%Q) === n10) = true.
Proof.
  split; [split; vm_compute; reflexivity|].
  apply (speedAtS_mid_segment_is_base refInputs cornerBuilt 2 (Fin (4325 # 100000)%Q) n10).
  - unfold defaultWindows. repeat split.
  - apply nondecreasingb_sound. vm_compute. reflexivity.
  - reflexivity.
  - lia.
  - simpl. lia.
  - vm_compute. reflexivity.
  - vm_compute. reflexivity.
  - vm_compute. reflexivity.
  - vm_compute. reflexivity.
  - vm_compute. reflexivity.
  - reflexivity.
  - vm_compute. reflexivity.
Defined.

(** *** C8 *)

(** C8, counterexample.  The three-point path that supplies the single speed
    -5 loads; segSpeeds is [0, 10]: the missing entry is padded with 10, but
    the supplied entry is not left unchanged. *)
Lemma loadPathFromJSON_negative_speed_changed :
  loadPathFromJSON refEnv refInputs initialState (Parsed negativeSpeedPath)
    = Done negativeSpeedBuilt /\
  suppliedSpeeds negativeSpeedPath = [JNumber (Fin (-5)%Q)] /\
  segSpeeds negativeSpeedBuilt = [Fin 0%Q; Fin 10%Q] /\
  (Fin 0%Q === Fin (-5)%Q) = false.
Proof.
  repeat split; vm_compute; reflexivity.
Qed.

Lemma loadPathFromJSON_speeds_witness :
  (loadPathFromJSON refEnv refInputs initialState (Parsed paddedPath) = Done paddedBuilt /\
   suppliedSpeeds paddedPath = [JNumber (Fin 7%Q); JNumber (Fin (-5)%Q)] /\
   length (segSpeeds paddedBuilt) = 3%nat /\
   nth_error (segSpeeds paddedBuilt) 0 = Some (Fin 7%Q) /\
   nth_error (segSpeeds paddedBuilt) 1 = Some zero /\
   nth_error (segSpeeds paddedBuilt) 2 = Some n10) /\
  (loadPathFromJSON refEnv refInputs initialState (Parsed truncatedPath) = Done truncatedBuilt /\
   suppliedSpeeds truncatedPath
     = [JNumber (Fin 0%Q); JNull; JNumber (Fin 7%Q); JNumber (Fin 4%Q)] /\
   length (segSpeeds truncatedBuilt) = 2%nat /\
   nth_error (segSpeeds truncatedBuilt) 0 = Some n10 /\
   nth_error (segSpeeds truncatedBuilt) 1 = Some n10).
Proof.
  assert (P1 : loadPathFromJSON refEnv refInputs initialState (Parsed paddedPath)
               = Done paddedBuilt) by (vm_compute; reflexivity).
  assert (P2 : loadPathFromJSON refEnv refInputs initialState (Parsed truncatedPath)
               = Done truncatedBuilt) by (vm_compute; reflexivity).
  destruct (loadPathFromJSON_speeds_padded refEnv refInputs initialState paddedBuilt
              paddedPath _ eq_refl P1) as (La & Lb & _ & Ld & _).
  destruct (loadPathFromJSON_speeds_padded refEnv refInputs initialState truncatedBuilt
              truncatedPath _ eq_refl P2) as (Ta & _ & _ & Td & Te).
  split.
  - split; [exact P1|]. split; [reflexivity|]. split; [exact La|].
    split; [|split].
    + apply (proj1 (Ld 0%nat 7%Q ltac:(simpl; lia) eq_refl)). reflexivity.
    + apply (proj1 (proj2 (Ld 1%nat (-5)%Q ltac:(simpl; lia) eq_refl))). reflexivity.
    + apply (Lb 2%nat); simpl; lia.
  - split; [exact P2|]. split; [reflexivity|]. split; [exact Ta|].
    split.
    + apply (proj2 (proj2 (Td 0%nat 0%Q ltac:(simpl; lia) eq_refl))). reflexivity.
    + apply (Te 1%nat); [simpl; lia|reflexivity].
Defined.

(** *** C9 *)

Lemma loadPathFromJSON_malformed_witness :
  malformed (Parsed onePointPath) /\
  exists message,
    loadPathFromJSON refEnv refInputs shortBuilt (Parsed onePointPath)
      = Raised (importFailed message) shortBuilt.
Proof.
  assert (H : malformed (Parsed onePointPath)) by (simpl; lia).
  split; [exact H|].
  exact (loadPathFromJSON_malformed_keeps_state refEnv refInputs shortBuilt
           (Parsed onePointPath) H).
Defined.

(** *** C10 *)

Lemma sample_lookups_witness :
  (2 <= length (sCurveControlPoints shortBuilt))%nat /\
  rebuildCurveAndRoad refEnv refInputs shortBuilt = Done shortBuilt /\
  (forall s, (0 <= distanceToIndex shortBuilt s <= lastIndex shortBuilt)%Z /\
     exists f, frameAt (sampledPts shortBuilt) (distanceToIndex shortBuilt s) = Some f).
Proof.
  assert (H1 : (2 <= length (sCurveControlPoints shortBuilt))%nat) by (simpl; lia).
  assert (H2 : rebuildCurveAndRoad refEnv refInputs shortBuilt = Done shortBuilt)
    by (vm_compute; reflexivity).
  split; [exact H1|]. split; [exact H2|].
  exact (proj1 (proj2 (proj2
           (proj2 (sample_lookups_in_bounds refEnv refInputs shortBuilt shortBuilt)
                  H1 H2)))).
Defined.

(** In the reference environment (rational approximations of sqrt, acos and
    PI) the turn angles of the zig-zag path read 108.43 and 126.87 degrees. *)
Example turnAngles_zigzag_hundredths :
  map hundredths (turnAngles refEnv zigzagPoints) =
    [Some 0; Some 10843; Some 12687; Some 12687; Some 10843; Some 0]%Z.
Proof. vm_compute. reflexivity. Qed.

(* ================================================================== *)
(** * Turn angles of the reference path (over the reals) *)

Section RealAngleFacts.

Local Open Scope R_scope.

Lemma real_clamp_id x : -1 <= x <= 1 -> RealAngles.clamp x (-1) 1 = x.
Proof.
  intros [H1 H2]. unfold RealAngles.clamp.
  rewrite (Rmin_right 1 x H2). apply Rmax_right. exact H1.
Qed.

Lemma real_orOne_pos x : 0 < x -> RealAngles.orOne x = x.
Proof.
  intros H. unfold RealAngles.orOne. destruct (Req_dec_T x 0); [lra|reflexivity].
Qed.

(** The dot product of two normalized vectors, from their squared lengths. *)
Lemma real_normalized_dot a b s t d :
  RealAngles.rx a * RealAngles.rx a + RealAngles.ry a * RealAngles.ry a
    + RealAngles.rz a * RealAngles.rz a = s ->
  RealAngles.rx b * RealAngles.rx b + RealAngles.ry b * RealAngles.ry b
    + RealAngles.rz b * RealAngles.rz b = t ->
  0 < s -> 0 < t ->
  RealAngles.dot a b = d ->
  RealAngles.dot (RealAngles.normalize a) (RealAngles.normalize b)
    = d / (sqrt s * sqrt t).
Proof.
  intros Hs Ht Hs0 Ht0 Hd.
  unfold RealAngles.normalize, RealAngles.vlength. rewrite Hs, Ht.
  pose proof (sqrt_lt_R0 s Hs0) as H1. pose proof (sqrt_lt_R0 t Ht0) as H2.
  rewrite (real_orOne_pos _ H1), (real_orOne_pos _ H2).
  unfold RealAngles.dot in *. simpl. rewrite <- Hd. field. split; lra.
Qed.

Lemma sqrt_720 : sqrt 720 * sqrt 720 = 720.
Proof. apply sqrt_sqrt. lra. Qed.

Lemma sqrt_288_720 : sqrt 288 * sqrt 720 = 144 * sqrt 10.
Proof.
  rewrite <- sqrt_mult by lra.
  replace (288 * 720) with ((144 * 144) * 10) by lra.
  rewrite sqrt_mult by lra. rewrite sqrt_square by lra. reflexivity.
Qed.

Lemma sqrt_10_bounds : 316 / 100 < sqrt 10 < 31625 / 10000.
Proof.
  split.
  - rewrite <- (sqrt_square (316 / 100)) by lra. apply sqrt_lt_1; lra.
  - rewrite <- (sqrt_square (31625 / 10000)) by lra. apply sqrt_lt_1; lra.
Qed.

Lemma sqrt_3_lower : 17 / 10 < sqrt 3.
Proof.
  rewrite <- (sqrt_square (17 / 10)) by lra. apply sqrt_lt_1; lra.
Qed.

(** The two values of the clamped dot product on the reference path. *)
Lemma real_dot_outer a b :
  RealAngles.rx a * RealAngles.rx a + RealAngles.ry a * RealAngles.ry a
    + RealAngles.rz a * RealAngles.rz a = 288 ->
  RealAngles.rx b * RealAngles.rx b + RealAngles.ry b * RealAngles.ry b
    + RealAngles.rz b * RealAngles.rz b = 720 ->
  RealAngles.dot a b = -144 ->
  RealAngles.clamp
    (RealAngles.dot (RealAngles.normalize a) (RealAngles.normalize b)) (-1) 1
  = - / sqrt 10.
Proof.
  intros Hs Ht Hd.
  rewrite (real_normalized_dot a b 288 720 (-144) Hs Ht) by (lra || assumption).
  rewrite sqrt_288_720.
  pose proof sqrt_10_bounds as [Hl Hu].
  assert (E : -144 / (144 * sqrt 10) = - / sqrt 10) by (field; lra).
  rewrite E. apply real_clamp_id.
  assert (0 < / sqrt 10) by (apply Rinv_0_lt_compat; lra).
  assert (/ sqrt 10 < 1).
  { rewrite <- Rinv_1. apply Rinv_lt_contravar; lra. }
  lra.
Qed.

Lemma real_dot_outer_sym a b :
  RealAngles.rx a * RealAngles.rx a + RealAngles.ry a * RealAngles.ry a
    + RealAngles.rz a * RealAngles.rz a = 720 ->
  RealAngles.rx b * RealAngles.rx b + RealAngles.ry b * RealAngles.ry b
    + RealAngles.rz b * RealAngles.rz b = 288 ->
  RealAngles.dot a b = -144 ->
  RealAngles.clamp
    (RealAngles.dot (RealAngles.normalize a) (RealAngles.normalize b)) (-1) 1
  = - / sqrt 10.
Proof.
  intros Hs Ht Hd.
  rewrite (real_normalized_dot a b 720 288 (-144) Hs Ht) by (lra || assumption).
  rewrite (Rmult_comm (sqrt 720)), sqrt_288_720.
  pose proof sqrt_10_bounds as [Hl Hu].
  assert (E : -144 / (144 * sqrt 10) = - / sqrt 10) by (field; lra).
  rewrite E. apply real_clamp_id.
  assert (0 < / sqrt 10) by (apply Rinv_0_lt_compat; lra).
  assert (/ sqrt 10 < 1).
  { rewrite <- Rinv_1. apply Rinv_lt_contravar; lra. }
  lra.
Qed.

Lemma real_dot_inner a b :
  RealAngles.rx a * RealAngles.rx a + RealAngles.ry a * RealAngles.ry a
    + RealAngles.rz a * RealAngles.rz a = 720 ->
  RealAngles.rx b * RealAngles.rx b + RealAngles.ry b * RealAngles.ry b
    + RealAngles.rz b * RealAngles.rz b = 720 ->
  RealAngles.dot a b = -432 ->
  RealAngles.clamp
    (RealAngles.dot (RealAngles.normalize a) (RealAngles.normalize b)) (-1) 1
  = -3 / 5.
Proof.
  intros Hs Ht Hd.
  rewrite (real_normalized_dot a b 720 720 (-432) Hs Ht) by (lra || assumption).
  rewrite sqrt_720.
  replace (-432 / 720) with (-3 / 5) by lra.
  apply real_clamp_id. lra.
Qed.

(** The turn angles of the reference path in closed form. *)
Lemma real_turnAngles_reference :
  RealAngles.turnAngles RealAngles.referencePoints =
    [0; RealAngles.radToDeg (acos (- / sqrt 10));
        RealAngles.radToDeg (acos (-3 / 5));
        RealAngles.radToDeg (acos (-3 / 5));
        RealAngles.radToDeg (acos (- / sqrt 10)); 0].
Proof.
  unfold RealAngles.turnAngles, RealAngles.referencePoints. simpl map.
  unfold RealAngles.turnAngleAt, RealAngles.getVec. cbv zeta. simpl nth.
  repeat f_equal.
  - apply real_dot_outer; unfold RealAngles.dot; simpl; lra.
  - apply real_dot_inner; unfold RealAngles.dot; simpl; lra.
  - apply real_dot_inner; unfold RealAngles.dot; simpl; lra.
  - apply real_dot_outer_sym; unfold RealAngles.dot; simpl; lra.
Qed.

End RealAngleFacts.

Section RealAngleBounds.

Local Open Scope R_scope.

Lemma PI_upper : PI < 3143 / 1000.
Proof.
  pose proof (PI_2_3_7_ineq 1) as [_ H].
  unfold sum_f_R0, tg_alt, PI_2_3_7_tg, Ratan_seq in H. simpl in H.
  lra.
Qed.

Lemma PI_lower : 3141 / 1000 < PI.
Proof.
  pose proof (PI_2_3_7_ineq 1) as [H _].
  unfold sum_f_R0, tg_alt, PI_2_3_7_tg, Ratan_seq in H. simpl in H.
  lra.
Qed.

(** For x in [-1, 1] and an angle y in [0, PI]: acos x lies on the side of y
    that the cosines tell. *)
Lemma acos_gt x y :
  -1 <= x <= 1 -> 0 <= y <= PI -> x < cos y -> y < acos x.
Proof.
  intros Hx Hy Hc. pose proof (acos_bound x) as Hb.
  apply cos_decreasing_0; try lra. rewrite cos_acos by assumption. exact Hc.
Qed.

Lemma acos_lt x y :
  -1 <= x <= 1 -> 0 <= y <= PI -> cos y < x -> acos x < y.
Proof.
  intros Hx Hy Hc. pose proof (acos_bound x) as Hb.
  apply cos_decreasing_0; try lra. rewrite cos_acos by assumption. exact Hc.
Qed.

Lemma cos_5PI6 : cos (5 * (PI / 6)) = - (sqrt 3 / 2).
Proof.
  replace (5 * (PI / 6)) with (PI - PI / 6) by lra.
  rewrite Rtrigo_facts.cos_pi_minus, cos_PI6. reflexivity.
Qed.

Lemma inv_sqrt_10_bounds : 3162 / 10000 < / sqrt 10 < 317 / 1000.
Proof.
  pose proof sqrt_10_bounds as [Hl Hu].
  assert (Hpos : 0 < sqrt 10) by lra.
  split.
  - apply Rmult_lt_reg_r with (sqrt 10); [exact Hpos|].
    rewrite Rinv_l by lra. lra.
  - apply Rmult_lt_reg_r with (sqrt 10); [exact Hpos|].
    rewrite Rinv_l by lra. lra.
Qed.

(** acos(-3/5) lies strictly between 2 PI / 3 and 5 PI / 6. *)
Lemma acos_inner_bounds : 2 * (PI / 3) < acos (-3 / 5) < 5 * (PI / 6).
Proof.
  pose proof PI_RGT_0. split.
  - apply acos_gt; [lra|lra|]. rewrite cos_2PI3. lra.
  - apply acos_lt; [lra|lra|]. rewrite cos_5PI6.
    pose proof sqrt_3_lower. lra.
Qed.

(** acos(-1/sqrt 10) exceeds PI/2 by more than 1/sqrt 10 and stays below
    2 PI / 3. *)
Lemma acos_outer_bounds :
  PI / 2 + / sqrt 10 < acos (- / sqrt 10) < 2 * (PI / 3).
Proof.
  pose proof PI_RGT_0. pose proof inv_sqrt_10_bounds as [Hl Hu].
  assert (Hx : -1 <= - / sqrt 10 <= 1) by lra.
  split.
  - assert (Hgt : PI / 2 < acos (- / sqrt 10)).
    { apply acos_gt; [exact Hx|lra|]. rewrite cos_PI2. lra. }
    set (x := acos (- / sqrt 10)) in *.
    assert (Hs : sin (x - PI / 2) = / sqrt 10).
    { replace (x - PI / 2) with (- (PI / 2 - x)) by lra.
      rewrite sin_neg, sin_shift. unfold x. rewrite cos_acos by exact Hx. lra. }
    pose proof (sin_lt_x (x - PI / 2) ltac:(lra)) as Hlt.
    rewrite Hs in Hlt. lra.
  - apply acos_lt; [exact Hx|lra|]. rewrite cos_2PI3. lra.
Qed.

Lemma radToDeg_lt a b k :
  a < b -> k = b * (180 / PI) -> RealAngles.radToDeg a < k.
Proof.
  intros H ->. unfold RealAngles.radToDeg.
  apply Rmult_lt_compat_r; [|exact H].
  pose proof PI_RGT_0. apply Rdiv_lt_0_compat; lra.
Qed.

Lemma radToDeg_gt a b k :
  b < a -> k = b * (180 / PI) -> k < RealAngles.radToDeg a.
Proof.
  intros H ->. unfold RealAngles.radToDeg.
  apply Rmult_lt_compat_r; [|exact H].
  pose proof PI_RGT_0. apply Rdiv_lt_0_compat; lra.
Qed.

Lemma deg_inner_bounds : 120 < RealAngles.radToDeg (acos (-3 / 5)) < 150.
Proof.
  pose proof PI_RGT_0. destruct acos_inner_bounds as [Hl Hu]. split.
  - apply (radToDeg_gt _ (2 * (PI / 3))); [exact Hl|]. field. lra.
  - apply (radToDeg_lt _ (5 * (PI / 6))); [exact Hu|]. field. lra.
Qed.

Lemma deg_outer_bounds : 108 < RealAngles.radToDeg (acos (- / sqrt 10)) < 120.
Proof.
  pose proof PI_RGT_0. pose proof PI_upper as HP.
  pose proof inv_sqrt_10_bounds as [Hl Hu].
  pose proof sqrt_10_bounds as [Hsl Hsu].
  destruct acos_outer_bounds as [Hlo Hhi]. split.
  - apply Rlt_trans with ((PI / 2 + / sqrt 10) * (180 / PI)).
    + replace ((PI / 2 + / sqrt 10) * (180 / PI))
        with (90 + / sqrt 10 * (180 / PI)) by (field; split; lra).
      assert (Hk : 5727 / 100 < 180 / PI).
      { apply Rmult_lt_reg_r with PI; [lra|].
        replace (180 / PI * PI) with 180 by (field; lra). lra. }
      assert (3162 / 10000 * (5727 / 100) < / sqrt 10 * (180 / PI)).
      { apply Rmult_gt_0_lt_compat; lra. }
      lra.
    + apply (radToDeg_gt _ (PI / 2 + / sqrt 10)); [exact Hlo|reflexivity].
  - apply (radToDeg_lt _ (2 * (PI / 3))); [exact Hhi|]. field. lra.
Qed.

(** C7 (as amended). On the reference control points computeTurnAngles
    yields 0 at the two ends, degrees(acos(-1/sqrt 10)) at the first and the
    last interior point, which lies between 108 and 120 degrees, and
    degrees(acos(-3/5)) at the two middle interior points, which lies
    between 120 and 150 degrees. *)
Theorem turnAngles_reference_path :
  RealAngles.turnAngles RealAngles.referencePoints =
    [0; RealAngles.radToDeg (acos (- / sqrt 10));
        RealAngles.radToDeg (acos (-3 / 5));
        RealAngles.radToDeg (acos (-3 / 5));
        RealAngles.radToDeg (acos (- / sqrt 10)); 0] /\
  108 < RealAngles.radToDeg (acos (- / sqrt 10)) < 120 /\
  120 < RealAngles.radToDeg (acos (-3 / 5)) < 150.
Proof.
  split; [exact real_turnAngles_reference|].
  split; [exact deg_outer_bounds|exact deg_inner_bounds].
Qed.

(** C7, counterexample.  None of the four interior turn angles of the
    reference path is within 18 degrees of 90. *)
Lemma turnAngles_reference_not_right_angles :
  ~ RealAngles.near90 18 (nth 1 (RealAngles.turnAngles RealAngles.referencePoints) 0) /\
  ~ RealAngles.near90 18 (nth 2 (RealAngles.turnAngles RealAngles.referencePoints) 0) /\
  ~ RealAngles.near90 18 (nth 3 (RealAngles.turnAngles RealAngles.referencePoints) 0) /\
  ~ RealAngles.near90 18 (nth 4 (RealAngles.turnAngles RealAngles.referencePoints) 0).
Proof.
  rewrite real_turnAngles_reference. simpl nth.
  pose proof deg_outer_bounds as [Ho _]. pose proof deg_inner_bounds as [Hi _].
  unfold RealAngles.near90.
  repeat split; intro H;
    match type of H with Rabs ?x <= _ => pose proof (Rle_abs x) end; lra.
Qed.

End RealAngleBounds.
(* ------------------------------------------------------------------ *)
(** * Further properties of the arc-length table and of sToT *)

(** On a table that starts at 0, every entry lies between 0 and totalLen. *)
Lemma table_entry_bounds st i :
  arcLengthTable st -> getNum (cumLen st) 0 = zero ->
  (0 <= i <= lastIndex st)%Z ->
  zero <= getNum (cumLen st) i <= totalLen st.
Proof.
  intros (Hne & Hs & Hlast) H0 Hi. unfold lastIndex in *.
  assert (Hn : isNaN (getNum (cumLen st) i) = false).
  { destruct (Z.eq_dec i 0) as [->|Hi0]; [rewrite H0; reflexivity|].
    assert (H : getNum (cumLen st) 0 <= getNum (cumLen st) i)
      by (apply nondecreasing_lt_le; try assumption; lia).
    exact (le_notNaN_r _ _ H). }
  split.
  - rewrite <- H0. apply nondecreasing_le_idx; try assumption; lia.
  - rewrite <- Hlast. unfold lastIndex.
    destruct (Z.eq_dec i (Z.of_nat (length (cumLen st)) - 1)) as [->|Hil].
    + apply num_le_refl; assumption.
    + apply nondecreasing_lt_le; try assumption; lia.
Qed.

Lemma num_le_antisym_eqb x y : x <= y -> y <= x -> (x === y) = true.
Proof. intros; num_cases. Qed.

(** X1. Looking up the arc length stored at index i returns the first index
    holding that same arc length: an index k <= i with cumLen[k] === cumLen[i],
    and i itself when the entry before it is strictly smaller. *)
Theorem distanceToIndex_of_entry (st : PathState) (i : Z) :
  arcLengthTable st -> getNum (cumLen st) 0 = zero ->
  (0 <= i <= lastIndex st)%Z ->
  let k := distanceToIndex st (getNum (cumLen st) i) in
  (0 <= k <= i)%Z /\
  (getNum (cumLen st) k === getNum (cumLen st) i) = true /\
  (getNum (cumLen st) (i - 1) < getNum (cumLen st) i -> k = i).
Proof.
  intros Ht H0 Hi k.
  destruct (table_entry_bounds st i Ht H0 Hi) as [Hlo Hhi].
  set (s := getNum (cumLen st) i) in *.
  assert (Hle : max zero (min s (totalLen st)) <= totalLen st).
  { destruct (clamp_dist_in_range s (totalLen st) (totalLen st) Hlo Hhi) as [_ Hd].
    unfold le. rewrite Hd. exact Hhi. }
  destruct (distanceToIndex_clamped st s Ht Hle) as (Hr & Hge & Hmin).
  fold k in Hr, Hge, Hmin.
  assert (Hsn : isNaN s = false) by exact (le_notNaN_l _ _ Hhi).
  assert (Hki : (k <= i)%Z).
  { destruct (Z_le_gt_dec k i) as [|Hgt]; [assumption|exfalso].
    specialize (Hmin i ltac:(lia)). fold s in Hmin.
    destruct (clamp_dist_in_range s (totalLen st) s Hlo Hhi) as [E _].
    unfold lt in Hmin. rewrite E in Hmin.
    clear -Hmin Hsn. destruct s; simpl in *; try discriminate. qbool. lra. }
  assert (Hsk : s <= getNum (cumLen st) k).
  { destruct (clamp_dist_in_range s (totalLen st) (getNum (cumLen st) k) Hlo Hhi) as [_ E].
    unfold le. rewrite <- E. exact Hge. }
  destruct Ht as (Hne & Hs & Hlast). unfold lastIndex in *.
  assert (Hks : getNum (cumLen st) k <= s).
  { subst s. apply nondecreasing_le_idx; try assumption; lia. }
  split; [lia|]. split.
  - apply num_le_antisym_eqb; assumption.
  - intros Hprev.
    destruct (Z.eq_dec k i) as [|Hn]; [assumption|exfalso].
    assert (Hk1 : getNum (cumLen st) k <= getNum (cumLen st) (i - 1)).
    { apply nondecreasing_le_idx; try assumption; try lia.
      exact (ltb_true_notNaN_l _ _ Hprev). }
    apply (lt_irrefl_le _ _ (num_le_lt_trans _ _ _ Hk1 Hprev) Hsk).
Qed.

Lemma distanceToIndex_of_entry_witness :
  (0 <= distanceToIndex stalledBuilt (getNum (cumLen stalledBuilt) 5) <= 5)%Z /\
  (getNum (cumLen stalledBuilt) (distanceToIndex stalledBuilt (getNum (cumLen stalledBuilt) 5))
     === getNum (cumLen stalledBuilt) 5) = true /\
  distanceToIndex stalledBuilt (getNum (cumLen stalledBuilt) 2) = 2%Z.
Proof.
  assert (H0 : getNum (cumLen stalledBuilt) 0 = zero) by reflexivity.
  assert (H5 : (0 <= 5 <= lastIndex stalledBuilt)%Z) by (vm_compute; split; discriminate).
  assert (H2 : (0 <= 2 <= lastIndex stalledBuilt)%Z) by (vm_compute; split; discriminate).
  destruct (distanceToIndex_of_entry stalledBuilt 5 arcLengthTable_stalledBuilt H0 H5)
    as (Ha & Hb & _).
  destruct (distanceToIndex_of_entry stalledBuilt 2 arcLengthTable_stalledBuilt H0 H2)
    as (_ & _ & Hc).
  split; [exact Ha|]. split; [exact Hb|].
  apply Hc. vm_compute. reflexivity.
Defined.

(** ** sToT between the end points *)

(** The clamped arc length [clamp s 0 totalLen] is finite and inside the table. *)
Lemma sToT_target st s :
  zero < totalLen st -> isFinite (totalLen st) = true ->
  isFinite s = true ->
  exists q, clamp s zero (totalLen st) = Fin q /\
    zero <= Fin q /\ Fin q <= totalLen st.
Proof.
  intros Hpos Hfin Hs. destruct (finite_inv _ Hs) as [a ->].
  destruct (finite_inv _ Hfin) as [T ET]. rewrite ET in *.
  unfold clamp, min, max, zero, lt, le in *. simpl in *.
  destruct (Qltb a T) eqn:E1; simpl.
  - destruct (Qltb 0 a) eqn:E2; eexists; (split; [reflexivity|]); simpl; qbool; split; qbool; lra.
  - destruct (Qltb 0 T) eqn:E2; eexists; (split; [reflexivity|]); simpl; qbool; split; qbool; lra.
Qed.

Lemma table_has_two st :
  arcLengthTable st -> getNum (cumLen st) 0 = zero -> zero < totalLen st ->
  (1 <= lastIndex st)%Z.
Proof.
  intros Htable Hhead Hpos.
  destruct Htable as (Hne & Hs & Hlast).
  pose proof (cumLen_length_pos _ Hne) as H.
  destruct (Z.eq_dec (lastIndex st) 0) as [E|]; [exfalso|lia].
  rewrite E, Hhead in Hlast. rewrite <- Hlast in Hpos.
  unfold lt, zero in Hpos. simpl in Hpos. qbool. lra.
Qed.

Lemma samples_minus_one st :
  length (sampledPts st) = length (cumLen st) ->
  (inject_Z (Z.of_nat (length (sampledPts st))) + - (1) == inject_Z (lastIndex st))%Q.
Proof.
  intros Hlen. rewrite Hlen. unfold lastIndex, Z.sub.
  rewrite inject_Z_plus, inject_Z_opp. reflexivity.
Qed.

Lemma finite_between x y z : x <= y -> y <= z -> isFinite x = true -> isFinite z = true ->
  isFinite y = true.
Proof. intros; num_cases. Qed.

(** The three cases of sToT on a finite arc length, [i] being the index the
    search returns for the clamped arc length [q]. *)
Lemma sToT_value st s :
  arcLengthTable st -> getNum (cumLen st) 0 = zero ->
  length (sampledPts st) = length (cumLen st) ->
  zero < totalLen st -> isFinite (totalLen st) = true ->
  isFinite s = true ->
  exists q, clamp s zero (totalLen st) = Fin q /\
  let i := distanceToIndex st (Fin q) in
  (0 <= i <= lastIndex st)%Z /\
  (i = 0%Z -> sToT st s = zero) /\
  (i = lastIndex st -> sToT st s = one) /\
  ((1 <= i <= lastIndex st - 1)%Z ->
     exists s0 s1 r,
       getNum (cumLen st) (i - 1) = Fin s0 /\
       getNum (cumLen st) i = Fin s1 /\
       (s0 < q)%Q /\ (q <= s1)%Q /\
       sToT st s = Fin r /\
       (r == inject_Z (i - 1) / inject_Z (lastIndex st)
            + (inject_Z i / inject_Z (lastIndex st)
               - inject_Z (i - 1) / inject_Z (lastIndex st))
              * ((q - s0) / (s1 - s0)))%Q).
Proof.
  intros Htable Hhead Hlen Hpos Hfin Hs.
  destruct (sToT_target st s Hpos Hfin Hs) as (q & Eq & Hq0 & HqT).
  exists q. split; [exact Eq|]. intros i.
  pose proof (table_has_two st Htable Hhead Hpos) as H2.
  assert (Hle : max zero (min (Fin q) (totalLen st)) <= totalLen st).
  { destruct (clamp_dist_in_range (Fin q) (totalLen st) (totalLen st) Hq0 HqT) as [_ Hd].
    unfold le. rewrite Hd. exact HqT. }
  destruct (distanceToIndex_clamped st (Fin q) Htable Hle) as (Hr & Hge & Hmin).
  fold i in Hr, Hge, Hmin.
  assert (Hhead' : sToT st s =
    if (i =? 0)%Z then zero else
    if (i >=? Z.of_nat (length (cumLen st)) - 1)%Z then one else
    let s0 := getNum (cumLen st) (i - 1) in
    let s1 := getNum (cumLen st) i in
    let t1 := intNum i / (lenNum (sampledPts st) - one) in
    let t0 := intNum (i - 1) / (lenNum (sampledPts st) - one) in
    let segmentLength := s1 - s0 in
    let segmentProgress :=
      if segmentLength === zero then zero else (Fin q - s0) / segmentLength in
    t0 + (t1 - t0) * segmentProgress).
  { unfold sToT. rewrite (eqb_zero_pos _ Hpos), Hs. cbn [negb orb].
    cbv zeta. rewrite Eq. reflexivity. }
  split; [exact Hr|]. split; [|split].
  - intros E. rewrite Hhead', E. reflexivity.
  - intros E. rewrite Hhead'.
    destruct (i =? 0)%Z eqn:E0; [apply Z.eqb_eq in E0; lia|].
    rewrite E. unfold lastIndex. rewrite Z.geb_leb, Z.leb_refl. reflexivity.
  - intros Hi. rewrite Hhead'.
    destruct (i =? 0)%Z eqn:E0; [apply Z.eqb_eq in E0; lia|].
    destruct (i >=? Z.of_nat (length (cumLen st)) - 1)%Z eqn:E1;
      [rewrite Z.geb_leb in E1; apply Z.leb_le in E1; unfold lastIndex in Hi; lia|].
    cbv zeta.
    assert (Hlt : getNum (cumLen st) (i - 1) < Fin q).
    { destruct (clamp_dist_in_range (Fin q) (totalLen st) (getNum (cumLen st) (i - 1)) Hq0 HqT)
        as [E _].
      unfold lt. rewrite <- E. apply Hmin. lia. }
    assert (Hge' : Fin q <= getNum (cumLen st) i).
    { destruct (clamp_dist_in_range (Fin q) (totalLen st) (getNum (cumLen st) i) Hq0 HqT)
        as [_ E].
      unfold le. rewrite <- E. exact Hge. }
    destruct (table_entry_bounds st (i - 1) Htable Hhead ltac:(lia)) as [Ha _].
    destruct (table_entry_bounds st i Htable Hhead ltac:(lia)) as [_ Hb].
    assert (F0 : isFinite (getNum (cumLen st) (i - 1)) = true).
    { apply (finite_between zero _ (Fin q)); try assumption; try reflexivity.
      apply num_lt_le; assumption. }
    assert (F1 : isFinite (getNum (cumLen st) i) = true).
    { apply (finite_between (Fin q) _ (totalLen st)); try assumption; reflexivity. }
    destruct (finite_inv _ F0) as [s0 E0']. destruct (finite_inv _ F1) as [s1 E1'].
    rewrite E0', E1' in *.
    unfold lt, le in Hlt, Hge'. simpl in Hlt, Hge'. qbool.
    pose proof (samples_minus_one st Hlen) as HN.
    assert (HNpos : (0 < inject_Z (lastIndex st))%Q).
    { rewrite <- (Zlt_Qlt 0). lia. }
    exists s0, s1.
    unfold lenNum, intNum, one, zero, sub, div, add, mul, neg, eqb.
    destruct (Qeq_bool (s1 + - s0) 0) eqn:Ed; [qbool; lra|].
    destruct (Qeq_bool (inject_Z (Z.of_nat (length (sampledPts st))) + - (1)) 0) eqn:En;
      [qbool; lra|].
    eexists. split; [reflexivity|]. split; [reflexivity|].
    split; [exact Hlt|]. split; [exact Hge'|]. split; [reflexivity|].
    rewrite HN. unfold Qminus. reflexivity.
Qed.


Lemma Qinterp_bounds (t0 t1 p : Q) :
  (t0 <= t1 -> 0 <= p -> p <= 1 -> t0 <= t0 + (t1 - t0) * p /\ t0 + (t1 - t0) * p <= t1)%Q.
Proof. intros; split; nra. Qed.

Lemma Qinterp_mono (t0 t1 p1 p2 : Q) :
  (t0 <= t1 -> p1 <= p2 -> t0 + (t1 - t0) * p1 <= t0 + (t1 - t0) * p2)%Q.
Proof. intros; nra. Qed.

Lemma Qdiv_le_mono (a b d : Q) : (0 < d -> a <= b -> a / d <= b / d)%Q.
Proof.
  intros Hd Hab. unfold Qdiv. apply Qmult_le_compat_r; [exact Hab|].
  apply Qinv_le_0_compat. lra.
Qed.

Lemma Qprogress_bounds (q s0 s1 : Q) :
  (s0 < q -> q <= s1 -> 0 <= (q - s0) / (s1 - s0) /\ (q - s0) / (s1 - s0) <= 1)%Q.
Proof.
  intros H0 H1. split.
  - apply Qle_shift_div_l; lra.
  - apply Qle_shift_div_r; lra.
Qed.

Lemma Qindex_fraction (i j n : Z) :
  (i <= j)%Z -> (0 < n)%Z -> (inject_Z i / inject_Z n <= inject_Z j / inject_Z n)%Q.
Proof.
  intros Hij Hn. apply Qdiv_le_mono.
  - rewrite <- (Zlt_Qlt 0). exact Hn.
  - rewrite <- Zle_Qle. exact Hij.
Qed.

Lemma Qindex_fraction_unit (i n : Z) :
  (0 <= i <= n)%Z -> (0 < n)%Z ->
  (0 <= inject_Z i / inject_Z n /\ inject_Z i / inject_Z n <= 1)%Q.
Proof.
  intros Hi Hn.
  assert (Hq : (0 < inject_Z n)%Q) by (rewrite <- (Zlt_Qlt 0); exact Hn).
  split.
  - apply Qle_shift_div_l; [exact Hq|].
    assert ((0 <= inject_Z i)%Q) by (rewrite <- (Zle_Qle 0); lia). lra.
  - apply Qle_shift_div_r; [exact Hq|].
    assert ((inject_Z i <= inject_Z n)%Q) by (rewrite <- Zle_Qle; lia). lra.
Qed.

(** In the middle case the value of sToT lies between (i - 1) / (n - 1) and
    i / (n - 1). *)
Lemma sToT_bracket st s :
  arcLengthTable st -> getNum (cumLen st) 0 = zero ->
  length (sampledPts st) = length (cumLen st) ->
  zero < totalLen st -> isFinite (totalLen st) = true ->
  isFinite s = true ->
  exists q r, clamp s zero (totalLen st) = Fin q /\ sToT st s = Fin r /\
    let i := distanceToIndex st (Fin q) in
    (0 <= i <= lastIndex st)%Z /\
    (inject_Z (Z.max 0 (i - 1)) / inject_Z (lastIndex st) <= r)%Q /\
    (r <= inject_Z i / inject_Z (lastIndex st))%Q.
Proof.
  intros Ht H0 Hlen HT HTf Hs.
  destruct (sToT_value st s Ht H0 Hlen HT HTf Hs) as (q & Eq & Hr & Hz & Hl & Hm).
  pose proof (table_has_two st Ht H0 HT) as H2.
  assert (HN : (0 < inject_Z (lastIndex st))%Q) by (rewrite <- (Zlt_Qlt 0); lia).
  exists q. cbv zeta in *.
  set (i := distanceToIndex st (Fin q)) in *.
  destruct (Z.eq_dec i 0) as [E0|N0].
  - exists 0%Q. split; [exact Eq|]. split; [exact (Hz E0)|]. split; [exact Hr|].
    rewrite E0. change (Z.max 0 (0 - 1)) with 0%Z.
    assert (E : (inject_Z 0 / inject_Z (lastIndex st) == 0)%Q)
      by (unfold Qdiv; change (inject_Z 0) with 0%Q; apply Qmult_0_l).
    rewrite E. split; lra.
  - destruct (Z.eq_dec i (lastIndex st)) as [El|Nl].
    + exists 1%Q. split; [exact Eq|]. split; [exact (Hl El)|]. split; [exact Hr|].
      rewrite El.
      destruct (Qindex_fraction_unit (Z.max 0 (lastIndex st - 1)) (lastIndex st)
                  ltac:(lia) ltac:(lia)) as [_ A].
      destruct (Qindex_fraction_unit (lastIndex st) (lastIndex st) ltac:(lia) ltac:(lia))
        as [_ B].
      split; [exact A|].
      assert (E : (inject_Z (lastIndex st) / inject_Z (lastIndex st) == 1)%Q)
        by (field; lra).
      rewrite E. lra.
    + destruct (Hm ltac:(lia)) as (s0 & s1 & r & _ & _ & Hlt & Hle & Er & Hv).
      exists r. split; [exact Eq|]. split; [exact Er|]. split; [exact Hr|].
      replace (Z.max 0 (i - 1)) with (i - 1)%Z by lia.
      destruct (Qprogress_bounds q s0 s1 Hlt Hle) as [P0 P1].
      pose proof (Qindex_fraction (i - 1) i (lastIndex st) ltac:(lia) ltac:(lia)) as Hti.
      destruct (Qinterp_bounds _ _ _ Hti P0 P1) as [A B].
      rewrite Hv. split; assumption.
Qed.

Lemma sToT_unit st s :
  arcLengthTable st -> getNum (cumLen st) 0 = zero ->
  length (sampledPts st) = length (cumLen st) ->
  zero < totalLen st -> isFinite (totalLen st) = true ->
  isFinite s = true ->
  zero <= sToT st s <= one.
Proof.
  intros Ht H0 Hlen HT HTf Hs.
  destruct (sToT_bracket st s Ht H0 Hlen HT HTf Hs) as (q & r & _ & Er & Hr & Hlo & Hhi).
  pose proof (table_has_two st Ht H0 HT) as H2.
  cbv zeta in *. set (i := distanceToIndex st (Fin q)) in *.
  destruct (Qindex_fraction_unit (Z.max 0 (i - 1)) (lastIndex st) ltac:(lia) ltac:(lia))
    as [A _].
  destruct (Qindex_fraction_unit i (lastIndex st) ltac:(lia) ltac:(lia)) as [_ B].
  rewrite Er. unfold le, zero, one. simpl. split; qbool; lra.
Qed.

(** X2. On a built table (starting at 0, non-decreasing, ending at a finite
    totalLen > 0, one sample per entry) sToT maps every finite arc length,
    inside the path or not, to a curve parameter between 0 and 1. *)
Theorem sToT_in_unit_interval (st : PathState) (s : num) :
  arcLengthTable st -> getNum (cumLen st) 0 = zero ->
  length (sampledPts st) = length (cumLen st) ->
  zero < totalLen st -> isFinite (totalLen st) = true ->
  isFinite s = true ->
  zero <= sToT st s <= one.
Proof.
  intros Ht H0 Hlen HT HTf Hs. apply sToT_unit; assumption.
Qed.

Lemma sToT_in_unit_interval_witness :
  zero <= sToT stalledBuilt (Fin (1 # 100)%Q) <= one.
Proof.
  apply sToT_in_unit_interval.
  - exact arcLengthTable_stalledBuilt.
  - reflexivity.
  - reflexivity.
  - vm_compute. reflexivity.
  - reflexivity.
  - reflexivity.
Defined.

Lemma clamp_mono_finite (a b T : Q) :
  (a <= b)%Q -> (0 <= T)%Q ->
  exists qa qb, clamp (Fin a) zero (Fin T) = Fin qa /\ clamp (Fin b) zero (Fin T) = Fin qb /\
    (qa <= qb)%Q.
Proof.
  intros Hab HT. unfold clamp, min, max, zero. simpl.
  destruct (Qltb a T) eqn:Ea; destruct (Qltb b T) eqn:Eb; simpl;
    repeat match goal with
    | |- context [Qltb ?x ?y] => destruct (Qltb x y) eqn:?
    end;
    do 2 eexists; (split; [reflexivity|]); (split; [reflexivity|]); qbool; lra.
Qed.

(** X3. On a built table sToT is monotone: a larger finite arc length never
    maps to a smaller curve parameter. *)
Theorem sToT_monotone (st : PathState) (s1 s2 : num) :
  arcLengthTable st -> getNum (cumLen st) 0 = zero ->
  length (sampledPts st) = length (cumLen st) ->
  zero < totalLen st -> isFinite (totalLen st) = true ->
  isFinite s1 = true -> isFinite s2 = true -> s1 <= s2 ->
  sToT st s1 <= sToT st s2.
Proof.
  intros Ht H0 Hlen HT HTf Hs1 Hs2 H12.
  pose proof (table_has_two st Ht H0 HT) as H2.
  destruct (sToT_bracket st s1 Ht H0 Hlen HT HTf Hs1) as (q1 & r1 & Eq1 & Er1 & Hr1 & Hlo1 & Hhi1).
  destruct (sToT_bracket st s2 Ht H0 Hlen HT HTf Hs2) as (q2 & r2 & Eq2 & Er2 & Hr2 & Hlo2 & Hhi2).
  cbv zeta in *.
  set (i1 := distanceToIndex st (Fin q1)) in *.
  set (i2 := distanceToIndex st (Fin q2)) in *.
  (* the clamped arc lengths are ordered *)
  assert (Hq : (q1 <= q2)%Q).
  { destruct (finite_inv _ Hs1) as [a Ea]. destruct (finite_inv _ Hs2) as [b Eb].
    destruct (finite_inv _ HTf) as [T ET].
    rewrite Ea, Eb, ET in *.
    assert (Hab : (a <= b)%Q) by (unfold le in H12; simpl in H12; qbool; lra).
    assert (HT0 : (0 <= T)%Q) by (unfold lt, zero in HT; simpl in HT; qbool; lra).
    destruct (clamp_mono_finite a b T Hab HT0) as (qa & qb & Ca & Cb & Hle).
    rewrite Ca in Eq1. rewrite Cb in Eq2.
    injection Eq1 as <-. injection Eq2 as <-. exact Hle. }
  destruct (sToT_target st s1 HT HTf Hs1) as (q1' & Eq1' & Hq10 & Hq1T).
  destruct (sToT_target st s2 HT HTf Hs2) as (q2' & Eq2' & Hq20 & Hq2T).
  rewrite Eq1 in Eq1'. injection Eq1' as <-.
  rewrite Eq2 in Eq2'. injection Eq2' as <-.
  assert (Hi : (i1 <= i2)%Z).
  { apply distanceToIndex_mono_clamped; [exact Ht| |].
    - apply clamp_dist_mono; [apply num_lt_le; exact HT|].
      unfold le. simpl. qbool. exact Hq.
    - apply clamp_dist_bounds; [apply num_lt_le; exact HT|reflexivity]. }
  rewrite Er1, Er2. unfold le. simpl. qbool.
  destruct (Z.eq_dec i1 i2) as [E|N].
  - (* the same table interval *)
    destruct (sToT_value st s1 Ht H0 Hlen HT HTf Hs1) as (q1' & Eq1' & _ & Hz1 & Hl1 & Hm1).
    destruct (sToT_value st s2 Ht H0 Hlen HT HTf Hs2) as (q2' & Eq2' & _ & Hz2 & Hl2 & Hm2).
    rewrite Eq1 in Eq1'. injection Eq1' as <-.
    rewrite Eq2 in Eq2'. injection Eq2' as <-.
    cbv zeta in *. fold i1 in Hz1, Hl1, Hm1. fold i2 in Hz2, Hl2, Hm2.
    destruct (Z.eq_dec i1 0) as [E0|N0].
    { rewrite (Hz1 E0) in Er1. rewrite (Hz2 ltac:(lia)) in Er2.
      injection Er1 as <-. injection Er2 as <-. lra. }
    destruct (Z.eq_dec i1 (lastIndex st)) as [El|Nl].
    { rewrite (Hl1 El) in Er1. rewrite (Hl2 ltac:(lia)) in Er2.
      injection Er1 as <-. injection Er2 as <-. lra. }
    destruct (Hm1 ltac:(lia)) as (a0 & a1 & ra & Ea0 & Ea1 & Hlta & Hlea & Era & Hva).
    destruct (Hm2 ltac:(lia)) as (b0 & b1 & rb & Eb0 & Eb1 & Hltb & Hleb & Erb & Hvb).
    rewrite Er1 in Era. injection Era as <-.
    rewrite Er2 in Erb. injection Erb as <-.
    rewrite <- E in Eb0, Eb1, Hvb.
    rewrite Ea0 in Eb0. injection Eb0 as <-.
    rewrite Ea1 in Eb1. injection Eb1 as <-.
    rewrite Hva, Hvb.
    apply Qinterp_mono.
    + apply Qindex_fraction; lia.
    + apply Qdiv_le_mono; lra.
  - (* different intervals: the brackets are ordered *)
    pose proof (Qindex_fraction i1 (Z.max 0 (i2 - 1)) (lastIndex st) ltac:(lia) ltac:(lia)).
    lra.
Qed.

Lemma sToT_monotone_witness :
  sToT stalledBuilt (Fin (1 # 100)%Q) <= sToT stalledBuilt (Fin (25 # 1000)%Q).
Proof.
  apply sToT_monotone.
  - exact arcLengthTable_stalledBuilt.
  - reflexivity.
  - reflexivity.
  - vm_compute. reflexivity.
  - reflexivity.
  - reflexivity.
  - reflexivity.
  - vm_compute. reflexivity.
Defined.

(* ------------------------------------------------------------------ *)
(** * Further properties of loadPathFromJSON and rebuildCurveAndRoad *)

Lemma mapPoints_null env items : In JNull items -> mapPoints env items = None.
Proof.
  induction items as [|p rest IH]; intros Hin; [destruct Hin|].
  destruct Hin as [->|Hin]; [reflexivity|].
  simpl. rewrite (IH Hin).
  destruct (getProp p "x"); [|reflexivity].
  destruct (getProp p "z"); reflexivity.
Qed.

(** X4. A points array of at least two entries that contains a null is
    rejected only after the control points have been emptied: the import
    fails with the TypeError message and leaves the state it was called with
    except that sCurveControlPoints is now empty (the tables, speeds and ride
    state are the old ones); rebuilding that state changes nothing. *)
Theorem loadPathFromJSON_null_point_empties_path
    (env : Env) (inp : Inputs) (st : PathState) (data : json) (points : list json) :
  pointsOf data = Some points ->
  (2 <= length points)%nat ->
  In JNull points ->
  let st' := setPath st [] (segSpeeds st) in
  loadPathFromJSON env inp st (Parsed data)
    = Raised (importFailed (typeErrorMessage env)) st' /\
  sCurveControlPoints st' = [] /\
  rebuildCurveAndRoad env inp st' = Done st'.
Proof.
  intros Hp Hn Hin st'. split; [|split; reflexivity].
  unfold pointsOf in Hp. unfold loadPathFromJSON.
  destruct (getProp data "points") as [[v|]|]; try discriminate.
  destruct v; try discriminate. injection Hp as ->.
  destruct (length points <? 2)%nat eqn:E; [apply Nat.ltb_lt in E; lia|].
  cbv zeta. rewrite (mapPoints_null env points Hin). reflexivity.
Qed.

Lemma loadPathFromJSON_null_point_witness :
  loadPathFromJSON refEnv refInputs shortBuilt
      (Parsed (JObject [("points"%string, JArray [jsonPoint 0 0; JNull; jsonPoint 1 1])]))
    = Raised (importFailed (typeErrorMessage refEnv))
        (setPath shortBuilt [] (segSpeeds shortBuilt)).
Proof.
  apply (loadPathFromJSON_null_point_empties_path refEnv refInputs shortBuilt
           (JObject [("points"%string, JArray [jsonPoint 0 0; JNull; jsonPoint 1 1])])
           [jsonPoint 0 0; JNull; jsonPoint 1 1]).
  - reflexivity.
  - simpl. lia.
  - simpl. right. left. reflexivity.
Defined.

(** The steps of a successful load. *)
Lemma loadPathFromJSON_done env inp st data points st' :
  pointsOf data = Some points ->
  loadPathFromJSON env inp st (Parsed data) = Done st' ->
  (2 <= length points)%nat /\
  exists newPts st1,
    mapPoints env points = Some newPts /\
    rebuildCurveAndRoad env inp
      (setPath st newPts
         (map (sanitizeSpeed env) (fitSpeeds (suppliedSpeeds data) (length newPts - 1))))
      = Done st1 /\
    resetCameraToPathStart env inp st1 = Done st'.
Proof.
  unfold pointsOf, loadPathFromJSON, suppliedSpeeds, fail.
  destruct (getProp data "points") as [[v|]|]; try discriminate.
  destruct v; try discriminate. intros [= ->].
  destruct (length points <? 2)%nat eqn:E; [discriminate|]. cbv zeta.
  apply Nat.ltb_ge in E.
  destruct (mapPoints env points) as [newPts|] eqn:Em; [|discriminate].
  cbn [setPath sCurveControlPoints segSpeeds].
  destruct (rebuildCurveAndRoad env inp _) as [st1|m st1|] eqn:Er; try discriminate.
  destruct (resetCameraToPathStart env inp st1) as [st2|m st2|] eqn:Ec; try discriminate.
  intros [= <-]. split; [exact E|]. exists newPts, st1.
  split; [reflexivity|]. split; [exact Er|exact Ec].
Qed.

Lemma mapPoints_flat env items : forall pts,
  mapPoints env items = Some pts -> Forall (fun p => vy p = zero) pts.
Proof.
  induction items as [|p rest IH]; intros pts; simpl.
  - intros [= <-]. constructor.
  - destruct (getProp p "x"); [|discriminate].
    destruct (getProp p "z"); [|discriminate].
    destruct (mapPoints env rest) as [pts'|]; [|discriminate].
    intros [= <-]. constructor; [reflexivity|]. apply IH. reflexivity.
Qed.

(** What rebuildCurveAndRoad leaves besides the tables. *)
Lemma rebuildCurveAndRoad_fields env inp st st' :
  rebuildCurveAndRoad env inp st = Done st' ->
  (2 <= length (sCurveControlPoints st))%nat ->
  length (sAtPoint st') = length (sCurveControlPoints st) /\
  turnAngle st' = turnAngles env (sCurveControlPoints st) /\
  rideProgressS st' = rideProgressS st /\ rideProgressT st' = rideProgressT st /\
  isRideActive st' = isRideActive st /\ isRideLooping st' = isRideLooping st /\
  tension st' = tension st.
Proof.
  unfold rebuildCurveAndRoad. intros H Hn.
  destruct (_ <? 2)%nat eqn:E; [apply Nat.ltb_lt in E; lia|].
  unfold initializePathData in H. cbv zeta in H.
  destruct (curve_getPoints env _ _ _) as [|p0 rest]; [discriminate|].
  destruct (buildArcTable env p0 rest); [|discriminate].
  destruct (roadLoopOk _); [|discriminate].
  injection H as <-. simpl. rewrite length_map. repeat split; reflexivity.
Qed.

Lemma turnAngles_length env pts : length (turnAngles env pts) = length pts.
Proof. unfold turnAngles. rewrite length_map, length_seq. reflexivity. Qed.

(** X5. After a successful import the control points are the points of the
    file, in order, all at height 0; the ride is back at the start of the
    path (rideProgressS = rideProgressT = 0) with its active and looping flags
    untouched; there is one arc-length anchor and one turn angle per control
    point, one cumulative length per sample and at least two samples. *)
Theorem loadPathFromJSON_success_state
    (env : Env) (inp : Inputs) (st st' : PathState) (data : json) (points : list json) :
  pointsOf data = Some points ->
  loadPathFromJSON env inp st (Parsed data) = Done st' ->
  mapPoints env points = Some (sCurveControlPoints st') /\
  length (sCurveControlPoints st') = length points /\
  Forall (fun p => vy p = zero) (sCurveControlPoints st') /\
  rideProgressS st' = zero /\ rideProgressT st' = zero /\
  isRideActive st' = isRideActive st /\ isRideLooping st' = isRideLooping st /\
  length (sAtPoint st') = length points /\
  length (turnAngle st') = length points /\
  tablesBuilt st'.
Proof.
  intros Hp Hl.
  destruct (loadPathFromJSON_done env inp st data points st' Hp Hl)
    as (Hn & newPts & st1 & Em & Er & Ec).
  pose proof (mapPoints_length env points newPts Em) as Hlen.
  destruct (rebuildCurveAndRoad_keeps_path env inp _ st1 Er) as [Ecp _].
  cbn [setPath sCurveControlPoints] in Ecp.
  assert (H2 : (2 <= length (sCurveControlPoints
                  (setPath st newPts
                     (map (sanitizeSpeed env)
                        (fitSpeeds (suppliedSpeeds data) (length newPts - 1))))))%nat)
    by (cbn [setPath sCurveControlPoints]; lia).
  pose proof (rebuildCurveAndRoad_built env inp _ st1 H2 Er) as Hb.
  destruct (rebuildCurveAndRoad_fields env inp _ st1 Er H2)
    as (HsAt & Hta & _ & _ & Hact & Hloop & _).
  cbn [setPath sCurveControlPoints isRideActive isRideLooping] in HsAt, Hta, Hact, Hloop.
  unfold resetCameraToPathStart in Ec. cbv zeta in Ec.
  destruct (placeCameraAtPathT inp _); [|discriminate].
  destruct (curve_getPointAt env _ _ _); [|discriminate].
  injection Ec as <-.
  cbn [setRide sCurveControlPoints rideProgressS rideProgressT isRideActive
       isRideLooping sAtPoint turnAngle].
  rewrite Ecp, Hta, turnAngles_length, HsAt, Hact, Hloop, Hlen.
  split; [assumption|]. split; [reflexivity|].
  split; [eapply mapPoints_flat; eassumption|].
  do 6 (split; [reflexivity|]).
  apply tablesBuilt_setRide. exact Hb.
Qed.

Lemma sanitizeSpeed_nonneg env v : zero <= sanitizeSpeed env v.
Proof.
  unfold sanitizeSpeed, or_else, defaultSpeed, n10, max, zero, le.
  destruct (parseFloat env v) as [| |q|]; simpl; try reflexivity.
  destruct (Qeq_bool q 0) eqn:E; simpl; [reflexivity|].
  destruct (Qltb 0 q) eqn:E1; simpl; qbool; lra.
Qed.

(** X6. After a successful import no segment speed is negative or NaN,
    whatever the file supplied (numbers, strings, nulls, nested values). *)
Theorem loadPathFromJSON_speeds_nonneg
    (env : Env) (inp : Inputs) (st st' : PathState) (data : json) (points : list json) :
  pointsOf data = Some points ->
  loadPathFromJSON env inp st (Parsed data) = Done st' ->
  Forall (fun v => zero <= v) (segSpeeds st').
Proof.
  intros Hp Hl.
  rewrite (loadPathFromJSON_segSpeeds env inp st data points st' Hp Hl).
  apply Forall_map. apply Forall_forall. intros v _. apply sanitizeSpeed_nonneg.
Qed.

Lemma loadPathFromJSON_success_witness :
  length (sCurveControlPoints stalledBuilt) = 4%nat /\
  rideProgressS stalledBuilt = zero /\
  length (sAtPoint stalledBuilt) = 4%nat /\
  tablesBuilt stalledBuilt.
Proof.
  assert (Hl : loadPathFromJSON refEnv refInputs initialState (Parsed stalledPath)
                 = Done stalledBuilt) by (vm_compute; reflexivity).
  destruct (loadPathFromJSON_success_state refEnv refInputs initialState stalledBuilt
              stalledPath
              [jsonPoint 0 0; jsonPoint (3 # 100) 0; jsonPoint (3 # 100) 0;
               jsonPoint (3 # 100) 0] eq_refl Hl)
    as (_ & Ha & _ & Hb & _ & _ & _ & Hc & _ & Hd).
  split; [exact Ha|]. split; [exact Hb|]. split; [exact Hc|exact Hd].
Defined.

Lemma loadPathFromJSON_speeds_nonneg_witness :
  Forall (fun v => zero <= v) (segSpeeds negativeSpeedBuilt).
Proof.
  assert (Hl : loadPathFromJSON refEnv refInputs initialState (Parsed negativeSpeedPath)
                 = Done negativeSpeedBuilt) by (vm_compute; reflexivity).
  exact (loadPathFromJSON_speeds_nonneg refEnv refInputs initialState negativeSpeedBuilt
           negativeSpeedPath
           [jsonPoint 0 0; jsonPoint (3 # 100) 0; jsonPoint (6 # 100) 0] eq_refl Hl).
Defined.

(** X7. Rebuilding is idempotent: a state that rebuildCurveAndRoad returned is
    returned unchanged by a second rebuild under the same configuration (the
    tables are recomputed from the control points, so the height offset is
    not applied twice). *)
Theorem rebuildCurveAndRoad_idempotent
    (env : Env) (inp : Inputs) (st st' : PathState) :
  rebuildCurveAndRoad env inp st = Done st' ->
  rebuildCurveAndRoad env inp st' = Done st'.
Proof.
  intros H.
  destruct (rebuildCurveAndRoad_keeps_path env inp st st' H) as [Ecp _].
  unfold rebuildCurveAndRoad in *. rewrite Ecp.
  destruct (length (sCurveControlPoints st) <? 2)%nat eqn:E.
  - injection H as <-. reflexivity.
  - unfold initializePathData in *. cbv zeta in *.
    assert (Et : tension st' = tension st).
    { destruct (curve_getPoints env _ _ _) as [|p0 rest]; [discriminate|].
      destruct (buildArcTable env p0 rest); [|discriminate].
      destruct (roadLoopOk _); [|discriminate].
      injection H as <-. reflexivity. }
    rewrite Ecp, Et.
    destruct (curve_getPoints env _ _ _) as [|p0 rest]; [discriminate|].
    destruct (buildArcTable env p0 rest) as [tb|]; [|discriminate].
    cbn [computeTurnAngles setSampledPts setTables sampledPts cumLen totalLen sAtPoint
         sCurveControlPoints segSpeeds turnAngle tension rideProgressT rideProgressS
         isRideActive isRideLooping] in *.
    destruct (roadLoopOk _) eqn:Eok; [|discriminate].
    injection H as <-.
    cbn [sCurveControlPoints segSpeeds turnAngle tension rideProgressT rideProgressS
         isRideActive isRideLooping].
    reflexivity.
Qed.

Lemma rebuildCurveAndRoad_idempotent_witness :
  rebuildCurveAndRoad refEnv refInputs stalledBuilt = Done stalledBuilt.
Proof.
  apply (rebuildCurveAndRoad_idempotent refEnv refInputs
           (setPath initialState (sCurveControlPoints stalledBuilt) (segSpeeds stalledBuilt))).
  vm_compute. reflexivity.
Defined.

(* ------------------------------------------------------------------ *)
(** * Further properties of initializePathData *)

Lemma getVec_app_l (l : list vec3) x i :
  (0 <= i < Z.of_nat (length l))%Z -> getVec (l ++ [x]) i = getVec l i.
Proof.
  intros Hi. unfold getVec, getOpt.
  destruct (i <? 0)%Z eqn:E; [apply Z.ltb_lt in E; lia|].
  rewrite nth_error_app1 by lia. reflexivity.
Qed.

Lemma getVec_app_r (l : list vec3) x :
  getVec (l ++ [x]) (Z.of_nat (length l)) = x.
Proof.
  unfold getVec, getOpt.
  destruct (Z.of_nat (length l) <? 0)%Z eqn:E; [apply Z.ltb_lt in E; lia|].
  rewrite Nat2Z.id, nth_error_app2 by lia. rewrite Nat.sub_diag. reflexivity.
Qed.

Lemma lastPt_getVec (l : list vec3) :
  l <> [] -> lastPt l = getVec l (Z.of_nat (length l) - 1).
Proof.
  intros Hne. destruct (exists_last Hne) as (l' & x & ->).
  unfold lastPt. rewrite last_last, length_app. simpl.
  replace (Z.of_nat (length l' + 1) - 1)%Z with (Z.of_nat (length l')) by lia.
  rewrite getVec_app_r. reflexivity.
Qed.

Lemma tableAccumulates_push env a b steps tb k :
  tableShape tb -> tableAccumulates env (tblPts tb) (tblCum tb) ->
  tableAccumulates env (tblPts (pushSample env a b steps tb k))
                       (tblCum (pushSample env a b steps tb k)).
Proof.
  intros (Hlen & Hne & H0 & Hlast) Hacc j Hj Hlt.
  unfold pushSample in *. cbv zeta in *. cbn [tblPts tblCum] in *.
  rewrite length_app in Hlt. simpl in Hlt.
  assert (Hnep : tblPts tb <> []).
  { intro E. rewrite E in Hlen. destruct (tblCum tb); [congruence|discriminate]. }
  destruct (Z.eq_dec (j + 1) (Z.of_nat (length (tblCum tb)))) as [E|E].
  - rewrite E, getNum_app_r, getNum_app_l by lia.
    rewrite Hlen, getVec_app_r, getVec_app_l by lia.
    replace j with (Z.of_nat (length (tblCum tb)) - 1)%Z by lia.
    rewrite Hlast, (lastPt_getVec _ Hnep), Hlen. reflexivity.
  - rewrite !getNum_app_l, !getVec_app_l by lia. apply Hacc; lia.
Qed.

Lemma tableAccumulates_fold env a b steps ks : forall tb,
  tableShape tb -> tableAccumulates env (tblPts tb) (tblCum tb) ->
  tableAccumulates env (tblPts (fold_left (pushSample env a b steps) ks tb))
                       (tblCum (fold_left (pushSample env a b steps) ks tb)).
Proof.
  induction ks as [|k ks IH]; intros tb Hsh H; simpl; [exact H|].
  apply IH; [apply tableShape_push; exact Hsh|].
  apply tableAccumulates_push; assumption.
Qed.

Lemma tableAccumulates_buildLoop env rest : forall tb a tb',
  tableShape tb -> tableAccumulates env (tblPts tb) (tblCum tb) ->
  buildLoop env tb a rest = Some tb' ->
  tableAccumulates env (tblPts tb') (tblCum tb').
Proof.
  induction rest as [|b rest IH]; intros tb a tb' Hsh H; simpl.
  - intros [= <-]. exact H.
  - unfold subdivide. destruct (loopCount _) as [n|]; [|discriminate].
    apply IH; [apply tableShape_fold; exact Hsh|].
    apply tableAccumulates_fold; assumption.
Qed.

(** X8. In the table initializePathData builds, each cumulative length is the
    previous one plus the straight-line distance between the two consecutive
    samples: cumLen[k+1] = cumLen[k] + |sampledPts[k+1] - sampledPts[k]|, so
    cumLen[i] is the length of the polyline through the first i + 1 samples. *)
Theorem initializePathData_accumulates (env : Env) (inp : Inputs) (st st' : PathState) :
  initializePathData env inp st = Done st' ->
  forall k : Z, (0 <= k)%Z -> (k + 1 < Z.of_nat (length (cumLen st')))%Z ->
    getNum (cumLen st') (k + 1) =
      getNum (cumLen st') k
      + distanceTo env (getVec (sampledPts st') (k + 1)) (getVec (sampledPts st') k).
Proof.
  unfold initializePathData. cbv zeta.
  destruct (curve_getPoints env _ _ _) as [|p0 rest] eqn:Ep; [discriminate|].
  unfold buildArcTable.
  destruct (buildLoop env _ p0 rest) as [tb|] eqn:Eb; [|discriminate].
  intros [= <-]. cbn [setTables cumLen sampledPts].
  apply (tableAccumulates_buildLoop env rest _ p0 tb (initial_table_shape p0)); [|exact Eb].
  intros k Hk Hlt. simpl in Hlt. lia.
Qed.

Lemma initializePathData_accumulates_witness :
  getNum (cumLen shortInitialized) 2 =
    getNum (cumLen shortInitialized) 1
    + distanceTo refEnv (getVec (sampledPts shortInitialized) 2)
                        (getVec (sampledPts shortInitialized) 1).
Proof.
  apply (initializePathData_accumulates refEnv refInputs shortBuilt shortInitialized
           ltac:(vm_compute; reflexivity) 1%Z).
  - lia.
  - vm_compute. reflexivity.
Defined.

(** The table of a run of initializePathData on finite curve points. *)
Lemma initializePathData_table env inp st st' :
  initializePathData env inp st = Done st' ->
  sqrtNonneg env -> finiteCurvePoints env inp st ->
  arcLengthTable st' /\ getNum (cumLen st') 0 = zero /\
  isFinite (totalLen st') = true /\
  length (cumLen st') = length (sampledPts st') /\
  Forall (fun p => vec_finite p = true) (sampledPts st').
Proof.
  unfold initializePathData, finiteCurvePoints. cbv zeta.
  destruct (curve_getPoints env _ _ _) as [|p0 rest] eqn:Ep; [discriminate|].
  unfold buildArcTable.
  destruct (buildLoop env _ p0 rest) as [tb|] eqn:Eb; [|discriminate].
  intros [= <-] Hsq Hfin. unfold arcLengthTable, lastIndex. simpl.
  pose proof (tableShape_buildLoop env rest _ p0 tb (initial_table_shape p0) Eb)
    as (Hlen & Hne & H0 & Hlast).
  inversion Hfin as [|? ? Hp0 Hrest]; subst.
  pose proof (tableSorted_buildLoop env rest _ p0 tb Hsq Hp0 Hrest
                (initial_table_shape p0) (initial_table_sorted p0 Hp0) Eb)
    as (Hacc & Hpts & Hs).
  repeat split; assumption.
Qed.

Lemma nearestIndex_range env p samples : forall i best,
  let r := nearestIndex env p samples i best in
  r = fst best \/ (i <= r < i + Z.of_nat (length samples))%Z.
Proof.
  induction samples as [|q rest IH]; intros i best; simpl nearestIndex.
  - left. reflexivity.
  - cbv zeta.
    destruct (IH (i + 1)%Z (if distanceTo env q p <? snd best
                            then (i, distanceTo env q p) else best)) as [E|H].
    + destruct (distanceTo env q p <? snd best).
      * right. rewrite E. simpl fst. simpl length. lia.
      * left. exact E.
    + right. simpl length. lia.
Qed.

Lemma getNum_map {A} (f : A -> num) (l : list A) (i : nat) (x : A) :
  nth_error l i = Some x -> getNum (map f l) (Z.of_nat i) = f x.
Proof.
  intros H. unfold getNum.
  destruct (Z.of_nat i <? 0)%Z eqn:E; [apply Z.ltb_lt in E; lia|].
  rewrite Nat2Z.id.
  apply nth_error_nth. rewrite nth_error_map, H. reflexivity.
Qed.

(** X9. initializePathData gives every control point an arc-length anchor
    that is an entry of cumLen: sAtPoint has one entry per control point, each
    equal to cumLen[k] for some sample index k, hence between 0 and totalLen
    when the table is sorted (finite curve points, non-negative square
    roots). *)
Theorem initializePathData_anchors (env : Env) (inp : Inputs) (st st' : PathState) :
  initializePathData env inp st = Done st' ->
  length (sAtPoint st') = length (sCurveControlPoints st') /\
  (forall i : nat, (i < length (sCurveControlPoints st'))%nat ->
     exists k : Z, (0 <= k <= lastIndex st')%Z /\
       getNum (sAtPoint st') (Z.of_nat i) = getNum (cumLen st') k) /\
  (sqrtNonneg env -> finiteCurvePoints env inp st ->
   forall i : nat, (i < length (sCurveControlPoints st'))%nat ->
     zero <= getNum (sAtPoint st') (Z.of_nat i) <= totalLen st').
Proof.
  intros Hi.
  assert (Hfirst :
    length (sAtPoint st') = length (sCurveControlPoints st') /\
    (forall i : nat, (i < length (sCurveControlPoints st'))%nat ->
       exists k : Z, (0 <= k <= lastIndex st')%Z /\
         getNum (sAtPoint st') (Z.of_nat i) = getNum (cumLen st') k)).
  { pose proof Hi as Hi'. unfold initializePathData in Hi'. cbv zeta in Hi'.
    destruct (curve_getPoints env _ _ _) as [|p0 rest] eqn:Ep; [discriminate|].
    unfold buildArcTable in Hi'.
    destruct (buildLoop env _ p0 rest) as [tb|] eqn:Eb; [|discriminate].
    injection Hi' as <-. unfold lastIndex.
    cbn [setTables sAtPoint sCurveControlPoints cumLen].
    pose proof (tableShape_buildLoop env rest _ p0 tb (initial_table_shape p0) Eb)
      as (Hlen & Hne & H0 & Hlast).
    split; [apply length_map|].
    intros i Hlt.
    destruct (nth_error (sCurveControlPoints st) i) as [p|] eqn:En;
      [|apply nth_error_None in En; lia].
    rewrite (getNum_map _ _ _ _ En). unfold sAtControlPoint.
    exists (nearestIndex env p (tblPts tb) 0 (0%Z, PInf)). split; [|reflexivity].
    assert (Hpos : (0 < Z.of_nat (length (tblCum tb)))%Z)
      by (destruct (tblCum tb); [congruence|simpl; lia]).
    destruct (nearestIndex_range env p (tblPts tb) 0 (0%Z, PInf)) as [E|H].
    - rewrite E. simpl. lia.
    - rewrite <- Hlen in H. lia. }
  destruct Hfirst as [Hlen Hk]. split; [exact Hlen|]. split; [exact Hk|].
  intros Hsq Hfin i Hlt.
  destruct (initializePathData_table env inp st st' Hi Hsq Hfin) as (Ht & H0 & _).
  destruct (Hk i Hlt) as (k & Hr & ->).
  apply table_entry_bounds; assumption.
Qed.

Lemma initializePathData_anchors_witness :
  length (sAtPoint circuitInitialized) = 4%nat /\
  zero <= getNum (sAtPoint circuitInitialized) 2 <= totalLen circuitInitialized.
Proof.
  assert (H1 : initializePathData refEnv refInputs circuitBuilt = Done circuitInitialized)
    by (vm_compute; reflexivity).
  assert (H2 : finiteCurvePoints refEnv refInputs circuitBuilt)
    by (unfold finiteCurvePoints; vm_compute; repeat constructor).
  destruct (initializePathData_anchors refEnv refInputs circuitBuilt circuitInitialized H1)
    as (Ha & _ & Hc).
  split; [exact Ha|].
  apply (Hc sqrtNonneg_refEnv H2 2%nat). simpl. lia.
Defined.

Lemma ltb_zero_eq x d : (d === zero) = true -> (x <? zero) = false -> (x <? d) = false.
Proof.
  unfold zero. destruct x as [| |a|], d as [| |b|]; simpl; try discriminate; try reflexivity.
  intros H1 H2. qbool. lra.
Qed.

(** Once a sample at distance 0 has been found, no later sample replaces it. *)
Lemma nearestIndex_keeps env p samples : forall i b d,
  (d === zero) = true ->
  Forall (fun q => (distanceTo env q p <? zero) = false) samples ->
  nearestIndex env p samples i (b, d) = b.
Proof.
  induction samples as [|q rest IH]; intros i b d Hd Hall; simpl; [reflexivity|].
  inversion Hall as [|? ? Hq Hrest]; subst.
  rewrite (ltb_zero_eq _ _ Hd Hq). apply IH; assumption.
Qed.

Lemma distanceTo_not_negative env p :
  sqrtNonneg env -> vec_finite p = true ->
  forall l, Forall (fun q => vec_finite q = true) l ->
  Forall (fun q => (distanceTo env q p <? zero) = false) l.
Proof.
  intros Hsq Hp l Hl. induction Hl as [|q l Hq _ IH]; constructor; [|exact IH].
  destruct (distanceTo_finite env q p Hsq Hq Hp) as (r & -> & Hr).
  unfold zero. simpl. qbool. exact Hr.
Qed.

(** X10. A control point lying exactly on the first sample is anchored at arc
    length 0: the nearest-sample search keeps the first sample at distance 0.
    On a closed circuit, whose last control point is the first one again, the
    last anchor is therefore 0 and not totalLen. *)
Theorem initializePathData_anchor_at_start
    (env : Env) (inp : Inputs) (st st' : PathState) (i : nat) (p : vec3) :
  initializePathData env inp st = Done st' ->
  sqrtNonneg env -> finiteCurvePoints env inp st ->
  nth_error (sCurveControlPoints st) i = Some p ->
  vec_finite p = true ->
  (distanceTo env (getVec (sampledPts st') 0) p === zero) = true ->
  getNum (sAtPoint st') (Z.of_nat i) = zero.
Proof.
  intros Hi Hsq Hfin Hn Hp Hd.
  destruct (initializePathData_table env inp st st' Hi Hsq Hfin)
    as (_ & H0 & _ & _ & Hpts).
  unfold initializePathData in Hi. cbv zeta in Hi.
  destruct (curve_getPoints env _ _ _) as [|p0 rest]; [discriminate|].
  destruct (buildArcTable env p0 rest) as [tb|]; [|discriminate].
  injection Hi as <-. cbn [setTables sAtPoint sampledPts cumLen] in *.
  rewrite (getNum_map _ _ _ _ Hn). unfold sAtControlPoint.
  destruct (tblPts tb) as [|q0 more] eqn:Eq.
  - simpl. exact H0.
  - change (getVec (q0 :: more) 0) with q0 in Hd.
    inversion Hpts as [|? ? Hq0 Hmore]; subst.
    destruct (distanceTo_finite env q0 p Hsq Hq0 Hp) as (r & Er & _).
    simpl nearestIndex. rewrite Er. simpl ltb. rewrite <- Er.
    rewrite (nearestIndex_keeps env p more 1 0 _ Hd
               (distanceTo_not_negative env p Hsq Hp more Hmore)).
    exact H0.
Qed.

Lemma initializePathData_anchor_at_start_witness :
  getNum (sAtPoint circuitInitialized) 3 = zero /\
  zero < totalLen circuitInitialized.
Proof.
  assert (H1 : initializePathData refEnv refInputs circuitBuilt = Done circuitInitialized)
    by (vm_compute; reflexivity).
  assert (H2 : finiteCurvePoints refEnv refInputs circuitBuilt)
    by (unfold finiteCurvePoints; vm_compute; repeat constructor).
  split; [|vm_compute; reflexivity].
  apply (initializePathData_anchor_at_start refEnv refInputs circuitBuilt circuitInitialized
           3 (Vec3 (Fin 0) zero (Fin 0)) H1 sqrtNonneg_refEnv H2).
  - reflexivity.
  - reflexivity.
  - vm_compute. reflexivity.
Defined.

(* ------------------------------------------------------------------ *)
(** * Further properties of computeTurnAngles *)

Lemma getVec_xz (pts pts' : list vec3) :
  Forall2 (fun p q => vx p = vx q /\ vz p = vz q) pts pts' ->
  forall i, vx (getVec pts i) = vx (getVec pts' i) /\
            vz (getVec pts i) = vz (getVec pts' i).
Proof.
  intros H i. unfold getVec, getOpt.
  destruct (i <? 0)%Z; [split; reflexivity|].
  generalize (Z.to_nat i). clear i.
  induction H as [|p q l l' Hpq _ IH]; intros n.
  - destruct n; split; reflexivity.
  - destruct n as [|n]; [exact Hpq|]. exact (IH n).
Qed.

Lemma turnAngleAt_xz env (pts pts' : list vec3) i :
  Forall2 (fun p q => vx p = vx q /\ vz p = vz q) pts pts' ->
  turnAngleAt env pts i = turnAngleAt env pts' i.
Proof.
  intros H. unfold turnAngleAt, subVectors, setY. cbv zeta. cbn [vx vy vz].
  destruct (getVec_xz pts pts' H i) as [-> ->].
  destruct (getVec_xz pts pts' H (i - 1)) as [-> ->].
  destruct (getVec_xz pts pts' H (i + 1)) as [-> ->].
  reflexivity.
Qed.

(** X11. The turn angles depend only on the x and z coordinates of the control
    points: two lists of control points that agree in x and z, whatever their
    heights are (NaN included), get the same list of turn angles. *)
Theorem turnAngles_ignore_height (env : Env) (pts pts' : list vec3) :
  Forall2 (fun p q => vx p = vx q /\ vz p = vz q) pts pts' ->
  turnAngles env pts = turnAngles env pts'.
Proof.
  intros H. unfold turnAngles.
  rewrite <- (Forall2_length H).
  apply map_ext. intros i.
  rewrite (turnAngleAt_xz env pts pts' (Z.of_nat i) H). reflexivity.
Qed.

Lemma turnAngles_ignore_height_witness :
  turnAngles refEnv
    [Vec3 (Fin 0) (Fin 5) (Fin 0); Vec3 (Fin 1) NaN (Fin 0); Vec3 (Fin 1) (Fin (-2)) (Fin 1)]
  = turnAngles refEnv
    [Vec3 (Fin 0) zero (Fin 0); Vec3 (Fin 1) zero (Fin 0); Vec3 (Fin 1) zero (Fin 1)].
Proof.
  apply turnAngles_ignore_height.
  repeat constructor.
Defined.

Section RealAngleRange.

Local Open Scope R_scope.


Lemma radToDeg_PI2 : RealAngles.radToDeg (PI / 2) = 90.
Proof. unfold RealAngles.radToDeg. field. apply PI_neq0. Qed.


(** X12. Every angle computeTurnAngles computes lies between 0 and 180
    degrees, whatever the control points are. *)
Theorem turnAngleAt_range (pts : list RealAngles.rvec3) (i : nat) :
  0 <= RealAngles.turnAngleAt pts i <= 180.
Proof.
  unfold RealAngles.turnAngleAt. cbv zeta.
  set (d := RealAngles.clamp _ _ _).
  destruct (acos_bound d) as [H0 H1].
  pose proof PI_RGT_0 as HPI.
  unfold RealAngles.radToDeg.
  assert (Hk : 0 < 180 / PI) by (apply Rdiv_lt_0_compat; lra).
  split.
  - apply Rmult_le_pos; lra.
  - replace 180 with (PI * (180 / PI)) at 2 by (field; lra).
    apply Rmult_le_compat_r; lra.
Qed.

Lemma real_normalize_zero a :
  RealAngles.rx a = 0 -> RealAngles.ry a = 0 -> RealAngles.rz a = 0 ->
  RealAngles.normalize a = RealAngles.RVec3 0 0 0.
Proof.
  intros Hx Hy Hz. unfold RealAngles.normalize. cbv zeta.
  rewrite Hx, Hy, Hz. f_equal; apply Rmult_0_l.
Qed.

(** X13. A control point repeated in the plan (same x and z as its
    predecessor, or as its successor) gets a turn angle of exactly 90
    degrees: the zero displacement stays the zero vector under normalize, the
    dot product is 0 and acos(0) is a right angle. *)
Theorem turnAngleAt_repeated_point (pts : list RealAngles.rvec3) (i : nat) :
  let a := RealAngles.getVec pts (i - 1) in
  let b := RealAngles.getVec pts i in
  let c := RealAngles.getVec pts (i + 1) in
  (RealAngles.rx b = RealAngles.rx a /\ RealAngles.rz b = RealAngles.rz a) \/
  (RealAngles.rx c = RealAngles.rx b /\ RealAngles.rz c = RealAngles.rz b) ->
  RealAngles.turnAngleAt pts i = 90.
Proof.
  intros a b c H. unfold RealAngles.turnAngleAt. cbv zeta. fold a b c.
  assert (Hd : RealAngles.dot
                 (RealAngles.normalize (RealAngles.setY (RealAngles.subVectors b a) 0))
                 (RealAngles.normalize (RealAngles.setY (RealAngles.subVectors c b) 0))
               = 0).
  { destruct H as [[Hx Hz]|[Hx Hz]].
    - rewrite (real_normalize_zero (RealAngles.setY (RealAngles.subVectors b a) 0));
        [|simpl; lra|reflexivity|simpl; lra].
      unfold RealAngles.dot. simpl. ring.
    - rewrite (real_normalize_zero (RealAngles.setY (RealAngles.subVectors c b) 0));
        [|simpl; lra|reflexivity|simpl; lra].
      unfold RealAngles.dot. simpl. ring. }
  rewrite Hd, real_clamp_id by lra.
  rewrite acos_0. apply radToDeg_PI2.
Qed.

Lemma turnAngleAt_repeated_point_witness :
  RealAngles.turnAngleAt
    [RealAngles.RVec3 0 0 0; RealAngles.RVec3 3 0 0; RealAngles.RVec3 3 0 0;
     RealAngles.RVec3 3 0 0] 1 = 90.
Proof.
  apply turnAngleAt_repeated_point. right. simpl. split; reflexivity.
Defined.





End RealAngleRange.

(* ------------------------------------------------------------------ *)
(** * Further properties of the speed profile *)

(** ** The speed at a turn point *)



Section TurnPoint.

Variables (inp : Inputs) (st : PathState) (i : nat).
Hypothesis Hdef : defaultWindows inp.
Hypothesis Hsorted : nondecreasing (sAtPoint st).
Hypothesis Hlen : length (sAtPoint st) = length (sCurveControlPoints st).
Hypothesis Hi1 : (1 <= i)%nat.
Hypothesis Hin : (i + 1 < length (sCurveControlPoints st))%nat.
Hypothesis Hprev0 : zero <= getNum (sAtPoint st) (Z.of_nat i - 1).
Hypothesis Hgap :
  getNum (sAtPoint st) (Z.of_nat i - 1) + eps6 <= getNum (sAtPoint st) (Z.of_nat i).
Hypothesis Hnext :
  getNum (sAtPoint st) (Z.of_nat i) < getNum (sAtPoint st) (Z.of_nat i + 1).

Let s := getNum (sAtPoint st) (Z.of_nat i).








End TurnPoint.



(* ------------------------------------------------------------------ *)
(** * Steering *)

Lemma between_inv lo hi v :
  Fin lo <= v -> v <= Fin hi -> exists q, v = Fin q /\ (lo <= q <= hi)%Q.
Proof.
  unfold le. destruct v as [| |q|]; simpl; try discriminate.
  intros H1 H2. qbool. exists q. split; [reflexivity|split; assumption].
Qed.

Lemma between_intro (lo hi q : Q) : (lo <= q <= hi)%Q -> Fin lo <= Fin q <= Fin hi.
Proof. intros [H1 H2]. unfold le. simpl. split; qbool; assumption. Qed.

(** Folding an angle of [-180, 180] gives an angle of [-90, 90]. *)
Lemma foldBeta_range (b : Q) :
  (-180 <= b <= 180)%Q -> exists r, foldBeta (Fin b) = Fin r /\ (-90 <= r <= 90)%Q.
Proof.
  intros Hb. unfold foldBeta, gtb. simpl.
  destruct (Qltb 90 b) eqn:E1; simpl.
  - destruct (Qltb (180 + - b) (-90)) eqn:E2; simpl;
      eexists; (split; [reflexivity|]); qbool; lra.
  - destruct (Qltb b (-90)) eqn:E2; simpl;
      eexists; (split; [reflexivity|]); qbool; lra.
Qed.

Lemma rawRollOf_range g beta gamma :
  (rollSign g = one \/ rollSign g = Fin (-1)%Q) ->
  Fin (-180)%Q <= beta <= Fin 180%Q ->
  Fin (-90)%Q <= gamma <= Fin 90%Q ->
  Fin (-90)%Q <= rawRollOf g beta gamma <= Fin 90%Q.
Proof.
  intros Hsign [Hb0 Hb1] Hg. unfold rawRollOf.
  destruct (isLandscape g); [|exact Hg].
  destruct (between_inv _ _ _ Hb0 Hb1) as (b & -> & Hb).
  destruct Hsign as [-> | ->]; unfold one; simpl mul.
  - destruct (foldBeta_range (b * 1) ltac:(lra)) as (r & -> & Hr).
    apply between_intro. exact Hr.
  - destruct (foldBeta_range (b * -1) ltac:(lra)) as (r & -> & Hr).
    apply between_intro. exact Hr.
Qed.

(** One step of a low-pass filter with a coefficient in [0, 1] stays inside
    any interval that holds the old value and the input. *)
Lemma lowpass_range lo hi (a : Q) x r :
  (0 <= a <= 1)%Q ->
  Fin lo <= x <= Fin hi -> Fin lo <= r <= Fin hi ->
  Fin lo <= x + (r - x) * Fin a <= Fin hi.
Proof.
  intros Ha [Hx0 Hx1] [Hr0 Hr1].
  destruct (between_inv _ _ _ Hx0 Hx1) as (p & -> & Hp).
  destruct (between_inv _ _ _ Hr0 Hr1) as (q & -> & Hq).
  simpl. apply between_intro. split; nra.
Qed.

Lemma sub_range x y :
  Fin (-90)%Q <= x <= Fin 90%Q -> Fin (-90)%Q <= y <= Fin 90%Q ->
  Fin (-180)%Q <= x - y <= Fin 180%Q.
Proof.
  intros [Hx0 Hx1] [Hy0 Hy1].
  destruct (between_inv _ _ _ Hx0 Hx1) as (p & -> & Hp).
  destruct (between_inv _ _ _ Hy0 Hy1) as (q & -> & Hq).
  simpl. apply between_intro. split; lra.
Qed.

(** X17. The roll control keeps its ranges.  If the smoothed roll and the
    baseline are within [-90, 90] degrees, the relative roll within
    [-180, 180] and the roll sign is 1 or -1, then this still holds after an
    orientation event whose angles are in the ranges of the DeviceOrientation
    specification (in portrait as in landscape, where beta is folded into
    [-90, 90]), after centering, and after an orientation change; an event
    without gamma or beta changes none of the three. *)
Theorem steering_keeps_ranges (g : SteerState) (e : OrientationEvent) :
  steerInvariant g -> eventInRange e ->
  steerInvariant (handleDeviceOrientationEvent e g) /\
  steerInvariant (centerGyroscopeHeading g) /\
  (forall o, steerInvariant (updateOrientationState o g)) /\
  (evGamma e = None \/ evBeta e = None ->
     rollDegreesSmoothed (handleDeviceOrientationEvent e g) = rollDegreesSmoothed g /\
     rollRelativeDegreesSmoothed (handleDeviceOrientationEvent e g)
       = rollRelativeDegreesSmoothed g).
Proof.
  intros [(Hsm & Hbase & Hrel) Hsign] [Hbeta Hgamma].
  split; [|split; [|split]].
  - unfold handleDeviceOrientationEvent. cbv zeta.
    destruct (evGamma e) as [gamma|] eqn:Eg;
      [|split; [split; [|split]|]; assumption].
    destruct (evBeta e) as [beta|] eqn:Eb;
      [|split; [split; [|split]|]; assumption].
    pose proof (rawRollOf_range g beta gamma Hsign (Hbeta beta eq_refl) (Hgamma gamma eq_refl))
      as Hraw.
    assert (Hsm' : Fin (-90)%Q <= rollDegreesSmoothed g
                     + (rawRollOf g beta gamma - rollDegreesSmoothed g) * yawLowPassAlpha
                   <= Fin 90%Q).
    { apply lowpass_range; [lra|assumption|assumption]. }
    split; [|exact Hsign]. split; [exact Hsm'|]. split; [exact Hbase|].
    cbn [rollRelativeDegreesSmoothed].
    apply lowpass_range; [lra|assumption|].
    apply sub_range; assumption.
  - split; [|exact Hsign]. unfold centerGyroscopeHeading. split; [exact Hsm|].
    split; [exact Hsm|]. cbn [rollRelativeDegreesSmoothed].
    apply between_intro. lra.
  - intros o. split; [split; [|split]; assumption|].
    unfold updateOrientationState. cbv zeta. cbn [rollSign].
    destruct (_ === _); [right|left]; reflexivity.
  - intros Hnone. unfold handleDeviceOrientationEvent. cbv zeta.
    destruct Hnone as [-> | Hb].
    + split; reflexivity.
    + rewrite Hb. destruct (evGamma e); split; reflexivity.
Qed.

Lemma steering_keeps_ranges_witness :
  steerInvariant
    (handleDeviceOrientationEvent
       (mkOrientationEvent (Some (Fin 10%Q)) (Some (Fin 120%Q)) (Some (Fin (-30)%Q)))
       (updateOrientationState (Some (Fin (-90)%Q)) initialSteer)).
Proof.
  apply steering_keeps_ranges.
  - split; [|right; reflexivity].
    unfold rollInRange. simpl. repeat split.
  - split; intros x [= <-]; split; reflexivity.
Defined.

(** X18. With a finite relative roll and a finite sensitivity the needle
    renderLoop computes is a number between -1 and 1 (never NaN).  The input
    handlers keep the steering configuration finite whatever is typed: a
    sensitivity that does not parse to a finite number becomes 1, such a
    camera offset is ignored. *)
Theorem needle_in_range (g : SteerState) :
  isFinite (rollRelativeDegreesSmoothed g) = true ->
  steerConfigFinite g ->
  Fin (-1)%Q <= needleNormalized g <= one /\
  (forall value,
     steerConfigFinite (onGyroSensitivityInput value g) /\
     steerConfigFinite (onCameraOffsetMinInput value g) /\
     steerConfigFinite (onCameraOffsetMaxInput value g)).
Proof.
  intros Hrel (Hsens & Hmin & Hmax).
  assert (Hn : exists t, needleNormalized g = Fin t /\ (-1 <= t <= 1)%Q).
  { unfold needleNormalized, maxRollDegrees.
    destruct (finite_inv _ Hrel) as [r ->]. destruct (finite_inv _ Hsens) as [k ->].
    unfold clampNumber, max, min, one. simpl.
    destruct (Qltb (r * k / 45) (-1)) eqn:E1; simpl.
    - eexists. split; [reflexivity|]. lra.
    - destruct (Qltb 1 (r * k / 45)) eqn:E2; eexists; (split; [reflexivity|]); qbool; lra. }
  destruct Hn as (t & Et & Ht).
  split; [rewrite Et; apply between_intro; exact Ht|].
  intros value. unfold steerConfigFinite, onGyroSensitivityInput,
    onCameraOffsetMinInput, onCameraOffsetMaxInput.
  destruct (isFinite value) eqn:Ev; cbn [yawSensitivity cameraOffsetMin cameraOffsetMax];
    repeat split; assumption || reflexivity.
Qed.

Lemma needle_in_range_witness :
  let g := mkSteerState false one zero (Fin 60%Q) (Fin 60%Q) zero zero zero (Fin 2%Q)
             (Fin (-25 # 100)%Q) (Fin (25 # 100)%Q) zero in
  Fin (-1)%Q <= needleNormalized g <= one /\
  steerConfigFinite (onGyroSensitivityInput NaN g).
Proof.
  intros g.
  destruct (needle_in_range g eq_refl (conj eq_refl (conj eq_refl eq_refl)))
    as (Ha & Hb).
  split; [exact Ha|]. exact (proj1 (Hb NaN)).
Defined.

(* ------------------------------------------------------------------ *)
(** * Score, hearts and target *)

(** The scoring loop, given at least as many iterations as the accumulator
    holds whole tenths, ends below 0.1 and not below 0; the score does not
    go down, and stays as it is off the target. *)
Lemma scoreTicks_ends (ov : bool) : forall (n : nat) (q c : Q),
  (0 <= q)%Q -> (q < inject_Z (Z.of_nat n + 1) * tenthQ)%Q ->
  exists r c',
    scoreTicks n ov (Fin q) (Fin c) = (Fin r, Fin c') /\
    (0 <= r)%Q /\ (r < tenthQ)%Q /\ (c <= c')%Q /\ (ov = false -> c' = c).
Proof.
  induction n as [|n IH]; intros q c Hq0 Hq.
  - exists q, c. split; [reflexivity|]. split; [exact Hq0|]. split.
    + change (inject_Z (Z.of_nat 0 + 1)) with 1%Q in Hq. lra.
    + split; [lra|reflexivity].
  - cbn [scoreTicks].
    destruct (Fin q >=? tenth) eqn:Etest.
    + assert (Hge : (tenthQ <= q)%Q) by (unfold geb, tenth in Etest; simpl in Etest; qbool; exact Etest).
      assert (Hnext : (q + - tenthQ < inject_Z (Z.of_nat n + 1) * tenthQ)%Q).
      { replace (Z.of_nat (S n) + 1)%Z with ((Z.of_nat n + 1) + 1)%Z in Hq by lia.
        rewrite (inject_Z_plus (Z.of_nat n + 1)) in Hq.
        change (inject_Z 1) with 1%Q in Hq. lra. }
      assert (Hq0' : (0 <= q + - tenthQ)%Q) by lra.
      destruct (IH (q + - tenthQ)%Q (if ov then (c + 1)%Q else c) Hq0' Hnext)
        as (r & c' & Er & Hr0 & Hr & Hc & Hov).
      exists r, c'.
      assert (Eacc : Fin q - tenth = Fin (q + - tenthQ)) by reflexivity.
      assert (Esc : (if ov then Fin c + one else Fin c) = Fin (if ov then (c + 1)%Q else c))
        by (destruct ov; reflexivity).
      rewrite Eacc, Esc, Er. split; [reflexivity|]. split; [exact Hr0|].
      split; [exact Hr|]. split.
      * destruct ov; lra.
      * intros ->. apply Hov. reflexivity.
    + exists q, c. split; [reflexivity|]. split; [exact Hq0|]. split.
      * unfold geb, tenth in Etest. simpl in Etest. qbool. exact Etest.
      * split; [lra|reflexivity].
Qed.

(** The whole tenths of [q] are enough iterations. *)
Lemma scoreLoop_fuel (q : Q) :
  (0 <= q)%Q ->
  (q < inject_Z (Z.of_nat (Z.to_nat (Qfloor (q * 10))) + 1) * tenthQ)%Q.
Proof.
  intros Hq.
  assert (Hk : (0 <= Qfloor (q * 10))%Z).
  { assert (H10 : (0 <= q * 10)%Q) by lra. exact (Qfloor_resp_le 0 _ H10). }
  rewrite Z2Nat.id by exact Hk.
  pose proof (Qlt_floor (q * 10)) as Hc.
  set (k := inject_Z (Qfloor (q * 10) + 1)) in *.
  assert (Hk0 : (0 <= k)%Q) by lra.
  assert (Ht : (1 # 10 <= tenthQ)%Q) by (unfold tenthQ; unfold Qle; simpl; lia).
  assert (Hm : (k * (1 # 10) <= k * tenthQ)%Q).
  { assert (H0 : (0 <= k * (tenthQ - (1 # 10)))%Q)
      by (apply Qmult_le_0_compat; lra).
    lra. }
  lra.
Qed.

(** The scoring loop of an active ride. *)
Lemma updateHud_score
    (hs : HudState) (needle deltaSeconds barWidthPx : num) :
  accumulatorInRange (scoreAccumulatorSeconds hs) ->
  frameTime deltaSeconds ->
  isFinite (playerScore hs) = true ->
  exists hs' active',
    hudStateOf (updateHudAndScoring hs true needle deltaSeconds barWidthPx)
      = Some (hs', active') /\
    zero <= scoreAccumulatorSeconds hs' /\ scoreAccumulatorSeconds hs' < tenth /\
    isFinite (playerScore hs') = true /\
    playerScore hs <= playerScore hs' /\
    (frameOverlapping hs needle barWidthPx = false -> playerScore hs' = playerScore hs).
Proof.
  intros Hacc Hdt Hsf.
  destruct (frameTime_inv _ Hdt) as (d & Ed & Hd0).
  destruct Hacc as [Ha0 Ha1].
  assert (Ea : exists a, scoreAccumulatorSeconds hs = Fin a /\ (0 <= a)%Q).
  { revert Ha0 Ha1. unfold le, zero.
    destruct (scoreAccumulatorSeconds hs) as [| |a|]; simpl; try discriminate.
    intros H _. exists a. split; [reflexivity|]. qbool. exact H. }
  destruct Ea as (a & Ea & Ha).
  destruct (finite_inv _ Hsf) as [c Ec].
  unfold updateHudAndScoring. cbv zeta. rewrite Ea, Ed, Ec in *.
  assert (Hq : (0 <= a + d)%Q) by lra.
  change (Fin a + Fin d) with (Fin (a + d)).
  cbn [scoreLoop].
  set (ov := frameOverlapping hs needle barWidthPx).
  destruct (scoreTicks_ends ov (Z.to_nat (Qfloor ((a + d) * 10))) (a + d) c Hq
              (scoreLoop_fuel _ Hq))
    as (r & c' & -> & Hr0 & Hr & Hc & Hov).
  assert (Hfacts :
    zero <= Fin r /\ Fin r < tenth /\ isFinite (Fin c') = true /\
    Fin c <= Fin c' /\ (ov = false -> Fin c' = Fin c)).
  { unfold le, lt, zero, tenth. simpl.
    split; [qbool; exact Hr0|]. split; [qbool; exact Hr|].
    split; [reflexivity|]. split; [qbool; exact Hc|].
    intros E. rewrite (Hov E). reflexivity. }
  cbn [andb].
  destruct (wasInsideTargetPrevFrame hs && negb ov).
  - destruct (repeatRaises _ || repeatRaises _);
      eexists; eexists; (split; [reflexivity|]); exact Hfacts.
  - eexists; eexists; (split; [reflexivity|]); exact Hfacts.
Qed.

(** X19. While the ride is active, one call of updateHudAndScoring with a
    frame time between 0 and 1e6 seconds and an accumulator between 0 and
    1e6 ends its scoring loop: the accumulator is left in [0, 0.1), the score
    stays finite and does not go down, and it is unchanged when the needle
    is off the target. *)
Theorem updateHudAndScoring_accumulator
    (hs : HudState) (needle deltaSeconds barWidthPx : num) :
  accumulatorInRange (scoreAccumulatorSeconds hs) ->
  frameTime deltaSeconds ->
  isFinite (playerScore hs) = true ->
  exists hs' active',
    hudStateOf (updateHudAndScoring hs true needle deltaSeconds barWidthPx)
      = Some (hs', active') /\
    zero <= scoreAccumulatorSeconds hs' /\ scoreAccumulatorSeconds hs' < tenth /\
    isFinite (playerScore hs') = true /\
    playerScore hs <= playerScore hs' /\
    (frameOverlapping hs needle barWidthPx = false -> playerScore hs' = playerScore hs).
Proof.
  intros Hacc Hdt Hsf. apply updateHud_score; assumption.
Qed.

Lemma updateHudAndScoring_accumulator_witness :
  exists hs' active',
    hudStateOf (updateHudAndScoring initialHud true zero (Fin (25 # 100)%Q) (Fin 300%Q))
      = Some (hs', active') /\
    zero <= scoreAccumulatorSeconds hs' /\ scoreAccumulatorSeconds hs' < tenth /\
    playerScore initialHud <= playerScore hs'.
Proof.
  assert (Ha : accumulatorInRange (scoreAccumulatorSeconds initialHud))
    by (split; vm_compute; reflexivity).
  assert (Hd : frameTime (Fin (25 # 100)%Q))
    by (apply frameTime_intro; vm_compute; reflexivity).
  destruct (updateHudAndScoring_accumulator initialHud zero (Fin (25 # 100)%Q) (Fin 300%Q)
              Ha Hd eq_refl)
    as (hs' & active' & E & H0 & H1 & _ & Hs & _).
  exists hs', active'. split; [exact E|]. split; [exact H0|]. split; [exact H1|].
  exact Hs.
Defined.

Lemma Qtrunc_int (q : Q) (k : Z) : (q == inject_Z k)%Q -> Qtrunc q = k.
Proof.
  intros H. unfold Qtrunc. destruct (Qle_bool 0 q).
  - rewrite H. apply Qfloor_Z.
  - rewrite H. apply Qceiling_Z.
Qed.

Lemma heartsValid_inv h :
  heartsValid h -> exists q k, h = Fin q /\ (0 <= k <= 3)%Z /\ (q == inject_Z k)%Q.
Proof.
  intros (k & Hk & E). destruct h as [| |q|]; simpl in E; try discriminate.
  exists q, k. unfold intNum in E. simpl in E. qbool. auto.
Qed.

Lemma heartsValid_intro (q : Q) (k : Z) :
  (0 <= k <= 3)%Z -> (q == inject_Z k)%Q -> heartsValid (Fin q).
Proof.
  intros Hk E. exists k. split; [exact Hk|]. unfold intNum. simpl. qbool. exact E.
Qed.

(** The heart display accepts every valid number of hearts. *)
Lemma heartsValid_repeat h :
  heartsValid h -> repeatRaises h = false /\ repeatRaises (Fin 3%Q - h) = false.
Proof.
  intros H. destruct (heartsValid_inv h H) as (q & k & -> & Hk & E).
  cbn [repeatRaises sub add neg]. split.
  - rewrite (Qtrunc_int q k E). apply Z.ltb_ge. lia.
  - rewrite (Qtrunc_int (3 + - q) (3 - k)).
    + apply Z.ltb_ge. lia.
    + rewrite E. unfold Z.sub. rewrite inject_Z_plus, inject_Z_opp. reflexivity.
Qed.

(** Losing a heart. *)
Lemma heartsValid_damage h :
  heartsValid h ->
  heartsValid (max zero (h - one)) /\
  max zero (h - one) <= h /\ h - one <= max zero (h - one) /\
  ((max zero (h - one) <=? zero) = false -> zero < max zero (h - one)).
Proof.
  intros H. destruct (heartsValid_inv h H) as (q & k & -> & Hk & E).
  assert (Hq : (0 <= q)%Q).
  { rewrite E. change 0%Q with (inject_Z 0). rewrite <- Zle_Qle. lia. }
  unfold max, zero, one, le, lt. simpl.
  destruct (Qltb 0 (q + - (1))) eqn:E1; simpl; qbool.
  - split; [|split; [|split]]; try (qbool; lra).
    + assert (Hk1 : (1 <= k)%Z).
      { destruct (Z_le_gt_dec 1 k) as [|Hgt]; [assumption|exfalso].
        assert (k = 0%Z) by lia. subst k. change (inject_Z 0) with 0%Q in E. lra. }
      apply (heartsValid_intro _ (k - 1)); [lia|].
      rewrite E. unfold Z.sub. rewrite inject_Z_plus, inject_Z_opp. reflexivity.
    + intros _. qbool. lra.
  - split; [|split; [|split]]; try (qbool; lra).
    + apply (heartsValid_intro 0 0); [lia|reflexivity].
    + intros Hc. exfalso. revert Hc. unfold Qle_bool. simpl. discriminate.
Qed.

(** The hearts over one call. *)
Lemma updateHud_hearts
    (hs : HudState) (active : bool) (needle deltaSeconds barWidthPx : num) :
  heartsValid (playerHearts hs) ->
  (active = true -> zero < playerHearts hs) ->
  (forall hs' active',
     updateHudAndScoring hs active needle deltaSeconds barWidthPx
       <> HudRangeError hs' active') /\
  (forall hs' active',
     updateHudAndScoring hs active needle deltaSeconds barWidthPx = HudDone hs' active' ->
     heartsValid (playerHearts hs') /\
     playerHearts hs' <= playerHearts hs /\
     playerHearts hs - one <= playerHearts hs' /\
     (active' = true -> active = true /\ zero < playerHearts hs') /\
     (active = false \/ wasInsideTargetPrevFrame hs = false \/
      frameOverlapping hs needle barWidthPx = true \/ noDamageMode hs = true ->
      playerHearts hs' = playerHearts hs)).
Proof.
  intros Hv Hpos.
  destruct (heartsValid_repeat _ Hv) as [Hr1 Hr2].
  destruct (heartsValid_damage _ Hv) as (Hdv & Hdle & Hdge & Hdpos).
  destruct (heartsValid_repeat _ Hdv) as [Hr3 Hr4].
  destruct (heartsValid_inv _ Hv) as (q & k & Eq & Hk & Ek).
  assert (Hrefl : playerHearts hs <= playerHearts hs)
    by (rewrite Eq; unfold le; simpl; qbool; lra).
  assert (Hpred : playerHearts hs - one <= playerHearts hs)
    by (rewrite Eq; unfold le, one; simpl; qbool; lra).
  unfold updateHudAndScoring. cbv zeta.
  set (ov := frameOverlapping hs needle barWidthPx).
  destruct (if active then _ else _) as [[acc score]|]; [|split; intros; discriminate].
  destruct (active && wasInsideTargetPrevFrame hs && negb ov) eqn:Ecase.
  - apply andb_true_iff in Ecase. destruct Ecase as [Ecase Eov].
    apply andb_true_iff in Ecase. destruct Ecase as [Eact Ewas].
    apply negb_true_iff in Eov.
    destruct (noDamageMode hs) eqn:End.
    + rewrite Hr1, Hr2. cbn [orb]. split; [intros; discriminate|].
      intros hs' active' [= <- <-]. cbn [playerHearts].
      split; [exact Hv|]. split; [exact Hrefl|]. split; [exact Hpred|].
      split; [|reflexivity].
      destruct (playerHearts hs <=? zero) eqn:E0; [discriminate|]. intros _.
      split; [exact Eact|]. apply Hpos. exact Eact.
    + rewrite Hr3, Hr4. cbn [orb]. split; [intros; discriminate|].
      intros hs' active' [= <- <-]. cbn [playerHearts].
      split; [exact Hdv|]. split; [exact Hdle|]. split; [exact Hdge|].
      split.
      * match goal with
        | |- (if ?c then _ else _) = true -> _ => destruct c eqn:E0
        end; [discriminate|]. intros _.
        split; [exact Eact|]. apply Hdpos. exact E0.
      * intros [H|[H|[H|H]]]; congruence.
  - split; [intros; discriminate|].
    intros hs' active' [= <- <-]. cbn [playerHearts].
    split; [exact Hv|]. split; [exact Hrefl|]. split; [exact Hpred|].
    split; [|reflexivity].
    intros Ha. split; [exact Ha|]. apply Hpos. exact Ha.
Qed.

(** X20. The hearts stay valid.  If the number of hearts is 0, 1, 2 or 3
    (and at least 1 while the ride is active), updateHudAndScoring never
    raises the RangeError of the heart display, and when it returns the
    number of hearts is again 0, 1, 2 or 3, has dropped by at most one, is
    still at least 1 if the ride is still active (the ride is stopped when
    the last heart is lost), and is unchanged unless the ride is active, the
    needle was on the target in the previous frame, has left it, and the
    no-damage mode is off. *)
Theorem updateHudAndScoring_hearts
    (hs : HudState) (active : bool) (needle deltaSeconds barWidthPx : num) :
  heartsValid (playerHearts hs) ->
  (active = true -> zero < playerHearts hs) ->
  (forall hs' active',
     updateHudAndScoring hs active needle deltaSeconds barWidthPx
       <> HudRangeError hs' active') /\
  (forall hs' active',
     updateHudAndScoring hs active needle deltaSeconds barWidthPx = HudDone hs' active' ->
     heartsValid (playerHearts hs') /\
     playerHearts hs' <= playerHearts hs /\
     playerHearts hs - one <= playerHearts hs' /\
     (active' = true -> active = true /\ zero < playerHearts hs') /\
     (active = false \/ wasInsideTargetPrevFrame hs = false \/
      frameOverlapping hs needle barWidthPx = true \/ noDamageMode hs = true ->
      playerHearts hs' = playerHearts hs)).
Proof.
  intros Hv Hpos. apply updateHud_hearts; assumption.
Qed.

Lemma updateHudAndScoring_hearts_witness :
  exists hs' active',
    updateHudAndScoring initialHud true one (Fin (16 # 1000)%Q) (Fin 300%Q)
      = HudDone hs' active' /\
    heartsValid (playerHearts hs') /\ playerHearts hs' <= playerHearts initialHud.
Proof.
  assert (Hv : heartsValid (playerHearts initialHud)).
  { exists 3%Z. split; [lia|reflexivity]. }
  destruct (updateHudAndScoring_hearts initialHud true one (Fin (16 # 1000)%Q) (Fin 300%Q)
              Hv (fun _ => eq_refl)) as [Hno Hd].
  destruct (updateHudAndScoring initialHud true one (Fin (16 # 1000)%Q) (Fin 300%Q))
    as [hs' a'|hs' a'|] eqn:E.
  - exists hs', a'. split; [reflexivity|].
    destruct (Hd hs' a' eq_refl) as (Ha & Hb & _).
    split; [exact Ha|exact Hb].
  - exfalso. exact (Hno hs' a' eq_refl).
  - vm_compute in E. discriminate E.
Defined.

Lemma clampNumber_range v (lo hi : Q) :
  (lo <= hi)%Q -> isNaN v = false ->
  exists t, clampNumber v (Fin lo) (Fin hi) = Fin t /\ (lo <= t <= hi)%Q.
Proof.
  intros Hlh Hv. unfold clampNumber, max, min.
  destruct v as [| |a|]; simpl in *; try discriminate.
  - destruct (Qltb hi lo) eqn:E; eexists; (split; [reflexivity|]); qbool; lra.
  - destruct (Qltb a lo) eqn:E1; simpl.
    + destruct (Qltb hi lo) eqn:E2; eexists; (split; [reflexivity|]); qbool; lra.
    + destruct (Qltb hi a) eqn:E2; eexists; (split; [reflexivity|]); qbool; lra.
  - eexists. split; [reflexivity|]. lra.
Qed.

Lemma isOverlapping_intervals (nl tl w : Q) :
  (0 <= w)%Q ->
  (isOverlapping (Fin nl) (Fin tl) (Fin w) = true <->
   exists x : Q, (nl <= x <= nl + 4 /\ tl <= x <= tl + w)%Q).
Proof.
  intros Hw. unfold isOverlapping, gtb. simpl.
  rewrite negb_true_iff, orb_false_iff. split.
  - intros [H1 H2]. qbool.
    destruct (Qlt_le_dec nl tl) as [Hlt|Hge].
    + exists tl. lra.
    + exists nl. lra.
  - intros (x & Hx1 & Hx2). split; qbool; lra.
Qed.

(** X21. The on-target test of a frame.  For a finite bar width and a needle,
    a smoothed target center and a target width that are not NaN: the target
    is at least 6 pixels wide; the frame counts as on target exactly when
    the 4-pixel needle interval and the target interval have a point in
    common; and a bar of width 0 (a HUD that is not laid out) makes every
    frame count as on target. *)
Theorem frameOverlapping_meaning (hs : HudState) (needle barWidthPx : num) :
  isFinite barWidthPx = true -> zero <= barWidthPx ->
  isNaN needle = false -> isNaN (smoothedTarget hs) = false ->
  isNaN (targetWidthNormalized hs) = false ->
  exists nl tl w : Q,
    needleLeftPx needle barWidthPx = Fin nl /\
    targetLeftPx hs barWidthPx = Fin tl /\
    targetWidthPx hs barWidthPx = Fin w /\
    (6 <= w)%Q /\
    (frameOverlapping hs needle barWidthPx = true <->
     exists x : Q, (nl <= x <= nl + 4 /\ tl <= x <= tl + w)%Q) /\
    ((barWidthPx === zero) = true -> frameOverlapping hs needle barWidthPx = true).
Proof.
  intros Hbf Hb0 Hn Hs Hw.
  destruct (finite_inv _ Hbf) as [b Eb].
  assert (Hb : (0 <= b)%Q) by (rewrite Eb in Hb0; unfold le, zero in Hb0; simpl in Hb0; qbool; exact Hb0).
  destruct (clampNumber_range needle (-1) 1 ltac:(lra) Hn) as (cn & En & Hcn).
  destruct (clampNumber_range (smoothedTarget hs) (-1) 1 ltac:(lra) Hs) as (ct & Et & Hct).
  destruct (clampNumber_range (targetWidthNormalized hs) (2 # 100) 1 ltac:(lra) Hw)
    as (cw & Ew & Hcw).
  assert (Ewidth : exists w, targetWidthPx hs barWidthPx = Fin w /\ (6 <= w)%Q /\
                     ((b == 0)%Q -> (w == 6)%Q)).
  { unfold targetWidthPx, one. rewrite Eb. change one with (Fin 1%Q) in Ew. rewrite Ew.
    unfold max. simpl.
    destruct (Qltb 6 (b * cw)) eqn:E; eexists; (split; [reflexivity|]); qbool.
    - split; [lra|]. intros Hz. rewrite Hz in E. lra.
    - split; [lra|]. intros _. reflexivity. }
  destruct Ewidth as (w & Ewd & Hw6 & Hw0).
  exists ((cn + 1) * (5 # 10) * b + - (2))%Q, ((ct + 1) * (5 # 10) * b + - (w / 2))%Q, w.
  assert (Enl : needleLeftPx needle barWidthPx = Fin ((cn + 1) * (5 # 10) * b + - (2))).
  { unfold needleLeftPx, normalizedToPixels. change one with (Fin 1%Q) in *.
    rewrite En, Eb. reflexivity. }
  assert (Etl : targetLeftPx hs barWidthPx = Fin ((ct + 1) * (5 # 10) * b + - (w / 2))).
  { unfold targetLeftPx, normalizedToPixels. change one with (Fin 1%Q) in *.
    rewrite Ewd, Et, Eb. reflexivity. }
  split; [exact Enl|]. split; [exact Etl|]. split; [exact Ewd|]. split; [exact Hw6|].
  unfold frameOverlapping. rewrite Enl, Etl, Ewd.
  split; [apply isOverlapping_intervals; lra|].
  intros Hz. rewrite Eb in Hz. unfold zero in Hz. simpl in Hz. qbool.
  apply isOverlapping_intervals; [lra|].
  specialize (Hw0 Hz).
  assert (E62 : (6 / 2 == 3)%Q) by reflexivity.
  exists (-2)%Q. rewrite Hz, Hw0, E62. split; split; lra.
Qed.

Lemma frameOverlapping_meaning_witness :
  frameOverlapping initialHud one zero = true.
Proof.
  destruct (frameOverlapping_meaning initialHud one zero eq_refl eq_refl eq_refl eq_refl eq_refl)
    as (nl & tl & w & _ & _ & _ & _ & _ & Hz).
  apply Hz. reflexivity.
Defined.

Lemma smoothedTarget_range hs :
  targetInRange hs -> Fin (-1)%Q <= smoothedTarget hs <= one.
Proof.
  intros (_ & [Ha0 Ha1] & Hc & Hs).
  destruct (between_inv 0 1 _ Ha0 Ha1) as (a & Ea & Ha).
  unfold smoothedTarget. rewrite Ea.
  apply (lowpass_range (-1) 1); assumption.
Qed.

(** X22. The target keeps its ranges.  If the target width is within
    [0.02, 1], the smoothing coefficient within [0, 1] and the target center
    and its smoothed value within [-1, 1], this still holds after the two
    input handlers, whatever is typed (a value that is not a finite number
    is ignored, a finite one is clamped), and after updateHudAndScoring,
    whose smoothing step keeps the smoothed center between -1 and 1. *)
Theorem target_keeps_ranges (hs : HudState) :
  targetInRange hs ->
  (forall value,
     targetInRange (onTargetWidthInput value hs) /\
     targetInRange (onTargetSmoothingInput value hs)) /\
  (forall active needle deltaSeconds barWidthPx hs' active',
     hudStateOf (updateHudAndScoring hs active needle deltaSeconds barWidthPx)
       = Some (hs', active') ->
     targetInRange hs').
Proof.
  intros Hr. pose proof (smoothedTarget_range hs Hr) as Hsm.
  destruct Hr as (Hw & Ha & Hc & Hs). split.
  - intros value. unfold onTargetWidthInput, onTargetSmoothingInput.
    destruct (isFinite value) eqn:Ev;
      [|split; (split; [|split; [|split]]); assumption].
    assert (Hn : isNaN value = false) by (destruct value; try discriminate; reflexivity).
    split; (split; [|split; [|split]]); try assumption.
    + cbn [targetWidthNormalized].
      destruct (clampNumber_range value (2 # 100) 1 ltac:(lra) Hn) as (t & Et & Ht).
      change one with (Fin 1%Q). rewrite Et. apply between_intro. exact Ht.
    + cbn [targetSmoothingAlpha].
      destruct (clampNumber_range value 0 1 ltac:(lra) Hn) as (t & Et & Ht).
      change one with (Fin 1%Q). change zero with (Fin 0%Q). rewrite Et.
      apply between_intro. exact Ht.
  - intros active needle dt bar hs' active'. unfold updateHudAndScoring. cbv zeta.
    destruct (if active then _ else _) as [[acc score]|]; [|discriminate].
    destruct (active && wasInsideTargetPrevFrame hs && negb _).
    + destruct (repeatRaises _ || repeatRaises _); intros [= <- <-];
        (split; [|split; [|split]]); assumption.
    + intros [= <- <-]; (split; [|split; [|split]]); assumption.
Qed.

Lemma target_keeps_ranges_witness :
  targetInRange (onTargetWidthInput (Fin 5%Q) initialHud) /\
  targetInRange (onTargetSmoothingInput NaN initialHud).
Proof.
  assert (H : targetInRange initialHud).
  { unfold targetInRange. simpl. repeat split. }
  destruct (target_keeps_ranges initialHud H) as [Hh _].
  split; [exact (proj1 (Hh (Fin 5%Q)))|exact (proj2 (Hh NaN))].
Defined.

(* ------------------------------------------------------------------ *)
(** * Successive frames *)

Lemma rideStep_progressT inp st dt :
  rideProgressT (rideStep inp st dt) = sToT st (rideProgressS (rideStep inp st dt)).
Proof.
  unfold rideStep. cbv zeta.
  destruct (_ >=? totalLen st); [destruct (isRideLooping st)|]; reflexivity.
Qed.

Lemma rideStep_samePath inp st dt : samePath st (rideStep inp st dt).
Proof.
  unfold rideStep. cbv zeta.
  destruct (_ >=? totalLen st); [destruct (isRideLooping st)|];
    repeat split; reflexivity.
Qed.

Lemma samePath_refl st : samePath st st.
Proof. repeat split; reflexivity. Qed.

Lemma samePath_trans st1 st2 st3 : samePath st1 st2 -> samePath st2 st3 -> samePath st1 st3.
Proof.
  unfold samePath. intros (A1 & A2 & A3 & A4 & A5 & A6 & A7 & A8)
    (B1 & B2 & B3 & B4 & B5 & B6 & B7 & B8).
  repeat split; congruence.
Qed.

(** One step of the ride clock keeps the ride on the path. *)
Lemma rideStep_on_path inp st dt :
  arcLengthTable st -> getNum (cumLen st) 0 = zero ->
  length (sampledPts st) = length (cumLen st) ->
  zero < totalLen st -> isFinite (totalLen st) = true ->
  speedConfig inp st -> frameTime dt ->
  rideOnPath st -> rideOnPath (rideStep inp st dt).
Proof.
  intros Ht H0 Hlen HT HTf Hc Hdt (Hsf & [Hs0 Hs1] & _).
  destruct (advanced_nonneg inp st dt Hc Hsf Hs0 Hdt) as [H1f H10].
  destruct (rideStep_fields inp st dt) as [ES _]. cbv zeta in ES.
  assert (Hs' : isFinite (rideProgressS (rideStep inp st dt)) = true /\
                zero <= rideProgressS (rideStep inp st dt) <= totalLen (rideStep inp st dt)).
  { destruct (rideStep_samePath inp st dt) as (_ & _ & _ & _ & -> & _).
    rewrite ES.
    destruct (finite_inv _ H1f) as (a & Ea). destruct (finite_inv _ HTf) as (L & EL).
    rewrite Ea, EL in *.
    assert (Ha0 : (0 <= a)%Q) by (unfold le, zero in H10; simpl in H10; qbool; exact H10).
    assert (HL0 : (0 < L)%Q) by (unfold lt, zero in HT; simpl in HT; qbool; exact HT).
    destruct (Fin a >=? Fin L) eqn:Ege.
    - destruct (isRideLooping st).
      + destruct (rem_bounds a L Ha0 HL0) as (r & -> & Hr0 & Hr1).
        split; [reflexivity|]. unfold le, zero. simpl. split; qbool; lra.
      + split; [reflexivity|]. unfold le, zero. simpl. split; qbool; lra.
    - split; [reflexivity|]. unfold geb in Ege. simpl in Ege.
      unfold le, zero. simpl. split; qbool; lra. }
  destruct Hs' as [Hf' Hr']. split; [exact Hf'|]. split; [exact Hr'|].
  rewrite rideStep_progressT. apply sToT_unit; assumption.
Qed.

Lemma renderLoop_result env inp st dt st' :
  renderLoop env inp st dt = Done st' ->
  st' = st \/ st' = rideStep inp st dt.
Proof.
  unfold renderLoop. destruct (isRideActive st); [|intros [= <-]; left; reflexivity].
  cbv zeta. destruct (placeCameraAtPathT inp _); [|discriminate].
  destruct (frameAt _ _); [|discriminate].
  intros [= <-]. right. reflexivity.
Qed.

Lemma samePath_tables inp st st' :
  samePath st st' ->
  (tablesBuilt st -> tablesBuilt st') /\
  (arcLengthTable st -> arcLengthTable st') /\
  (speedConfig inp st -> speedConfig inp st').
Proof.
  intros (A1 & A2 & A3 & A4 & A5 & A6 & A7 & A8).
  unfold tablesBuilt, arcLengthTable, speedConfig, speedPerSegment, speedsBounded, lastIndex.
  rewrite A1, A2, A3, A4, A5. tauto.
Qed.

Lemma renderFrames_on_path env inp deltas : forall st,
  tablesBuilt st -> arcLengthTable st -> getNum (cumLen st) 0 = zero ->
  zero < totalLen st -> isFinite (totalLen st) = true ->
  speedConfig inp st ->
  Forall frameTime deltas ->
  rideOnPath st ->
  exists st', renderFrames env inp st deltas = Done st' /\
    rideOnPath st' /\ samePath st st'.
Proof.
  induction deltas as [|dt rest IH]; intros st Hb Ht H0 HT HTf Hc Hd Hr.
  - exists st. split; [reflexivity|]. split; [exact Hr|apply samePath_refl].
  - inversion Hd as [|? ? Hdt Hrest]; subst.
    simpl renderFrames.
    destruct (renderLoop_ok env inp st dt Hb) as (st1 & E1). rewrite E1.
    assert (H1 : rideOnPath st1 /\ samePath st st1).
    { destruct (renderLoop_result env inp st dt st1 E1) as [-> | ->].
      - split; [exact Hr|apply samePath_refl].
      - split; [|apply rideStep_samePath].
        apply rideStep_on_path; try assumption.
        destruct Hb as [Hlen _]. symmetry. exact Hlen. }
    destruct H1 as [Hr1 Hp1].
    destruct (samePath_tables inp st st1 Hp1) as (Tb & Ta & Ts).
    pose proof Hp1 as (_ & _ & _ & Ec & EL & _).
    destruct (IH st1 (Tb Hb) (Ta Ht)) as (st' & E & Hr' & Hp'); try assumption.
    + rewrite Ec. exact H0.
    + rewrite EL. exact HT.
    + rewrite EL. exact HTf.
    + exact (Ts Hc).
    + exists st'. split; [exact E|]. split; [exact Hr'|].
      eapply samePath_trans; eassumption.
Qed.

(** X24. A ride stays on the path, frame after frame.  On a built path
    (tables built, starting at 0, non-decreasing, ending at a finite
    totalLen > 0) with a speed configuration within bounds (one speed per
    segment, speeds and percentages of magnitude at most 1e100, no infinite
    window fraction), any sequence of frames with frame times between 0 and
    1e6 seconds runs without raising, leaves the tables and the control
    points as they were, and keeps rideProgressS finite and within
    [0, totalLen] and rideProgressT within [0, 1], whether the ride is
    active, looping, or has stopped on the way. *)
Theorem renderFrames_keep_ride_on_path
    (env : Env) (inp : Inputs) (st : PathState) (deltas : list num) :
  tablesBuilt st -> arcLengthTable st -> getNum (cumLen st) 0 = zero ->
  zero < totalLen st -> isFinite (totalLen st) = true ->
  speedConfig inp st ->
  Forall frameTime deltas ->
  rideOnPath st ->
  exists st', renderFrames env inp st deltas = Done st' /\
    rideOnPath st' /\ samePath st st'.
Proof.
  intros. apply renderFrames_on_path; assumption.
Qed.

Lemma speedConfig_shortRide : speedConfig refInputs (startRide shortBuilt true).
Proof.
  apply speedConfig_refInputs.
  - unfold speedPerSegment. simpl. lia.
  - unfold speedsBounded. simpl. bounded_numbers.
Qed.

Lemma renderFrames_keep_ride_on_path_witness :
  exists st',
    renderFrames refEnv refInputs (startRide shortBuilt true)
      [Fin (16 # 1000)%Q; Fin (16 # 1000)%Q; Fin (33 # 1000)%Q] = Done st' /\
    rideOnPath st'.
Proof.
  assert (Hb : tablesBuilt (startRide shortBuilt true)).
  { split; [reflexivity|]. simpl. lia. }
  assert (Hd : Forall frameTime
                 [Fin (16 # 1000)%Q; Fin (16 # 1000)%Q; Fin (33 # 1000)%Q]).
  { repeat (constructor; [apply frameTime_intro; vm_compute; reflexivity|]).
    constructor. }
  assert (Hr : rideOnPath (startRide shortBuilt true)).
  { unfold rideOnPath. simpl. repeat split. }
  destruct (renderFrames_keep_ride_on_path refEnv refInputs (startRide shortBuilt true)
              [Fin (16 # 1000)%Q; Fin (16 # 1000)%Q; Fin (33 # 1000)%Q]
              Hb arcLengthTable_shortBuilt eq_refl
              ltac:(vm_compute; reflexivity) eq_refl
              speedConfig_shortRide Hd Hr)
    as (st' & E & Hr' & _).
  exists st'. split; [exact E|exact Hr'].
Defined.

(* ------------------------------------------------------------------ *)
(** * Camera placement on too few samples *)

Lemma frameAt_short (pts : list vec3) idx :
  (length pts < 2)%nat -> frameAt pts idx = None.
Proof.
  intros Hn. unfold frameAt, getOpt.
  destruct pts as [|p [|q rest]]; [| |simpl in Hn; lia].
  - destruct (idx <? 0)%Z; [reflexivity|]. destruct (Z.to_nat idx); reflexivity.
  - destruct (idx <? 0)%Z eqn:E0; [reflexivity|]. apply Z.ltb_ge in E0.
    destruct (Z.to_nat idx) as [|n] eqn:En; simpl.
    + assert (idx = 0%Z) by lia. subst idx. reflexivity.
    + destruct n; reflexivity.
Qed.

(** X25. The camera cannot be placed on fewer than two samples: with no
    sample or a single one (as before the first build) placeCameraAtPathT
    raises the TypeError of reading a missing sample, wherever the ride
    stands, so resetCameraToPathStart raises after having reset the ride
    position, and so does a frame of an active ride. *)
Theorem placeCameraAtPathT_needs_two_samples
    (env : Env) (inp : Inputs) (st : PathState) (deltaSeconds : num) :
  (length (sampledPts st) < 2)%nat ->
  placeCameraAtPathT inp st = None /\
  resetCameraToPathStart env inp st
    = Raised (typeErrorMessage env) (setRide st zero zero (isRideActive st)) /\
  (isRideActive st = true ->
   renderLoop env inp st deltaSeconds
     = Raised (typeErrorMessage env) (rideStep inp st deltaSeconds)).
Proof.
  intros Hn.
  assert (Hp : forall st', sampledPts st' = sampledPts st -> placeCameraAtPathT inp st' = None).
  { intros st' E. unfold placeCameraAtPathT. cbv zeta.
    rewrite frameAt_short by (rewrite E; exact Hn). reflexivity. }
  split; [apply Hp; reflexivity|]. split.
  - unfold resetCameraToPathStart. cbv zeta. rewrite Hp by reflexivity. reflexivity.
  - intros Ha. unfold renderLoop. rewrite Ha. cbv zeta.
    rewrite Hp; [reflexivity|].
    destruct (rideStep_samePath inp st deltaSeconds) as (_ & _ & E & _). exact E.
Qed.

Lemma placeCameraAtPathT_needs_two_samples_witness :
  placeCameraAtPathT refInputs initialState = None /\
  resetCameraToPathStart refEnv refInputs initialState
    = Raised (typeErrorMessage refEnv) (setRide initialState zero zero false).
Proof.
  destruct (placeCameraAtPathT_needs_two_samples refEnv refInputs initialState zero)
    as (Ha & Hb & _).
  - simpl. lia.
  - split; [exact Ha|exact Hb].
Defined.

(* ------------------------------------------------------------------ *)
(** * The whole frame *)

(** One call of updateHudAndScoring on a valid game state returns, with a
    valid game state. *)
Lemma updateHud_done hs active needle dt bar :
  accumulatorInRange (scoreAccumulatorSeconds hs) ->
  frameTime dt ->
  isFinite (playerScore hs) = true ->
  heartsValid (playerHearts hs) ->
  (active = true -> zero < playerHearts hs) ->
  exists hs' active',
    updateHudAndScoring hs active needle dt bar = HudDone hs' active' /\
    isFinite (playerScore hs') = true /\
    accumulatorInRange (scoreAccumulatorSeconds hs') /\
    heartsValid (playerHearts hs') /\
    (active' = true -> active = true /\ zero < playerHearts hs').
Proof.
  intros Hacc Hdt Hsf Hv Hpos.
  destruct (updateHud_hearts hs active needle dt bar Hv Hpos) as [Hno Hdone].
  destruct active.
  - destruct (updateHud_score hs needle dt bar Hacc Hdt Hsf)
      as (hs' & a' & E & Hacc0 & Hacc1 & Hsf' & _).
    destruct (updateHudAndScoring hs true needle dt bar) as [h a|h a|] eqn:Eo;
      [|exfalso; exact (Hno h a eq_refl)|discriminate].
    simpl in E. injection E as -> ->.
    destruct (Hdone hs' a' eq_refl) as (Hv' & _ & _ & Hact & _).
    exists hs', a'. split; [reflexivity|].
    split; [exact Hsf'|]. split.
    { split; [exact Hacc0|].
      apply num_le_trans with tenth; [apply num_lt_le; exact Hacc1|].
      vm_compute. reflexivity. }
    split; [exact Hv'|exact Hact].
  - unfold updateHudAndScoring in *. cbv zeta in *. cbn [andb] in *.
    eexists. eexists. split; [reflexivity|]. cbn.
    split; [exact Hsf|]. split; [exact Hacc|].
    split; [exact Hv|]. intros; discriminate.
Qed.

Lemma renderLoop_active env inp st dt st' :
  renderLoop env inp st dt = Done st' ->
  isRideActive st' = true -> isRideActive st = true.
Proof.
  intros E Ha. destruct (isRideActive st) eqn:Est; [reflexivity|].
  unfold renderLoop in E. rewrite Est in E. injection E as <-. congruence.
Qed.

Lemma pathReady_samePath inp st st' :
  samePath st st' -> pathReady inp st -> pathReady inp st'.
Proof.
  intros Hp (Hb & Ht & H0 & HT & HTf & Hc).
  destruct (samePath_tables inp st st' Hp) as (Tb & Ta & Ts).
  destruct Hp as (_ & _ & _ & Ec & EL & _).
  unfold pathReady. rewrite Ec, EL.
  split; [exact (Tb Hb)|]. split; [exact (Ta Ht)|]. split; [exact H0|].
  split; [exact HT|]. split; [exact HTf|exact (Ts Hc)].
Qed.

Lemma renderLoop_on_path env inp st dt :
  pathReady inp st -> rideOnPath st -> frameTime dt ->
  exists st', renderLoop env inp st dt = Done st' /\
    samePath st st' /\ rideOnPath st'.
Proof.
  intros (Hb & Ht & H0 & HT & HTf & Hc) Hr Hdt.
  destruct (renderLoop_ok env inp st dt Hb) as (st1 & E1).
  exists st1. split; [exact E1|].
  destruct (renderLoop_result env inp st dt st1 E1) as [-> | ->].
  - split; [apply samePath_refl|exact Hr].
  - split; [apply rideStep_samePath|].
    apply rideStep_on_path; try assumption.
    destruct Hb as [Hlen _]. symmetry. exact Hlen.
Qed.

Lemma heartsValid_three : heartsValid (Fin 3%Q).
Proof. exists 3%Z. split; [lia|reflexivity]. Qed.

(** X26. A frame keeps the game valid.  On a ready path (tables built,
    finite totalLen > 0, a speed configuration within bounds) with the ride
    on the path, a finite score, an accumulator between 0 and 1e6 and 0 to 3
    hearts, at least 1 while the ride is active: a frame with a frame time
    between 0 and 1e6 seconds returns (no TypeError, no RangeError, no
    endless scoring loop) and leaves a state with the same properties; it
    never activates a ride; and startRide, when rideCurve.getPointAt(0)
    returns, leaves such a state with an active ride and 3 hearts. *)
Theorem renderFrame_keeps_game_valid
    (env : Env) (inp : Inputs) (g : GameState) (deltaSeconds barWidthPx : num) :
  gameInvariant inp g ->
  frameTime deltaSeconds ->
  (exists g',
     renderFrame env inp g deltaSeconds barWidthPx = FrameDone g' /\
     gameInvariant inp g' /\
     (isRideActive (gamePath g') = true -> isRideActive (gamePath g) = true)) /\
  (forall loop,
     curve_getPointAt env (sCurveControlPoints (gamePath g)) (tension (gamePath g)) zero
       <> None ->
     exists g',
       startGame env inp g loop = FrameDone g' /\
       gameInvariant inp g' /\
       isRideActive (gamePath g') = true /\
       (playerHearts (gameHud g') === Fin 3%Q) = true).
Proof.
  intros (Hready & Hride & Hsf & Hacc & Hv & Hpos) Hdt. split.
  - destruct (renderLoop_on_path env inp (gamePath g) deltaSeconds Hready Hride Hdt)
      as (st1 & E1 & Hsame & Hride1).
    unfold renderFrame. cbv zeta. rewrite E1.
    set (hud := if wrapsAround inp (gamePath g) deltaSeconds
                then resetScoreAndHearts (gameHud g) else gameHud g).
    assert (Hhud : accumulatorInRange (scoreAccumulatorSeconds hud) /\
                   isFinite (playerScore hud) = true /\
                   heartsValid (playerHearts hud) /\
                   (isRideActive st1 = true -> zero < playerHearts hud)).
    { subst hud. destruct (wrapsAround inp (gamePath g) deltaSeconds).
      - cbn [resetScoreAndHearts scoreAccumulatorSeconds playerScore playerHearts].
        split; [exact Hacc|]. split; [reflexivity|].
        split; [exact heartsValid_three|]. intros _. reflexivity.
      - split; [exact Hacc|]. split; [exact Hsf|].
        split; [exact Hv|]. intros Ha1. apply Hpos.
        exact (renderLoop_active env inp _ _ _ E1 Ha1). }
    destruct Hhud as (Hacc' & Hsf' & Hv' & Hpos').
    destruct (updateHud_done hud (isRideActive st1) (needleNormalized (gameSteer g))
                deltaSeconds barWidthPx Hacc' Hdt Hsf' Hv' Hpos')
      as (hs' & a' & -> & Hs2 & Ha2 & Hv2 & Hact2).
    eexists. split; [reflexivity|].
    cbn [gamePath gameHud setActive].
    split.
    + unfold gameInvariant. cbn [gamePath gameHud].
      split; [exact (pathReady_samePath inp _ _ Hsame Hready)|].
      split; [exact Hride1|]. split; [exact Hs2|]. split; [exact Ha2|].
      split; [exact Hv2|].
      cbn [setRide isRideActive]. intros Ha. exact (proj2 (Hact2 Ha)).
    + cbn [setRide isRideActive]. intros Ha.
      exact (renderLoop_active env inp _ _ _ E1 (proj1 (Hact2 Ha))).
  - intros loop Hpt. unfold startGame, resetCameraToPathStart. cbv zeta.
    destruct Hready as (Hb & Ht & H0 & HT & HTf & Hc).
    destruct (placeCameraAtPathT_ok inp
                (setRide (gamePath g) zero zero (isRideActive (gamePath g)))
                (tablesBuilt_setRide _ _ _ _ Hb)) as (f & ->).
    cbn [setRide sCurveControlPoints tension].
    destruct (curve_getPointAt env (sCurveControlPoints (gamePath g))
                (tension (gamePath g)) zero) as [pt|]; [|congruence].
    eexists. split; [reflexivity|].
    cbn [gamePath gameHud startRide isRideActive playerHearts].
    split; [|split; reflexivity].
    unfold gameInvariant. cbn [gamePath gameHud].
    split.
    { split; [exact Hb|]. split; [exact Ht|]. split; [exact H0|].
      split; [exact HT|]. split; [exact HTf|exact Hc]. }
    split.
    { unfold rideOnPath. cbn [rideProgressS rideProgressT totalLen setRide].
      split; [reflexivity|]. split; [split; [reflexivity|apply num_lt_le; exact HT]|].
      split; reflexivity. }
    cbn [playerScore scoreAccumulatorSeconds playerHearts isRideActive].
    split; [reflexivity|]. split; [exact Hacc|].
    split; [exact heartsValid_three|]. intros _. reflexivity.
Qed.

Lemma gameInvariant_shortGame : gameInvariant refInputs shortGame.
Proof.
  unfold gameInvariant, shortGame. cbn [gamePath gameHud].
  split.
  { split; [split; [reflexivity|simpl; lia]|].
    split; [exact arcLengthTable_shortBuilt|]. split; [reflexivity|].
    split; [vm_compute; reflexivity|]. split; [reflexivity|].
    exact speedConfig_shortRide. }
  split.
  { unfold rideOnPath. simpl. repeat split. }
  split; [reflexivity|]. split; [split; vm_compute; reflexivity|].
  split; [exact heartsValid_three|]. intros _. reflexivity.
Qed.

Lemma renderFrame_keeps_game_valid_witness :
  exists g',
    renderFrame refEnv refInputs shortGame (Fin (16 # 1000)%Q) (Fin 300%Q) = FrameDone g' /\
    gameInvariant refInputs g'.
Proof.
  assert (Hd : frameTime (Fin (16 # 1000)%Q))
    by (apply frameTime_intro; vm_compute; reflexivity).
  destruct (renderFrame_keeps_game_valid refEnv refInputs shortGame
              (Fin (16 # 1000)%Q) (Fin 300%Q) gameInvariant_shortGame Hd)
    as [(g' & E & Hinv & _) _].
  exists g'. split; [exact E|exact Hinv].
Defined.

(* ------------------------------------------------------------------ *)
(** * When the builders return *)

Lemma fold_pushSample_length env a b steps ks : forall tb,
  length (tblPts (fold_left (pushSample env a b steps) ks tb))
    = (length (tblPts tb) + length ks)%nat.
Proof.
  induction ks as [|k ks IH]; intros tb; simpl; [lia|].
  rewrite IH. unfold pushSample. cbn [tblPts]. rewrite length_app. simpl. lia.
Qed.

(** With finite points every pair of curve points adds at least one sample. *)
Lemma buildLoop_length env rest : forall tb a tb',
  sqrtNonneg env -> vec_finite a = true ->
  Forall (fun p => vec_finite p = true) rest ->
  buildLoop env tb a rest = Some tb' ->
  (length (tblPts tb) + length rest <= length (tblPts tb'))%nat.
Proof.
  induction rest as [|b rest IH]; intros tb a tb' Hsq Ha Hrest; simpl.
  - intros [= <-]. lia.
  - inversion Hrest as [|? ? Hb Hrest']; subst.
    unfold subdivide.
    destruct (distanceTo_finite env a b Hsq Ha Hb) as (r & -> & _).
    destruct (steps_finite r) as (m & -> & Hm). simpl.
    intros E. apply IH in E; try assumption.
    rewrite fold_pushSample_length, length_seq in E.
    assert (Hn : (1 <= Z.to_nat (Qfloor m))%nat).
    { assert (H1 : (1 <= Qfloor m)%Z) by exact (Qfloor_resp_le 1 m Hm). lia. }
    lia.
Qed.

Lemma roadLoopOk_enough (pts : list vec3) :
  (2 <= length pts)%nat -> roadLoopOk pts = true.
Proof.
  intros Hn. unfold roadLoopOk. apply forallb_forall. intros i Hi.
  apply in_seq in Hi.
  destruct (frameAt_in_range pts (Z.of_nat i) Hn ltac:(lia)) as (f & ->). reflexivity.
Qed.

Lemma pointInRange_finite p : pointInRange p -> vec_finite p = true.
Proof.
  unfold pointInRange, coordinateInRange, vec_finite, le.
  destruct p as [[| |x|] [| |y|] [| |z|]]; simpl;
    intros ([A1 A2] & [B1 B2] & [C1 C2]); congruence.
Qed.

Lemma curveSampled_finite env inp cps tension :
  curveSampled env inp cps tension ->
  (2 <= length (curve_getPoints env cps tension
                  (max (Fin 2%Q) (lenNum cps * resScale inp))))%nat /\
  Forall (fun p => vec_finite p = true)
    (curve_getPoints env cps tension (max (Fin 2%Q) (lenNum cps * resScale inp))).
Proof.
  unfold curveSampled. cbv zeta. intros (H2 & _ & Hall).
  split; [exact H2|].
  eapply Forall_impl; [|exact Hall]. intros p. apply pointInRange_finite.
Qed.

(** The rebuild on a sampled curve. *)
Lemma rebuildCurveAndRoad_done (env : Env) (inp : Inputs) (st : PathState) :
  sqrtNonneg env ->
  curveSampled env inp (sCurveControlPoints st) (tension st) ->
  exists st',
    rebuildCurveAndRoad env inp st = Done st' /\
    ((2 <= length (sCurveControlPoints st))%nat ->
     tablesBuilt st' /\ arcLengthTable st' /\ getNum (cumLen st') 0 = zero /\
     isFinite (totalLen st') = true).
Proof.
  intros Hsq Hcs. destruct (curveSampled_finite _ _ _ _ Hcs) as [Hn Hfin].
  unfold rebuildCurveAndRoad.
  destruct (length (sCurveControlPoints st) <? 2)%nat eqn:E2.
  { exists st. split; [reflexivity|]. apply Nat.ltb_lt in E2. lia. }
  assert (Hne : curve_getPoints env (sCurveControlPoints st) (tension st)
                  (max (Fin 2%Q) (lenNum (sCurveControlPoints st) * resScale inp)) <> []).
  { intros E0. rewrite E0 in Hn. simpl in Hn. lia. }
  destruct (initializePathData_returns env inp st Hsq Hfin Hne) as (st1 & E1).
  rewrite E1. cbv zeta.
  destruct (initializePathData_table env inp st st1 E1 Hsq Hfin)
    as (Ht & H0 & HTf & Hlen & _).
  assert (H2 : (2 <= length (sampledPts st1))%nat).
  { unfold initializePathData in E1. cbv zeta in E1.
    destruct (curve_getPoints env _ _ _) as [|p0 rest] eqn:Ep; [congruence|].
    unfold buildArcTable in E1.
    destruct (buildLoop env _ p0 rest) as [tb|] eqn:Eb; [|discriminate].
    injection E1 as <-. cbn [setTables sampledPts].
    inversion Hfin as [|? ? Hp0 Hrest]; subst.
    pose proof (buildLoop_length env rest _ p0 tb Hsq Hp0 Hrest Eb) as Hl.
    cbn [tblPts] in Hl. simpl length in Hl, Hn. lia. }
  rewrite roadLoopOk_enough
    by (cbn [setSampledPts setTables sampledPts]; rewrite liftSamples_length; exact H2).
  eexists. split; [reflexivity|]. intros _.
  unfold tablesBuilt, arcLengthTable, lastIndex.
  cbn [setSampledPts setTables computeTurnAngles sampledPts cumLen totalLen].
  rewrite liftSamples_length.
  split; [split; [exact Hlen|exact H2]|].
  split; [exact Ht|]. split; [exact H0|exact HTf].
Qed.

(** X27. rebuildCurveAndRoad returns whenever the curve sampler yields
    between 2 and 100 points with coordinates of magnitude at most 1000
    (and square roots are not negative): the sampling loops end, the road
    loop finds every neighbour it reads, and the state it leaves has at least
    two samples, one cumulative length per sample, and a table that starts at
    0, is non-decreasing and ends at a finite totalLen. *)
Theorem rebuildCurveAndRoad_returns (env : Env) (inp : Inputs) (st : PathState) :
  sqrtNonneg env ->
  curveSampled env inp (sCurveControlPoints st) (tension st) ->
  exists st',
    rebuildCurveAndRoad env inp st = Done st' /\
    ((2 <= length (sCurveControlPoints st))%nat ->
     tablesBuilt st' /\ arcLengthTable st' /\ getNum (cumLen st') 0 = zero /\
     isFinite (totalLen st') = true).
Proof.
  intros Hsq Hc. apply rebuildCurveAndRoad_done; assumption.
Qed.

Ltac points_in_range :=
  repeat first
    [ apply Forall_nil
    | apply Forall_cons
    | split; vm_compute; reflexivity
    | split ].

Lemma rebuildCurveAndRoad_returns_witness :
  exists st', rebuildCurveAndRoad refEnv refInputs shortBuilt = Done st' /\ tablesBuilt st'.
Proof.
  assert (Hc : curveSampled refEnv refInputs (sCurveControlPoints shortBuilt)
                 (tension shortBuilt)).
  { unfold curveSampled. vm_compute curve_getPoints.
    split; [simpl; lia|]. split; [simpl; lia|]. points_in_range. }
  destruct (rebuildCurveAndRoad_returns refEnv refInputs shortBuilt sqrtNonneg_refEnv Hc)
    as (st' & E & H).
  exists st'. split; [exact E|]. apply H. simpl. lia.
Defined.

Lemma mapPoints_some env items :
  ~ In JNull items -> exists pts, mapPoints env items = Some pts.
Proof.
  induction items as [|p rest IH]; intros Hnn; [exists []; reflexivity|].
  destruct IH as (pts & E); [intros H; apply Hnn; right; exact H|].
  simpl. rewrite E.
  destruct p; try (eexists; reflexivity).
  exfalso. apply Hnn. left. reflexivity.
Qed.

(** X28. loadPathFromJSON succeeds on a description whose points array has
    at least two entries, none of them null, as soon as the curve sampler
    yields between 2 and 100 points with coordinates of magnitude at most
    1000 for the new control points and rideCurve.getPointAt(0) returns on
    them (and square roots are not negative): whatever the speeds of the file
    hold, the import returns without an alert. *)
Theorem loadPathFromJSON_returns
    (env : Env) (inp : Inputs) (st : PathState) (data : json) (points : list json) :
  pointsOf data = Some points ->
  (2 <= length points)%nat ->
  ~ In JNull points ->
  sqrtNonneg env ->
  (forall newPts, mapPoints env points = Some newPts ->
     curveSampled env inp newPts (tension st) /\
     curve_getPointAt env newPts (tension st) zero <> None) ->
  exists st', loadPathFromJSON env inp st (Parsed data) = Done st'.
Proof.
  intros Hp Hn Hnn Hsq Hcurve.
  destruct (mapPoints_some env points Hnn) as (newPts & Em).
  pose proof (mapPoints_length env points newPts Em) as Hlen.
  destruct (Hcurve newPts Em) as [Hcs Hpt].
  unfold pointsOf in Hp. unfold loadPathFromJSON.
  destruct (getProp data "points") as [[v|]|]; try discriminate.
  destruct v; try discriminate. injection Hp as ->.
  destruct (length points <? 2)%nat eqn:E; [apply Nat.ltb_lt in E; lia|].
  cbv zeta. rewrite Em.
  cbn [setPath sCurveControlPoints segSpeeds].
  match goal with
  | |- context [rebuildCurveAndRoad env inp ?s] => set (st0 := s)
  end.
  assert (Hc : curveSampled env inp (sCurveControlPoints st0) (tension st0))
    by exact Hcs.
  destruct (rebuildCurveAndRoad_done env inp st0 Hsq Hc) as (st1 & Er & Hb).
  rewrite Er.
  assert (H2 : (2 <= length (sCurveControlPoints st0))%nat)
    by (subst st0; cbn [setPath sCurveControlPoints]; lia).
  destruct (Hb H2) as (Hbuilt & _).
  destruct (rebuildCurveAndRoad_keeps_path env inp st0 st1 Er) as [Ecp _].
  destruct (rebuildCurveAndRoad_fields env inp st0 st1 Er H2)
    as (_ & _ & _ & _ & _ & _ & Etn).
  unfold resetCameraToPathStart. cbv zeta.
  destruct (placeCameraAtPathT_ok inp (setRide st1 zero zero (isRideActive st1))
              (tablesBuilt_setRide _ _ _ _ Hbuilt)) as (f & ->).
  cbn [setRide sCurveControlPoints tension]. rewrite Ecp, Etn.
  subst st0. cbn [setPath sCurveControlPoints tension].
  destruct (curve_getPointAt env newPts (tension st) zero); [|congruence].
  eexists. reflexivity.
Qed.

Lemma loadPathFromJSON_returns_witness :
  exists st', loadPathFromJSON refEnv refInputs initialState (Parsed circuitPath) = Done st'.
Proof.
  apply (loadPathFromJSON_returns refEnv refInputs initialState circuitPath
           [jsonPoint 0 0; jsonPoint (3 # 100) 0; jsonPoint (3 # 100) (3 # 100);
            jsonPoint 0 0]).
  - reflexivity.
  - simpl. lia.
  - simpl. intros [H|[H|[H|[H|H]]]]; try discriminate H. exact H.
  - exact sqrtNonneg_refEnv.
  - intros newPts E. injection E as <-. split.
    + unfold curveSampled. vm_compute curve_getPoints.
      split; [simpl; lia|]. split; [simpl; lia|]. points_in_range.
    + vm_compute. discriminate.
Defined.
